(** * spotify-mixer: the deck store, the crossfader and the auto-crossfade
      scheduler of [src/stores/audioStore.ts]

    The store is a zustand store: one record of plain data and a set of
    operations that read it with [get()] and replace it with [set(...)].
    Operations run on one thread; an [async] operation runs up to its first
    [await], and the rest of it runs later, possibly after other operations.

    Numbers.  The numbers that come from outside (positions, volumes,
    settings, the clock) are real numbers, and the arithmetic of the source
    is read as exact arithmetic, without the rounding of binary64.  The one
    division of the store whose divisor can be 0, in a frame of a
    transition, gives NaN or an infinity as in the source; the numbers that
    can then be NaN (the progress of a frame, the crossfader position and
    the position given to [setCrossfader], the gains of the two deck gain
    nodes, a volume pushed to the remote player) are of type [number], a
    real number, an infinity or NaN.

    Effects.  An operation is a function from the world to a result and a
    new world.  The world holds the store, every state [set] has installed
    so far, the part of the Spotify store that is read, the clock, and the
    calls made to the Spotify store, the player, the timers and the
    beat-sync manager.  [Date.now()] reads the clock, which does not move
    while a piece of code runs without interruption.

    Suspension.  What an operation leaves to be done after an [await] or in
    a requested animation frame is a task; the system is the world and the
    pool of tasks, and a step either calls an operation from outside or
    lets one task go on, in any order.

    Components.  The handlers of the components that call the store
    ([Crossfader], [AutoCrossfade], [DeckPanel], [VinylRecord]) are
    operations too; what a handler reads from its props and hooks is the
    state the component was last rendered with, an argument of its own. *)

From Stdlib Require Import Reals Lra Lia Bool String ZArith List.
Import ListNotations.

Local Open Scope R_scope.

(** ** JavaScript numbers *)

Module JS.

(** [x < y], [x <= y], [x > y] and [x >= y] as the booleans the source
    branches on. *)
Definition ltb (x y : R) : bool := if Rlt_dec x y then true else false.
Definition leb (x y : R) : bool := if Rle_dec x y then true else false.
Definition gtb (x y : R) : bool := ltb y x.
Definition geb (x y : R) : bool := leb y x.

Definition Math_max (x y : R) : R := Rmax x y.
Definition Math_min (x y : R) : R := Rmin x y.

(** [Math.round]: the nearest integer, halves rounded up. *)
Definition Math_round (x : R) : R := IZR (Zfloor (x + / 2)).

(** [Math.pow] on a base that is not negative: anything to the power [0]
    is [1], [0] to another power is [0] (the source only uses the positive
    power 1.5), and a positive base is raised with [exp] and [ln]. *)
Definition Math_pow (x y : R) : R :=
  if Req_dec_T y 0 then 1
  else if Req_dec_T x 0 then 0
  else Rpower x y.

(** A number that may not be a real number. *)
Inductive number : Type :=
| Num (x : R)
| Infinity
| NegInfinity
| NaN.

(** The arithmetic of the source on such numbers: exact on real numbers,
    and as IEEE 754 has it on the infinities and NaN. *)
Module Number.

(** [x / y] for two real numbers: [0 / 0] is NaN, and another number
    divided by [0] is an infinity of its sign. *)
Definition div (x y : R) : number :=
  if Req_dec_T y 0 then
    if Req_dec_T x 0 then NaN
    else if Rlt_dec 0 x then Infinity else NegInfinity
  else Num (x / y).

Definition add (a b : number) : number :=
  match a, b with
  | NaN, _ | _, NaN => NaN
  | Num x, Num y => Num (x + y)
  | Infinity, NegInfinity | NegInfinity, Infinity => NaN
  | Infinity, _ | _, Infinity => Infinity
  | NegInfinity, _ | _, NegInfinity => NegInfinity
  end.

Definition sub (a b : number) : number :=
  match a, b with
  | NaN, _ | _, NaN => NaN
  | Num x, Num y => Num (x - y)
  | Infinity, Infinity | NegInfinity, NegInfinity => NaN
  | Infinity, _ | _, NegInfinity => Infinity
  | NegInfinity, _ | _, Infinity => NegInfinity
  end.

(** An infinity times [x]. *)
Definition signed (x : R) (positive : bool) : number :=
  if Req_dec_T x 0 then NaN
  else if Rlt_dec 0 x
       then (if positive then Infinity else NegInfinity)
       else (if positive then NegInfinity else Infinity).

Definition mul (a b : number) : number :=
  match a, b with
  | NaN, _ | _, NaN => NaN
  | Num x, Num y => Num (x * y)
  | Num x, Infinity | Infinity, Num x => signed x true
  | Num x, NegInfinity | NegInfinity, Num x => signed x false
  | Infinity, Infinity | NegInfinity, NegInfinity => Infinity
  | Infinity, NegInfinity | NegInfinity, Infinity => NegInfinity
  end.

(** [a < b]: false when either is NaN. *)
Definition ltb (a b : number) : bool :=
  match a, b with
  | NaN, _ | _, NaN => false
  | Num x, Num y => JS.ltb x y
  | _, NegInfinity => false
  | NegInfinity, _ => true
  | Infinity, _ => false
  | _, Infinity => true
  end.

(** [Math.min] and [Math.max]: NaN when either is NaN. *)
Definition Math_min (a b : number) : number :=
  match a, b with
  | NaN, _ | _, NaN => NaN
  | Num x, Num y => Num (JS.Math_min x y)
  | NegInfinity, _ | _, NegInfinity => NegInfinity
  | Infinity, c | c, Infinity => c
  end.

Definition Math_max (a b : number) : number :=
  match a, b with
  | NaN, _ | _, NaN => NaN
  | Num x, Num y => Num (JS.Math_max x y)
  | Infinity, _ | _, Infinity => Infinity
  | NegInfinity, c | c, NegInfinity => c
  end.

(** [Math.pow(a, y)] for a positive power [y] that is not an integer, as
    1.5 is: NaN on a negative base. *)
Definition Math_pow (a : number) (y : R) : number :=
  match a with
  | NaN => NaN
  | Num x => if Rlt_dec x 0 then NaN else Num (JS.Math_pow x y)
  | Infinity | NegInfinity => Infinity
  end.

End Number.

End JS.

Import JS.

(** ** Crossfade curves *)

Inductive Curve : Type := linear | smooth | power.

(** [getCrossfadeValue]: the progress is clamped, then shaped. *)
Definition getCrossfadeValue (progress : R) (curve : Curve) : R :=
  let progress := Math_max 0 (Math_min 1 progress) in
  match curve with
  | linear => progress
  | smooth => progress * progress * (3 - 2 * progress)
  | power => Math_pow progress (15 / 10)
  end.

(** [getCrossfadeValue] on a progress that need not be a real number, as
    a frame of a transition can compute it; on a real number it is
    [getCrossfadeValue]. *)
Definition getCrossfadeValue_number (progress : number) (curve : Curve)
  : number :=
  let progress :=
    Number.Math_max (Num 0) (Number.Math_min (Num 1) progress) in
  match curve with
  | linear => progress
  | smooth =>
      Number.mul (Number.mul progress progress)
                 (Number.sub (Num 3) (Number.mul (Num 2) progress))
  | power => Number.Math_pow progress (15 / 10)
  end.

(** The curve as the specification words it: progress cut to [0,1], then
    [p], [p^2 (3 - 2p)] or [p^1.5], the last written [p * sqrt p]. *)
Definition clamp01_spec (p : R) : R :=
  if ltb p 0 then 0 else if ltb 1 p then 1 else p.


(** ** Data model *)

Inductive Deck : Type := A | B.

Definition other (d : Deck) : Deck := match d with A => B | B => A end.

Inductive TrackType : Type := spotify.

Record Track : Type := mkTrack {
  id : string;
  title : string;
  artist : string;
  duration : R;
  albumArt : option string;
  spotifyUri : string;
  spotifyId : string;
  previewUrl : option string;
  type : TrackType;
  preparedStartTime : R;      (* target start position (ms) *)
  isPrepared : bool;          (* ready for instant activation *)
  preparationTimestamp : R
}.

Record DeckState : Type := mkDeck {
  track : option Track;
  isPlaying : bool;
  currentTime : R;
  volume : R;
  isActive : bool;            (* whether this deck controls the player *)
  isLoading : bool;           (* whether the deck is switching *)
  lastActivated : R;
  lastPlayedPosition : R      (* position when last deactivated (seconds) *)
}.

Module AutoCrossfade.

Record Settings : Type := mkSettings {
  enabled : bool;
  duration : R;               (* crossfade duration in seconds *)
  triggerTime : R;            (* seconds before track end to trigger *)
  curve : Curve;
  autoActivateNext : bool;
  switchTiming : R            (* when to switch tracks, 0.0 to 1.0 *)
}.

(** [Partial<AutoCrossfadeSettings>]: any subset of the fields. *)
Record Partial : Type := mkPartial {
  enabled' : option bool;
  duration' : option R;
  triggerTime' : option R;
  curve' : option Curve;
  autoActivateNext' : option bool;
  switchTiming' : option R
}.

Definition pick {X : Type} (new : option X) (old : X) : X :=
  match new with Some x => x | None => old end.

(** [{ ...old, ...settings }] *)
Definition merge (old : Settings) (p : Partial) : Settings :=
  {| enabled := pick (enabled' p) (enabled old);
     duration := pick (duration' p) (duration old);
     triggerTime := pick (triggerTime' p) (triggerTime old);
     curve := pick (curve' p) (curve old);
     autoActivateNext := pick (autoActivateNext' p) (autoActivateNext old);
     switchTiming := pick (switchTiming' p) (switchTiming old) |}.

End AutoCrossfade.

Inductive Direction : Type := A_to_B | B_to_A.

(** The data of the store.  A gain node is kept as its [gain.value], the
    number last assigned to it, whatever it is; the interval handle is the
    number [setInterval] returned. *)
Record AudioState : Type := mkAudio {
  audioContext : bool;
  deckAGain : option number;
  deckBGain : option number;
  masterGain : option R;
  deckA : DeckState;
  deckB : DeckState;
  crossfaderPosition : number;
  autoCrossfade : AutoCrossfade.Settings;
  isCrossfading : bool;
  crossfadeStartTime : R;
  crossfadeDirection : option Direction;
  positionUpdateInterval : option nat
}.

Definition emptyDeck : DeckState :=
  {| track := None; isPlaying := false; currentTime := 0; volume := 8 / 10;
     isActive := false; isLoading := false; lastActivated := 0;
     lastPlayedPosition := 0 |}.

Definition initialState : AudioState :=
  {| audioContext := false;
     deckAGain := None; deckBGain := None; masterGain := None;
     deckA := emptyDeck;
     deckB := emptyDeck;
     crossfaderPosition := Num (5 / 10);
     autoCrossfade :=
       {| AutoCrossfade.enabled := true;
          AutoCrossfade.duration := 8;
          AutoCrossfade.triggerTime := 15;
          AutoCrossfade.curve := smooth;
          AutoCrossfade.autoActivateNext := true;
          AutoCrossfade.switchTiming := 75 / 100 |};
     isCrossfading := false;
     crossfadeStartTime := 0;
     crossfadeDirection := None;
     positionUpdateInterval := None |}.

(** *** Field updates: [{ ...deck, field: value }] *)

Definition with_isPlaying (v : bool) (d : DeckState) : DeckState :=
  mkDeck (track d) v (currentTime d) (volume d) (isActive d)
         (isLoading d) (lastActivated d) (lastPlayedPosition d).
Definition with_currentTime (v : R) (d : DeckState) : DeckState :=
  mkDeck (track d) (isPlaying d) v (volume d) (isActive d)
         (isLoading d) (lastActivated d) (lastPlayedPosition d).
Definition with_volume (v : R) (d : DeckState) : DeckState :=
  mkDeck (track d) (isPlaying d) (currentTime d) v (isActive d)
         (isLoading d) (lastActivated d) (lastPlayedPosition d).
Definition with_isLoading (v : bool) (d : DeckState) : DeckState :=
  mkDeck (track d) (isPlaying d) (currentTime d) (volume d) (isActive d)
         v (lastActivated d) (lastPlayedPosition d).
Definition with_deckA (v : DeckState) (s : AudioState) : AudioState :=
  mkAudio (audioContext s) (deckAGain s) (deckBGain s) (masterGain s)
          v (deckB s) (crossfaderPosition s) (autoCrossfade s)
          (isCrossfading s) (crossfadeStartTime s) (crossfadeDirection s)
          (positionUpdateInterval s).
Definition with_deckB (v : DeckState) (s : AudioState) : AudioState :=
  mkAudio (audioContext s) (deckAGain s) (deckBGain s) (masterGain s)
          (deckA s) v (crossfaderPosition s) (autoCrossfade s)
          (isCrossfading s) (crossfadeStartTime s) (crossfadeDirection s)
          (positionUpdateInterval s).
Definition with_gains (a b : option number) (m : option R) (ctx : bool)
           (s : AudioState)
  : AudioState :=
  mkAudio ctx a b m
          (deckA s) (deckB s) (crossfaderPosition s) (autoCrossfade s)
          (isCrossfading s) (crossfadeStartTime s) (crossfadeDirection s)
          (positionUpdateInterval s).
Definition with_crossfaderPosition (v : number) (s : AudioState)
  : AudioState :=
  mkAudio (audioContext s) (deckAGain s) (deckBGain s) (masterGain s)
          (deckA s) (deckB s) v (autoCrossfade s)
          (isCrossfading s) (crossfadeStartTime s) (crossfadeDirection s)
          (positionUpdateInterval s).
Definition with_autoCrossfade (v : AutoCrossfade.Settings) (s : AudioState)
  : AudioState :=
  mkAudio (audioContext s) (deckAGain s) (deckBGain s) (masterGain s)
          (deckA s) (deckB s) (crossfaderPosition s) v
          (isCrossfading s) (crossfadeStartTime s) (crossfadeDirection s)
          (positionUpdateInterval s).
Definition with_transition (on : bool) (start : R) (dir : option Direction)
           (s : AudioState) : AudioState :=
  mkAudio (audioContext s) (deckAGain s) (deckBGain s) (masterGain s)
          (deckA s) (deckB s) (crossfaderPosition s) (autoCrossfade s)
          on start dir
          (positionUpdateInterval s).
Definition with_positionUpdateInterval (v : option nat) (s : AudioState)
  : AudioState :=
  mkAudio (audioContext s) (deckAGain s) (deckBGain s) (masterGain s)
          (deckA s) (deckB s) (crossfaderPosition s) (autoCrossfade s)
          (isCrossfading s) (crossfadeStartTime s) (crossfadeDirection s)
          v.

(** [deck === 'A' ? state.deckA : state.deckB] *)
Definition deckOf (deck : Deck) (s : AudioState) : DeckState :=
  match deck with A => deckA s | B => deckB s end.

(** [deck === 'A' ? { ...state, deckA: f(state.deckA) }
                   : { ...state, deckB: f(state.deckB) }] *)
Definition update_deck (deck : Deck) (f : DeckState -> DeckState)
           (s : AudioState) : AudioState :=
  match deck with
  | A => with_deckA (f (deckA s)) s
  | B => with_deckB (f (deckB s)) s
  end.

(** ** The Spotify store, as far as the audio store reads it *)

Record SpotifyState : Type := mkSpotify {
  accessToken : option string;
  deviceId : option string;
  player : bool;              (* whether the SDK player object exists *)
  isPlayerReady : bool
}.

Record SpotifyImage : Type := mkImage {
  url : string; width : R; height : R
}.

Record SpotifyTrack : Type := mkSpotifyTrack {
  st_id : string;
  st_name : string;
  st_artists : list string;        (* the [name] of each artist *)
  st_album_images : list SpotifyImage;
  st_duration_ms : R;
  st_preview_url : option string;
  st_uri : string
}.

(** What the network gives back to the play request of [playTrack]. *)
Inductive PlayResponse : Type :=
| NoValidToken                     (* [makeSpotifyAPICall] throws *)
| NetworkError                     (* [fetch] rejects *)
| Status (ok : bool).              (* a response, with [response.ok] *)

Inductive Settled : Type := Resolved | Rejected.

(** [playTrack] of the Spotify store: without a device or a ready player
    it logs and returns; otherwise it throws unless the response is ok. *)
Definition playTrack_result (ready : bool) (resp : PlayResponse) : Settled :=
  if negb ready then Resolved
  else match resp with
       | NoValidToken => Rejected
       | NetworkError => Rejected
       | Status ok => if ok then Resolved else Rejected
       end.

Definition player_ready (sp : SpotifyState) : bool :=
  match deviceId sp with
  | None => false
  | Some _ => isPlayerReady sp
  end.

(** ** Calls that leave the store

    The store's calls into the Spotify store, the SDK player, the timers and
    the beat-sync manager, in the order they are made.  A volume call
    carries the deck whose gain it pushes; [activateDeck_entry] records
    that [activateDeck] was entered, with its arguments. *)
Inductive Call : Type :=
| playTrack (trackUri : string) (positionMs : R)
| pausePlayback
| resumePlayback
| seekToPosition (positionMs : R)
| player_setVolume (deck : Deck) (v : number)
| setSpotifyVolume (deck : Deck) (v : number)
| startBeatSync (deck : Deck) (trackTitle trackArtist : string)
| stopAllBeatSync
| setInterval (handle : nat)
| clearInterval (handle : nat)
| audioContext_close
| activateDeck_entry (deck : Deck) (preservePosition : bool).

(** ** The world an operation runs in *)

Record World : Type := mkWorld {
  store : AudioState;            (* what [get()] returns *)
  published : list AudioState;   (* every state [set] installed, newest first *)
  spotifyStore : SpotifyState;
  clock : R;                     (* what [Date.now()] returns *)
  calls : list Call;             (* oldest first *)
  nextHandle : nat
}.

Definition M (X : Type) : Type := World -> X * World.

Definition ret {X : Type} (x : X) : M X := fun w => (x, w).

Definition bind {X Y : Type} (m : M X) (k : X -> M Y) : M Y :=
  fun w => let (x, w') := m w in k x w'.

Declare Scope store_scope.
Delimit Scope store_scope with store.
Notation "x <- m ;; k" := (bind m (fun x => k))
  (at level 61, m at next level, right associativity) : store_scope.
Notation "m ;; k" := (bind m (fun _ => k))
  (at level 61, right associativity) : store_scope.
Local Open Scope store_scope.

(** [get()] *)
Definition get : M AudioState := fun w => (store w, w).

(** [set((state) => f(state))]: the new state is installed at once. *)
Definition set (f : AudioState -> AudioState) : M unit :=
  fun w =>
    let s := f (store w) in
    (tt, mkWorld s (s :: published w) (spotifyStore w) (clock w) (calls w)
                 (nextHandle w)).

(** An assignment to a field of an object the store points to
    ([gainNode.gain.value = v]): the store's data changes, nothing is
    installed with [set]. *)
Definition assign (f : AudioState -> AudioState) : M unit :=
  fun w =>
    (tt, mkWorld (f (store w)) (published w) (spotifyStore w) (clock w)
                 (calls w) (nextHandle w)).

(** [useSpotifyStore.getState()] *)
Definition getSpotify : M SpotifyState := fun w => (spotifyStore w, w).

(** [Date.now()] *)
Definition Date_now : M R := fun w => (clock w, w).

Definition call (c : Call) : M unit :=
  fun w =>
    (tt, mkWorld (store w) (published w) (spotifyStore w) (clock w)
                 (calls w ++ [c]) (nextHandle w)).

(** [setInterval(...)]: a fresh handle. *)
Definition new_interval : M nat :=
  fun w =>
    let h := S (nextHandle w) in
    (h, mkWorld (store w) (published w) (spotifyStore w) (clock w)
                (calls w ++ [setInterval h]) h).

Definition when (b : bool) (m : M unit) : M unit :=
  if b then m else ret tt.

(** ** Suspended operations

    An [async] operation that reaches an [await] leaves a task behind: the
    variables its continuation still reads, and what it waits for. *)

(** [activateDeck] at [await playTrack(...)]. *)
Record Pending : Type := mkPending {
  pa_deck : Deck;
  pa_track : Track;              (* [targetDeck.track], as read at entry *)
  pa_startPositionMs : R;
  pa_ready : bool                (* what [playTrack] found: device and player *)
}.

(** The variables [animateCrossfade] closes over. *)
Record Animation : Type := mkAnimation {
  fromDeck : Deck;
  toDeck : Deck;
  settings : AutoCrossfade.Settings;   (* [autoCrossfade], read at the start *)
  targetDeck : DeckState;              (* [targetDeck], read at the start *)
  totalDuration : R;
  switchTime : R;
  startTime : R;
  hasActivated : bool
}.

(** Who awaits [activateDeck], and what it does with the result. *)
Inductive Caller : Type :=
| FromUser
| FromPlayPause
| FromAnimation (c : Animation) (progress : number).

Inductive Task : Type :=
| AwaitPlayTrack (p : Pending) (k : Caller)
| AwaitPause (deck : Deck)
| AwaitResume (deck : Deck)
| AwaitPlayerVolume (deck : Deck) (v : number)
                                   (* [player.setVolume(v).catch(...)] *)
| AnimationFrame (c : Animation).           (* [requestAnimationFrame(...)] *)

(** ** Operations of the store *)

Definition has_spotify_track (d : DeckState) : bool :=
  match track d with
  | Some t => match type t with spotify => true end
  | None => false
  end.

Definition loadSpotifyTrack (deck : Deck) (spotifyTrack : SpotifyTrack)
           (startTimeMs : R) : M unit :=
  let albumArt :=
    match st_album_images spotifyTrack with
    | img :: _ => Some (url img)
    | [] => None
    end in
  now <- Date_now ;;
  let track :=
    {| id := st_id spotifyTrack;
       title := st_name spotifyTrack;
       artist := String.concat ", " (st_artists spotifyTrack);
       duration := st_duration_ms spotifyTrack / 1000;
       albumArt := albumArt;
       spotifyUri := st_uri spotifyTrack;
       spotifyId := st_id spotifyTrack;
       previewUrl := st_preview_url spotifyTrack;
       type := spotify;
       preparedStartTime := startTimeMs;
       isPrepared := true;
       preparationTimestamp := now |} in
  set (update_deck deck (fun d =>
    {| track := Some track;
       isPlaying := false;
       currentTime :=
         if isPlaying d then currentTime d else startTimeMs / 1000;
       volume := volume d;
       isActive := isActive d;
       isLoading := false;
       lastActivated := lastActivated d;
       lastPlayedPosition := lastPlayedPosition d |})).

Definition prepared (t : Track) (startTimeMs now : R) : Track :=
  mkTrack (id t) (title t) (artist t) (duration t) (albumArt t)
          (spotifyUri t) (spotifyId t) (previewUrl t) (type t)
          startTimeMs true now.

Definition prepareDeck (deck : Deck) (startTimeMs : R) : M unit :=
  state <- get ;;
  let currentDeck := deckOf deck state in
  match track currentDeck with
  | None => ret tt
  | Some t =>
      now <- Date_now ;;
      let updatedTrack := prepared t startTimeMs now in
      set (update_deck deck (fun d =>
        {| track := Some updatedTrack;
           isPlaying := isPlaying d;
           currentTime :=
             if isActive d then currentTime d else startTimeMs / 1000;
           volume := volume d;
           isActive := isActive d;
           isLoading := isLoading d;
           lastActivated := lastActivated d;
           lastPlayedPosition := lastPlayedPosition d |}))
  end.

Definition startPositionTracking : M unit :=
  state <- get ;;
  match positionUpdateInterval state with
  | Some h => call (clearInterval h)
  | None => ret tt
  end ;;
  interval <- new_interval ;;
  set (with_positionUpdateInterval (Some interval)).

Definition stopPositionTracking : M unit :=
  state <- get ;;
  match positionUpdateInterval state with
  | Some h =>
      call (clearInterval h) ;;
      set (with_positionUpdateInterval None)
  | None => ret tt
  end.

(** The start position [activateDeck] resolves. *)
Definition startPosition (targetDeck : DeckState) (t : Track)
           (preservePosition : bool) : R :=
  if preservePosition then
    if gtb (lastPlayedPosition targetDeck) 0 then
      Math_round (lastPlayedPosition targetDeck * 1000)
    else if gtb (currentTime targetDeck) 0 then
      Math_round (currentTime targetDeck * 1000)
    else preparedStartTime t
  else preparedStartTime t.

(** The deck that takes the player, and the deck that gives it up. *)
Definition activate_target (startPositionMs now : R) (d : DeckState)
  : DeckState :=
  {| track := track d;
     isPlaying := true;
     currentTime := startPositionMs / 1000;
     volume := volume d;
     isActive := true;
     isLoading := false;
     lastActivated := now;
     lastPlayedPosition := lastPlayedPosition d |}.

Definition deactivate_other (d : DeckState) : DeckState :=
  {| track := track d;
     isPlaying := false;
     currentTime := currentTime d;
     volume := volume d;
     isActive := false;
     isLoading := isLoading d;
     lastActivated := lastActivated d;
     lastPlayedPosition :=
       if isActive d then currentTime d else lastPlayedPosition d |}.

(** The one state update of a successful activation: both decks at once. *)
Definition activated (deck : Deck) (startPositionMs now : R)
           (state : AudioState) : AudioState :=
  match deck with
  | A =>
      mkAudio (audioContext state) (deckAGain state) (deckBGain state)
              (masterGain state)
              (activate_target startPositionMs now (deckA state))
              (deactivate_other (deckB state))
              (crossfaderPosition state) (autoCrossfade state)
              (isCrossfading state) (crossfadeStartTime state)
              (crossfadeDirection state) (positionUpdateInterval state)
  | B =>
      mkAudio (audioContext state) (deckAGain state) (deckBGain state)
              (masterGain state)
              (deactivate_other (deckA state))
              (activate_target startPositionMs now (deckB state))
              (crossfaderPosition state) (autoCrossfade state)
              (isCrossfading state) (crossfadeStartTime state)
              (crossfadeDirection state) (positionUpdateInterval state)
  end.

(** [activateDeck] up to [await playTrack(...)]: [None] when it has
    returned [false] at the preparation gate, the suspended activation
    otherwise. *)
Definition activateDeck_begin (deck : Deck) (preservePosition : bool)
  : M (option Pending) :=
  call (activateDeck_entry deck preservePosition) ;;
  state <- get ;;
  let targetDeck := deckOf deck state in
  match track targetDeck with
  | None => ret None
  | Some t =>
      if negb (isPrepared t) then ret None
      else
        set (update_deck deck (with_isLoading true)) ;;
        let startPositionMs := startPosition targetDeck t preservePosition in
        sp <- getSpotify ;;
        call (playTrack (spotifyUri t) startPositionMs) ;;
        ret (Some {| pa_deck := deck;
                     pa_track := t;
                     pa_startPositionMs := startPositionMs;
                     pa_ready := player_ready sp |})
  end.

(** [activateDeck] after the [await]: the state update, beat sync and
    position tracking when [playTrack] resolved; the [catch] otherwise. *)
Definition activateDeck_resume (p : Pending) (resp : PlayResponse)
  : M bool :=
  match playTrack_result (pa_ready p) resp with
  | Resolved =>
      now <- Date_now ;;
      set (activated (pa_deck p) (pa_startPositionMs p) now) ;;
      currentState <- get ;;
      when (isCrossfading currentState)
           (call (startBeatSync (pa_deck p) (title (pa_track p))
                                (artist (pa_track p)))) ;;
      startPositionTracking ;;
      ret true
  | Rejected =>
      set (update_deck (pa_deck p) (with_isLoading false)) ;;
      ret false
  end.

(** [activateDeck] run without anything else in between. *)
Definition activateDeck (deck : Deck) (preservePosition : bool)
           (resp : PlayResponse) : M bool :=
  r <- activateDeck_begin deck preservePosition ;;
  match r with
  | None => ret false
  | Some p => activateDeck_resume p resp
  end.

(** [player ? player.setVolume(v).catch(() => setSpotifyVolume(v))
            : setSpotifyVolume(v)] *)
Definition push_volume (deck : Deck) (v : number) : M (list Task) :=
  sp <- getSpotify ;;
  if player sp then
    call (player_setVolume deck v) ;;
    ret [AwaitPlayerVolume deck v]
  else
    call (setSpotifyVolume deck v) ;;
    ret [].

Definition set_gain (deck : Deck) (v : number) (s : AudioState)
  : AudioState :=
  match deck with
  | A => with_gains (Some v) (deckBGain s) (masterGain s) (audioContext s) s
  | B => with_gains (deckAGain s) (Some v) (masterGain s) (audioContext s) s
  end.

Definition setVolume (deck : Deck) (volume : R) : M (list Task) :=
  let clampedVolume := Math_max 0 (Math_min 1 volume) in
  state <- get ;;
  let currentDeck := deckOf deck state in
  let gainNode :=
    match deck with A => deckAGain state | B => deckBGain state end in
  let crossfaderMix :=
    match deck with
    | A => Number.sub (Num 1) (crossfaderPosition state)
    | B => crossfaderPosition state
    end in
  let finalVolume := Number.mul (Num clampedVolume) crossfaderMix in
  ts <- (if has_spotify_track currentDeck && isActive currentDeck
         then push_volume deck finalVolume
         else ret []) ;;
  match gainNode with
  | Some _ => assign (set_gain deck finalVolume)
  | None => ret tt
  end ;;
  set (update_deck deck (with_volume clampedVolume)) ;;
  ret ts.

Definition setCrossfader (position : number) : M (list Task) :=
  let clampedPosition :=
    Number.Math_max (Num 0) (Number.Math_min (Num 1) position) in
  state <- get ;;
  let deckAMix := Number.sub (Num 1) clampedPosition in
  let deckBMix := clampedPosition in
  match deckAGain state, deckBGain state with
  | Some _, Some _ =>
      assign (fun s =>
        with_gains (Some (Number.mul (Num (volume (deckA state))) deckAMix))
                   (Some (Number.mul (Num (volume (deckB state))) deckBMix))
                   (masterGain s) (audioContext s) s)
  | _, _ => ret tt
  end ;;
  tsA <- (if has_spotify_track (deckA state) && isPlaying (deckA state)
          then push_volume A (Number.mul (Num (volume (deckA state))) deckAMix)
          else ret []) ;;
  tsB <- (if has_spotify_track (deckB state) && isPlaying (deckB state)
          then push_volume B (Number.mul (Num (volume (deckB state))) deckBMix)
          else ret []) ;;
  set (with_crossfaderPosition clampedPosition) ;;
  ret (tsA ++ tsB).

(** [initAudio]; [ok] is false when the audio context cannot be built and
    the [catch] runs. *)
Definition initAudio (ok : bool) : M (list Task) :=
  if ok then
    set (with_gains (Some (Num (8 / 10))) (Some (Num (8 / 10)))
                    (Some (8 / 10)) true) ;;
    setCrossfader (Num (5 / 10))
  else ret [].

Definition cleanup : M unit :=
  state <- get ;;
  stopPositionTracking ;;
  when (audioContext state) (call audioContext_close) ;;
  set (fun s =>
    mkAudio false None None None emptyDeck emptyDeck
            (crossfaderPosition s) (autoCrossfade s)
            (isCrossfading s) (crossfadeStartTime s) (crossfadeDirection s)
            None).

Definition setDeckPosition (deck : Deck) (positionMs : R) : M unit :=
  set (update_deck deck (with_currentTime (positionMs / 1000))).

(** [seekSpotifyTrack]: [seekToPosition] of the Spotify store catches
    every error itself, so the [await] never throws and the position is
    never reverted. *)
Definition seekSpotifyTrack (deck : Deck) (positionMs : R) : M unit :=
  state <- get ;;
  let currentDeck := deckOf deck state in
  if negb (has_spotify_track currentDeck) then ret tt
  else
    set (update_deck deck (with_currentTime (positionMs / 1000))) ;;
    when (isActive currentDeck) (call (seekToPosition positionMs)).

Inductive ScrubDirection : Type := forward | backward.

Definition scrubTrack (deck : Deck) (direction : ScrubDirection)
           (intensity : R) : M unit :=
  state <- get ;;
  let currentDeck := deckOf deck state in
  match track currentDeck with
  | None => ret tt
  | Some t =>
      let scrubAmount := intensity * 2 in
      let directionMultiplier :=
        match direction with forward => 1 | backward => -1 end in
      let newTime :=
        Math_max 0 (Math_min (duration t)
          (currentTime currentDeck + scrubAmount * directionMultiplier)) in
      let positionMs := Math_round (newTime * 1000) in
      if isActive currentDeck then seekSpotifyTrack deck positionMs
      else setDeckPosition deck positionMs
  end.

Definition setAutoCrossfadeSettings (p : AutoCrossfade.Partial) : M unit :=
  set (fun s => with_autoCrossfade (AutoCrossfade.merge (autoCrossfade s) p) s).

Definition stopAutoCrossfade : M unit :=
  set (with_transition false 0 None) ;;
  call stopAllBeatSync.

(** [startAutoCrossfade], up to [requestAnimationFrame(animateCrossfade)]:
    the frame it has requested, if any. *)
Definition startAutoCrossfade (fromDeck toDeck : Deck) : M (list Task) :=
  state <- get ;;
  let autoCrossfade := autoCrossfade state in
  let sourceDeck := deckOf fromDeck state in
  let targetDeck := deckOf toDeck state in
  match track sourceDeck, track targetDeck with
  | Some _, Some target =>
      if negb (isPrepared target) then ret []
      else if isCrossfading state then ret []
      else
        now <- Date_now ;;
        set (with_transition true now
               (Some (match fromDeck with A => A_to_B | B => B_to_A end))) ;;
        let switchPoint :=
          AutoCrossfade.duration autoCrossfade
          * AutoCrossfade.switchTiming autoCrossfade in
        let totalDuration := AutoCrossfade.duration autoCrossfade * 1000 in
        let switchTime := switchPoint * 1000 in
        startTime <- Date_now ;;
        ret [AnimationFrame
               {| fromDeck := fromDeck;
                  toDeck := toDeck;
                  settings := autoCrossfade;
                  targetDeck := targetDeck;
                  totalDuration := totalDuration;
                  switchTime := switchTime;
                  startTime := startTime;
                  hasActivated := false |}]
  | _, _ => ret []
  end.

Definition checkAutoCrossfadeTrigger : M (list Task) :=
  state <- get ;;
  let autoCrossfade := autoCrossfade state in
  if negb (AutoCrossfade.enabled autoCrossfade) || isCrossfading state
  then ret []
  else
    let active :=
      if isActive (deckA state) then Some (A, B)
      else if isActive (deckB state) then Some (B, A)
      else None in
    match active with
    | None => ret []
    | Some (activeDeckId, inactiveDeckId) =>
        let activeDeck := deckOf activeDeckId state in
        let inactiveDeck := deckOf inactiveDeckId state in
        match track activeDeck, track inactiveDeck with
        | Some ta, Some ti =>
            if negb (isPrepared ti) then ret []
            else
              let timeRemaining := duration ta - currentTime activeDeck in
              if leb timeRemaining (AutoCrossfade.triggerTime autoCrossfade)
                 && gtb timeRemaining 0
              then startAutoCrossfade activeDeckId inactiveDeckId
              else ret []
        | _, _ => ret []
        end
    end.

Definition with_duration (v : R) (t : Track) : Track :=
  mkTrack (id t) (title t) (artist t) v (albumArt t)
          (spotifyUri t) (spotifyId t) (previewUrl t) (type t)
          (preparedStartTime t) (isPrepared t) (preparationTimestamp t).

Definition updateSpotifyPosition (positionMs durationMs : R)
           (deck : option Deck) : M (list Task) :=
  let currentTime := positionMs / 1000 in
  let duration := durationMs / 1000 in
  state <- get ;;
  let detected :=
    match deck with
    | Some d => Some d
    | None =>
        if has_spotify_track (deckA state) && isActive (deckA state)
           && isPlaying (deckA state) then Some A
        else if has_spotify_track (deckB state) && isActive (deckB state)
                && isPlaying (deckB state) then Some B
        else None
    end in
  match detected with
  | None => ret []
  | Some deck =>
      state <- get ;;
      let targetDeck := deckOf deck state in
      if negb (isActive targetDeck) then ret []
      else
        set (update_deck deck (fun d =>
          {| track := option_map (with_duration duration) (track d);
             isPlaying := isPlaying d;
             currentTime := currentTime;
             volume := volume d;
             isActive := isActive d;
             isLoading := isLoading d;
             lastActivated := lastActivated d;
             lastPlayedPosition := lastPlayedPosition d |})) ;;
        checkAutoCrossfadeTrigger
  end.

(** [playPause] up to its first [await]. *)
Definition playPause (deck : Deck) : M (list Task) :=
  state <- get ;;
  let currentDeck := deckOf deck state in
  match track currentDeck with
  | None => ret []
  | Some _ =>
      if negb (isActive currentDeck) then
        r <- activateDeck_begin deck false ;;
        match r with
        | None => ret []
        | Some p => ret [AwaitPlayTrack p FromPlayPause]
        end
      else if isPlaying currentDeck then
        call pausePlayback ;;
        ret [AwaitPause deck]
      else
        call resumePlayback ;;
        ret [AwaitResume deck]
  end.

(** ** The transition animation *)

(** How a frame of [animateCrossfade] leaves the animation. *)
Inductive Next : Type :=
| Finished                                   (* [stopAutoCrossfade()] ran *)
| Again (c : Animation)                      (* next frame requested *)
| Handoff (p : Pending) (c : Animation) (progress : number).
                                             (* at [await activateDeck] *)

Definition next_tasks (n : Next) : list Task :=
  match n with
  | Finished => []
  | Again c => [AnimationFrame c]
  | Handoff p c progress => [AwaitPlayTrack p (FromAnimation c progress)]
  end.

Definition mark_activated (c : Animation) : Animation :=
  mkAnimation (fromDeck c) (toDeck c) (settings c) (targetDeck c)
              (totalDuration c) (switchTime c) (startTime c) true.

(** The end of a frame: [if (progress < 1) requestAnimationFrame(...)
    else get().stopAutoCrossfade()]. *)
Definition animateCrossfade_finish (c : Animation) (progress : number)
  : M Next :=
  if Number.ltb progress (Num 1) then ret (Again c)
  else stopAutoCrossfade ;; ret Finished.

(** [!hasActivated && elapsed >= switchTime && autoCrossfade.autoActivateNext
     && !targetDeck.isActive] *)
Definition handoff_due (c : Animation) (elapsed : R) : bool :=
  negb (hasActivated c) && geb elapsed (switchTime c)
  && AutoCrossfade.autoActivateNext (settings c)
  && negb (isActive (targetDeck c)).

(** One frame, up to its [await] or its end: the volume tasks of
    [setCrossfader], and how the animation goes on. *)
Definition animateCrossfade_frame (c : Animation) : M (list Task * Next) :=
  now <- Date_now ;;
  let elapsed := now - startTime c in
  let progress :=
    Number.Math_min (Number.div elapsed (totalDuration c)) (Num 1) in
  let fadeValue :=
    getCrossfadeValue_number progress (AutoCrossfade.curve (settings c)) in
  let newPosition :=
    match fromDeck c with
    | A => fadeValue
    | B => Number.sub (Num 1) fadeValue
    end in
  ts <- setCrossfader newPosition ;;
  if handoff_due c elapsed then
    let c := mark_activated c in
    r <- activateDeck_begin (toDeck c) false ;;
    match r with
    | None => n <- animateCrossfade_finish c progress ;; ret (ts, n)
    | Some p => ret (ts, Handoff p c progress)
    end
  else
    n <- animateCrossfade_finish c progress ;; ret (ts, n).

Definition animateCrossfade (c : Animation) : M (list Task) :=
  r <- animateCrossfade_frame c ;;
  ret (fst r ++ next_tasks (snd r)).

(** What the caller of [activateDeck] does once it has returned. *)
Definition after_activateDeck (k : Caller) (success : bool) : M (list Task) :=
  match k with
  | FromUser => ret []
  | FromPlayPause =>
      if success then startPositionTracking ;; ret [] else ret []
  | FromAnimation c progress =>
      n <- animateCrossfade_finish c progress ;; ret (next_tasks n)
  end.

(** A suspended operation goes on: the play request has been answered by
    [resp], the SDK volume call has failed or not. *)
Definition resume_task (t : Task) (resp : PlayResponse) (sdkFailed : bool)
  : M (list Task) :=
  match t with
  | AwaitPlayTrack p k =>
      success <- activateDeck_resume p resp ;;
      after_activateDeck k success
  | AwaitPause deck =>
      stopPositionTracking ;;
      set (update_deck deck (with_isPlaying false)) ;;
      ret []
  | AwaitResume deck =>
      startPositionTracking ;;
      set (update_deck deck (with_isPlaying true)) ;;
      ret []
  | AwaitPlayerVolume deck v =>
      when sdkFailed (call (setSpotifyVolume deck v)) ;;
      ret []
  | AnimationFrame c => animateCrossfade c
  end.

(** ** The running system: the world and the suspended operations *)

(** What can happen next.  The legacy methods [handleSpotifyPlayback],
    [playSpotifyPreview] and [playSpotifyFullTrack] are
    [ActivateDeck deck false]; the polling timer of the position tracking
    and the player's state events are [UpdateSpotifyPosition _ _ None].
    The position given to [setCrossfader] can be NaN: the arrow keys of
    the crossfader compute it from the position in the store. *)
Inductive Action : Type :=
| LoadSpotifyTrack (deck : Deck) (spotifyTrack : SpotifyTrack) (startTimeMs : R)
| PrepareDeck (deck : Deck) (startTimeMs : R)
| ActivateDeck (deck : Deck) (preservePosition : bool)
| PlayPause (deck : Deck)
| SetVolume (deck : Deck) (volume : R)
| SetCrossfader (position : number)
| SeekSpotifyTrack (deck : Deck) (positionMs : R)
| ScrubTrack (deck : Deck) (direction : ScrubDirection) (intensity : R)
| UpdateSpotifyPosition (positionMs durationMs : R) (deck : option Deck)
| SetDeckPosition (deck : Deck) (positionMs : R)
| SetAutoCrossfadeSettings (p : AutoCrossfade.Partial)
| StartAutoCrossfade (fromDeck toDeck : Deck)
| StopAutoCrossfade
| CheckAutoCrossfadeTrigger
| StartPositionTracking
| StopPositionTracking
| InitAudio (ok : bool)
| Cleanup
| Tick (now : R)                         (* time passes *)
| SpotifyChanged (sp : SpotifyState)     (* the Spotify store changes *)
| Resume (n : nat) (resp : PlayResponse) (sdkFailed : bool).
                                         (* the n-th suspended task goes on *)

Definition unit_op (m : M unit) : M (list Task) := m ;; ret [].

(** An operation called from outside, up to its first [await]. *)
Definition perform (a : Action) : M (list Task) :=
  match a with
  | LoadSpotifyTrack deck spotifyTrack startTimeMs =>
      unit_op (loadSpotifyTrack deck spotifyTrack startTimeMs)
  | PrepareDeck deck startTimeMs => unit_op (prepareDeck deck startTimeMs)
  | ActivateDeck deck preservePosition =>
      r <- activateDeck_begin deck preservePosition ;;
      ret (match r with
           | None => []
           | Some p => [AwaitPlayTrack p FromUser]
           end)
  | PlayPause deck => playPause deck
  | SetVolume deck volume => setVolume deck volume
  | SetCrossfader position => setCrossfader position
  | SeekSpotifyTrack deck positionMs =>
      unit_op (seekSpotifyTrack deck positionMs)
  | ScrubTrack deck direction intensity =>
      unit_op (scrubTrack deck direction intensity)
  | UpdateSpotifyPosition positionMs durationMs deck =>
      updateSpotifyPosition positionMs durationMs deck
  | SetDeckPosition deck positionMs =>
      unit_op (setDeckPosition deck positionMs)
  | SetAutoCrossfadeSettings p => unit_op (setAutoCrossfadeSettings p)
  | StartAutoCrossfade fromDeck toDeck => startAutoCrossfade fromDeck toDeck
  | StopAutoCrossfade => unit_op stopAutoCrossfade
  | CheckAutoCrossfadeTrigger => checkAutoCrossfadeTrigger
  | StartPositionTracking => unit_op startPositionTracking
  | StopPositionTracking => unit_op stopPositionTracking
  | InitAudio ok => initAudio ok
  | Cleanup => unit_op cleanup
  | Tick now =>
      fun w => ([], mkWorld (store w) (published w) (spotifyStore w) now
                            (calls w) (nextHandle w))
  | SpotifyChanged sp =>
      fun w => ([], mkWorld (store w) (published w) sp (clock w)
                            (calls w) (nextHandle w))
  | Resume _ _ _ => ret []
  end.

Record System : Type := mkSystem {
  world : World;
  tasks : list Task
}.

Definition remove_nth {X : Type} (n : nat) (l : list X) : list X :=
  firstn n l ++ skipn (S n) l.

Definition step (a : Action) (s : System) : System :=
  match a with
  | Resume n resp sdkFailed =>
      match nth_error (tasks s) n with
      | None => s
      | Some t =>
          let (ts, w) := resume_task t resp sdkFailed (world s) in
          {| world := w; tasks := remove_nth n (tasks s) ++ ts |}
      end
  | _ =>
      let (ts, w) := perform a (world s) in
      {| world := w; tasks := tasks s ++ ts |}
  end.

Definition run (acts : list Action) (s : System) : System :=
  fold_left (fun s a => step a s) acts s.

Definition initialWorld : World :=
  {| store := initialState;
     published := [initialState];
     spotifyStore :=
       {| accessToken := None; deviceId := None; player := false;
          isPlayerReady := false |};
     clock := 0;
     calls := [];
     nextHandle := 0 |}.

Definition initialSystem : System :=
  {| world := initialWorld; tasks := [] |}.

Definition reachable (s : System) : Prop :=
  exists acts : list Action, s = run acts initialSystem.

(** At most one deck holds the player. *)
Definition at_most_one_active (s : AudioState) : Prop :=
  isActive (deckA s) && isActive (deckB s) = false.

(** ** Invariants of the store *)

(** A deck's track, when it has one, is prepared; a deck without a track
    is not loading. *)
Definition deck_ok (d : DeckState) : Prop :=
  match track d with
  | Some t => isPrepared t = true
  | None => isLoading d = false
  end.

Definition Inv (s : AudioState) : Prop :=
  at_most_one_active s /\ deck_ok (deckA s) /\ deck_ok (deckB s).

(** [since I old w]: [I] holds of the store and of every state installed
    after the states [old]. *)
Definition since (I : AudioState -> Prop) (old : list AudioState)
           (w : World) : Prop :=
  I (store w)
  /\ exists new, published w = new ++ old /\ Forall I new.

(** The invariant holds of the store and of every state ever installed. *)
Definition WInv (w : World) : Prop := since Inv [] w.

Definition keeps (I : AudioState -> Prop) {X : Type} (m : M X) : Prop :=
  forall old w, since I old w -> since I old (snd (m w)).

Definition stable (I : AudioState -> Prop) (f : AudioState -> AudioState)
  : Prop :=
  forall s, I s -> I (f s).

(** The two activity flags of a state. *)
Definition active_flags (s : AudioState) : bool * bool :=
  (isActive (deckA s), isActive (deckB s)).

(** A property of a state that only looks at the activity flags. *)
Definition flagged (P : bool * bool -> Prop) (s : AudioState) : Prop :=
  P (active_flags s).

Definition has_flags (fl : bool * bool) : AudioState -> Prop :=
  flagged (fun x => x = fl).

(** The invariants followed through the operations: the store invariant,
    and any property of the activity flags. *)
Definition routine (I : AudioState -> Prop) : Prop :=
  I = Inv \/ exists P, I = flagged P.

(** [commits a s]: the action [a] completes an activation with success in
    the system [s], and for which deck: it resumes an [activateDeck] that
    waits at [await playTrack(...)], and [playTrack] has resolved. *)
Definition commits (a : Action) (s : System) : option Deck :=
  match a with
  | Resume n resp _ =>
      match nth_error (tasks s) n with
      | Some (AwaitPlayTrack p _) =>
          match playTrack_result (pa_ready p) resp with
          | Resolved => Some (pa_deck p)
          | Rejected => None
          end
      | _ => None
      end
  | _ => None
  end.

(** Exactly the deck [d] is active. *)
Definition only_active (d : Deck) : AudioState -> Prop :=
  flagged (fun x => x = match d with
                        | A => (true, false)
                        | B => (false, true)
                        end).

(** "[activateDeck] is the sole mutation point of the flag", as a
    property of the system: a step that does not complete an activation
    installs only states with the activity flags it found. *)
Definition sole_mutation_point : Prop :=
  forall a s,
    reachable s -> commits a s = None ->
    since (has_flags (active_flags (store (world s))))
          (published (world s)) (world (step a s)).

(** ** Sample data and runs *)

Definition demoTrack (name : string) (duration_ms : R) : SpotifyTrack :=
  {| st_id := name; st_name := name; st_artists := [name];
     st_album_images := []; st_duration_ms := duration_ms;
     st_preview_url := None; st_uri := name |}.

(** A track is loaded into deck A and deck A is activated: the play
    request is answered with success. *)
Definition run_A_active : list Action :=
  [ LoadSpotifyTrack A (demoTrack "one" 180000) 0;
    ActivateDeck A false;
    Resume 0 (Status true) false ].

(** ** The trigger of the auto-crossfade, as the specification words it *)

(** Auto-crossfade is enabled, no transition is in flight, exactly the
    deck [active] is active and has a track, the other deck has a prepared
    track, and [0 < remaining <= triggerTime]. *)
Definition trigger_condition (s : AudioState) (active : Deck) : Prop :=
  AutoCrossfade.enabled (autoCrossfade s) = true
  /\ isCrossfading s = false
  /\ isActive (deckOf active s) = true
  /\ isActive (deckOf (other active) s) = false
  /\ exists ta tc,
      track (deckOf active s) = Some ta
      /\ track (deckOf (other active) s) = Some tc
      /\ isPrepared tc = true
      /\ 0 < duration ta - currentTime (deckOf active s)
         <= AutoCrossfade.triggerTime (autoCrossfade s).

Definition direction_from (d : Deck) : Direction :=
  match d with A => A_to_B | B => B_to_A end.

(** The trigger check has started a transition from [from] to [to]: the
    store says so and the first animation frame is requested. *)
Definition transition_started (from to : Deck) (w : World) : Prop :=
  let r := checkAutoCrossfadeTrigger w in
  (exists c, fst r = [AnimationFrame c]
             /\ fromDeck c = from /\ toDeck c = to
             /\ hasActivated c = false)
  /\ isCrossfading (store (snd r)) = true
  /\ crossfadeDirection (store (snd r)) = Some (direction_from from).

(** The trigger check has done nothing. *)
Definition no_transition (w : World) : Prop :=
  checkAutoCrossfadeTrigger w = ([], w).

Definition transition_state (s : AudioState)
  : bool * R * option Direction :=
  (isCrossfading s, crossfadeStartTime s, crossfadeDirection s).

(** The calls that may start a transition: the trigger check, alone or
    after a position update, and [startAutoCrossfade]. *)
Definition trigger_call (a : Action) : Prop :=
  match a with
  | CheckAutoCrossfadeTrigger => True
  | StartAutoCrossfade _ _ => True
  | UpdateSpotifyPosition _ _ _ => True
  | _ => False
  end.

(** Tracks on both decks, deck A active, and deck A moved to
    [positionMs]. *)
Definition run_A_at (positionMs : R) : list Action :=
  [ LoadSpotifyTrack A (demoTrack "one" 180000) 0;
    LoadSpotifyTrack B (demoTrack "two" 200000) 0;
    ActivateDeck A false;
    Resume 0 (Status true) false;
    SetDeckPosition A positionMs ].

(** ** Volume pushed to the remote player *)

(** The share of a deck in the mix at a crossfader position. *)
Definition mix (deck : Deck) (position : number) : number :=
  match deck with A => Number.sub (Num 1) position | B => position end.

(** The call that pushes a volume: the SDK player when there is one, the
    Web API otherwise. *)
Definition volume_call (sp : SpotifyState) (deck : Deck) (v : number)
  : Call :=
  if player sp then player_setVolume deck v else setSpotifyVolume deck v.

(** The calls an operation makes. *)
Definition emitted {X : Type} (m : M X) (w : World) : list Call :=
  skipn (List.length (calls w)) (calls (snd (m w))).



(** Deck A is activated, then paused. *)
Definition run_A_paused : list Action :=
  run_A_active ++ [ PlayPause A; Resume 0 (Status true) false ].

(** Deck A plays at 42.3 s, then deck B is activated. *)
Definition run_A_then_B : list Action :=
  run_A_at 42300 ++ [ ActivateDeck B false; Resume 0 (Status true) false ].

(** A transition is in flight: deck A is 14 s from its end and a
    crossfade from A to B has been started. *)
Definition run_in_flight : list Action :=
  run_A_at 166000 ++ [ StartAutoCrossfade A B ].

(** ** One transition, frame by frame

    The frames of one animation, each run to its end before the next one
    is requested.  Anything may happen to the world before a frame and
    while a frame waits for [activateDeck]. *)

Record Frame : Type := mkFrame {
  before : World -> World;     (* what else runs before the frame *)
  during : World -> World;     (* what else runs while it awaits *)
  response : PlayResponse      (* the answer to its play request *)
}.

(** What a frame has seen and done: the elapsed time it computed and the
    calls it made. *)
Record FrameLog : Type := mkFrameLog {
  fl_elapsed : R;
  fl_calls : list Call
}.

Definition new_calls (w w' : World) : list Call :=
  skipn (List.length (calls w)) (calls w').

Definition run_frame (c : Animation) (f : Frame) (w0 : World)
  : FrameLog * option Animation * World :=
  let w := before f w0 in
  let elapsed := clock w - startTime c in
  let (r, w1) := animateCrossfade_frame c w in
  match snd r with
  | Finished => (mkFrameLog elapsed (new_calls w w1), None, w1)
  | Again c' => (mkFrameLog elapsed (new_calls w w1), Some c', w1)
  | Handoff p c' progress =>
      let w2 := during f w1 in
      let (_, w3) := activateDeck_resume p (response f) w2 in
      let (n, w4) := animateCrossfade_finish c' progress w3 in
      (mkFrameLog elapsed (new_calls w w1 ++ new_calls w2 w4),
       match n with Again c'' => Some c'' | _ => None end,
       w4)
  end.


Definition is_activation (c : Call) : bool :=
  match c with activateDeck_entry _ _ => true | _ => false end.

(** The calls of [activateDeck] among some calls. *)
Definition activations (cs : list Call) : list Call :=
  filter is_activation cs.



(** The clock is moved to [now]; nothing else happens. *)
Definition at_time (now : R) : Frame :=
  {| before := fun w => mkWorld (store w) (published w) (spotifyStore w) now
                                (calls w) (nextHandle w);
     during := fun w => w;
     response := Status true |}.

(** No call of [activateDeck] among the calls. *)
Definition quiet (cs : list Call) : Prop := activations cs = [].

(** Every call an operation makes is appended, and the calls it appends
    satisfy [P]. *)
Definition emits (P : list Call -> Prop) {X : Type} (m : M X) : Prop :=
  forall w, exists l, calls (snd (m w)) = calls w ++ l /\ P l.


(** The animation that [startAutoCrossfade('A', 'B')] starts in the state
    reached by [run_A_at 166000], at time 0 and with the initial
    settings. *)
Definition demo_animation : Animation :=
  {| fromDeck := A;
     toDeck := B;
     settings := autoCrossfade initialState;
     targetDeck :=
       deckOf B (store (world (run (run_A_at 166000) initialSystem)));
     totalDuration := 8 * 1000;
     switchTime := 8 * (75 / 100) * 1000;
     startTime := 0;
     hasActivated := false |}.




(** A device and a ready player. *)
Definition readySpotify : SpotifyState :=
  {| accessToken := Some "token"%string; deviceId := Some "device"%string;
     player := true; isPlayerReady := true |}.

(** The player is ready and a track is loaded into deck A. *)
Definition run_A_loaded_ready : list Action :=
  [ SpotifyChanged readySpotify;
    LoadSpotifyTrack A (demoTrack "one" 180000) 0 ].

(** Deck A is paused and asked to resume; before the resume request is
    answered, deck B is activated; then the answer arrives. *)
Definition run_resume_race : list Action :=
  [ LoadSpotifyTrack A (demoTrack "one" 180000) 0;
    LoadSpotifyTrack B (demoTrack "two" 200000) 0;
    ActivateDeck A false;
    Resume 0 (Status true) false;
    PlayPause A;
    Resume 0 (Status true) false;
    PlayPause A;
    ActivateDeck B false;
    Resume 1 (Status true) false;
    Resume 0 (Status true) false ].

(** ** Further invariants of the store *)

Definition unit_interval (x : R) : Prop := 0 <= x <= 1.

(** A real number between 0 and 1. *)
Definition unit_number (x : number) : Prop :=
  match x with Num r => unit_interval r | _ => False end.

(** A real number between 0 and 1, or NaN. *)
Definition unit_or_NaN (x : number) : Prop :=
  match x with Num r => unit_interval r | NaN => True | _ => False end.

Definition gain_ok (P : number -> Prop) (g : option number) : Prop :=
  match g with Some v => P v | None => True end.

(** The deck volumes and the gain of the master node are between 0 and 1,
    and the crossfader position and the gains of the deck nodes that exist
    satisfy [P]. *)
Definition in_range_of (P : number -> Prop) (s : AudioState) : Prop :=
  P (crossfaderPosition s)
  /\ unit_interval (volume (deckA s))
  /\ unit_interval (volume (deckB s))
  /\ gain_ok P (deckAGain s)
  /\ gain_ok P (deckBGain s)
  /\ match masterGain s with Some v => unit_interval v | None => True end.

(** Between 0 and 1, or NaN where the number can be NaN. *)
Definition in_range : AudioState -> Prop := in_range_of unit_or_NaN.

(** Between 0 and 1, all of them. *)
Definition in_real_range : AudioState -> Prop := in_range_of unit_number.

(** The crossfader position a frame of the transition [c] asks for when it
    runs at the time [now]. *)
Definition newPosition_at (c : Animation) (now : R) : number :=
  let elapsed := now - startTime c in
  let progress :=
    Number.Math_min (Number.div elapsed (totalDuration c)) (Num 1) in
  let fadeValue :=
    getCrossfadeValue_number progress (AutoCrossfade.curve (settings c)) in
  match fromDeck c with
  | A => fadeValue
  | B => Number.sub (Num 1) fadeValue
  end.

(** The transition a task belongs to, if it is a task of one. *)
Definition animation_of (t : Task) : option Animation :=
  match t with
  | AnimationFrame c => Some c
  | AwaitPlayTrack _ (FromAnimation c _) => Some c
  | _ => None
  end.

(** The duration of the transitions is not set to 0: in the settings of a
    state, and in the transition a task belongs to. *)
Definition duration_set (s : AudioState) : Prop :=
  AutoCrossfade.duration (autoCrossfade s) <> 0.

Definition task_timed (t : Task) : Prop :=
  match animation_of t with
  | Some c => totalDuration c <> 0
  | None => True
  end.

(** An action that sets the duration of the transitions to 0. *)
Definition zero_duration (a : Action) : Prop :=
  match a with
  | SetAutoCrossfadeSettings p => AutoCrossfade.duration' p = Some 0
  | _ => False
  end.

(** An action that asks for the crossfader position NaN. *)
Definition NaN_position (a : Action) : Prop :=
  match a with
  | SetCrossfader NaN => True
  | _ => False
  end.

(** An action that can bring NaN into the mixer. *)
Definition brings_NaN (a : Action) : Prop :=
  zero_duration a \/ NaN_position a.

(** The direction of the transition is set exactly while a transition is
    in flight, and the start time is 0 when none is. *)
Definition transition_consistent (s : AudioState) : Prop :=
  if isCrossfading s
  then crossfadeDirection s <> None
  else crossfadeDirection s = None /\ crossfadeStartTime s = 0.

(** The mixer part of a state. *)
Definition mixer_view (s : AudioState)
  : number * R * R * (option number * option number * option R) :=
  (crossfaderPosition s, volume (deckA s), volume (deckB s),
   (deckAGain s, deckBGain s, masterGain s)).

Definition same_mixer
           (m : number * R * R * (option number * option number * option R))
           (s : AudioState) : Prop :=
  mixer_view s = m.

(** The actions that may write the mixer part: the two mixer operations,
    [initAudio], [cleanup], and a frame of a transition. *)
Definition writes_mixer (a : Action) (s : System) : bool :=
  match a with
  | SetVolume _ _ | SetCrossfader _ | InitAudio _ | Cleanup => true
  | Resume n _ _ =>
      match nth_error (tasks s) n with
      | Some (AnimationFrame _) => true
      | _ => false
      end
  | _ => false
  end.

(** Each gain node that exists carries its deck's volume times the deck's
    share of the crossfader. *)
Definition gains_consistent (s : AudioState) : Prop :=
  match deckAGain s, deckBGain s with
  | Some a, Some b =>
      a = Number.mul (Num (volume (deckA s))) (mix A (crossfaderPosition s))
      /\ b = Number.mul (Num (volume (deckB s)))
                        (mix B (crossfaderPosition s))
  | None, None => True
  | _, _ => False
  end.

(** [ends I m]: when [I] holds of the store before [m], it holds of the
    store after it. *)
Definition ends (I : AudioState -> Prop) {X : Type} (m : M X) : Prop :=
  forall w, I (store w) -> I (store (snd (m w))).

(** The interval timers that run: those set and not cleared since. *)
Definition timer_step (l : list nat) (c : Call) : list nat :=
  match c with
  | setInterval h => l ++ [h]
  | clearInterval h => remove Nat.eq_dec h l
  | _ => l
  end.

Definition live_intervals (cs : list Call) : list nat :=
  fold_left timer_step cs [].

(** The timers that run are the one the store remembers, if any. *)
Definition timers_accounted (w : World) : Prop :=
  live_intervals (calls w)
  = match positionUpdateInterval (store w) with
    | Some h => [h]
    | None => []
    end.

(** [wkeeps J m]: [m] keeps the property [J] of the world. *)
Definition wkeeps (J : World -> Prop) {X : Type} (m : M X) : Prop :=
  forall w, J w -> J (snd (m w)).

(** The volume a call pushes to the remote player, if it pushes one. *)
Definition volume_of (c : Call) : option number :=
  match c with
  | player_setVolume _ v => Some v
  | setSpotifyVolume _ v => Some v
  | _ => None
  end.

(** [setVolume] of the Spotify store sends the volume as a percentage:
    [Math.round(volume * 100)]. *)
Definition volumePercent (volume : R) : R := Math_round (volume * 100).

(** A volume pushed to the remote player is NaN, or a real number between
    0 and 1 for which the Spotify store sends a whole percentage between 0
    and 100. *)
Definition pushed_ok (x : number) : Prop :=
  match x with
  | Num v =>
      0 <= v <= 1
      /\ 0 <= volumePercent v <= 100
      /\ exists z : Z, volumePercent v = IZR z
  | NaN => True
  | _ => False
  end.

(** The transport commands of the remote player: pause, resume, seek. *)
Definition is_transport (c : Call) : bool :=
  match c with
  | pausePlayback | resumePlayback | seekToPosition _ => true
  | _ => false
  end.

Definition no_transport (cs : list Call) : Prop :=
  forall c, In c cs -> is_transport c = false.

(** The deck an operation of the transport is called for. *)
Definition addresses (a : Action) (deck : Deck) : Prop :=
  match a with
  | PlayPause d | SeekSpotifyTrack d _ | ScrubTrack d _ _ => d = deck
  | _ => False
  end.

(** A deck that holds the remote player and has a track on it. *)
Definition holds_player (deck : Deck) (s : AudioState) : bool :=
  has_spotify_track (deckOf deck s) && isActive (deckOf deck s).

(** The track of [demoTrack "one" 180000], as [loadSpotifyTrack] builds it
    at time 0 with the cue point at 0. *)
Definition demo_loaded : Track :=
  mkTrack "one" "one" "one" (180000 / 1000) None "one" "one" None spotify
          0 true 0.

(** The deck [d] is as [D]. *)
Definition same_deck (d : Deck) (D : DeckState) (s : AudioState) : Prop :=
  deckOf d s = D.

(** The crossfader is at [x]. *)
Definition crossfader_at (x : number) (s : AudioState) : Prop :=
  crossfaderPosition s = x.

(** [x] is not farther than [y] along a transition away from [from]:
    the crossfader rises when it leaves deck A and falls when it leaves
    deck B. *)
Definition not_beyond (from : Deck) (x y : R) : Prop :=
  match from with A => x <= y | B => y <= x end.

(** An activation of [deck] is suspended at its play request. *)
Definition activation_pending (deck : Deck) (ts : list Task) : Prop :=
  exists p k, In (AwaitPlayTrack p k) ts /\ pa_deck p = deck.

(** Only the decks in [L] show the loading flag. *)
Definition loading_within (L : Deck -> Prop) (s : AudioState) : Prop :=
  forall deck, isLoading (deckOf deck s) = true -> L deck.

(** A deck shows the loading flag only while an activation of it is
    suspended. *)
Definition loading_accounted (s : System) : Prop :=
  loading_within (fun deck => activation_pending deck (tasks s))
                 (store (world s)).



(** When the state says that a transition is in flight, [P] holds. *)
Definition crossfading_within (P : Prop) (s : AudioState) : Prop :=
  isCrossfading s = true -> P.

(** ** The components that call the store

    A component reads the state it was last rendered with, [rendered],
    and calls the operations of the store. *)

(** [components/Crossfader.tsx] *)
Module Crossfader.

Definition activeDeckId (rendered : AudioState) : option Deck :=
  if isActive (deckA rendered) then Some A
  else if isActive (deckB rendered) then Some B
  else None.

Definition inactiveDeckId (rendered : AudioState) : option Deck :=
  if isActive (deckA rendered) then Some B
  else if isActive (deckB rendered) then Some A
  else None.

Definition handleAutoCrossfade (rendered : AudioState) : M (list Task) :=
  match activeDeckId rendered, inactiveDeckId rendered with
  | Some a, Some i => startAutoCrossfade a i
  | _, _ => ret []
  end.

(** [activeDeck?.track && inactiveDeck?.track?.isPrepared && !isCrossfading],
    as the boolean the button's [disabled] takes. *)
Definition canAutoCrossfade (rendered : AudioState) : bool :=
  let activeDeck :=
    if isActive (deckA rendered) then Some (deckA rendered)
    else if isActive (deckB rendered) then Some (deckB rendered)
    else None in
  let inactiveDeck :=
    if isActive (deckA rendered) then Some (deckB rendered)
    else if isActive (deckB rendered) then Some (deckA rendered)
    else None in
  match activeDeck with
  | None => false
  | Some a =>
      match track a with
      | None => false
      | Some _ =>
          match inactiveDeck with
          | None => false
          | Some i =>
              match track i with
              | None => false
              | Some ti => isPrepared ti && negb (isCrossfading rendered)
              end
          end
      end
  end.

(** The keys of the crossfader. *)
Inductive Key : Type := ArrowLeft | ArrowRight | Home | End_ | Space.

Definition handleKeyDown (rendered : AudioState) (k : Key)
  : M (list Task) :=
  match k with
  | ArrowLeft =>
      setCrossfader
        (Number.Math_max (Num 0)
           (Number.sub (crossfaderPosition rendered) (Num (5 / 100))))
  | ArrowRight =>
      setCrossfader
        (Number.Math_min (Num 1)
           (Number.add (crossfaderPosition rendered) (Num (5 / 100))))
  | Home => setCrossfader (Num 0)
  | End_ => setCrossfader (Num 1)
  | Space => setCrossfader (Num (5 / 10))
  end.

End Crossfader.

(** [components/AutoCrossfade.tsx] *)
Module AutoCrossfadePanel.

(** [getTimeRemaining]: [None] is [null]. *)
Definition getTimeRemaining (rendered : AudioState) : option R :=
  let activeDeck :=
    if isActive (deckA rendered) then Some (deckA rendered)
    else if isActive (deckB rendered) then Some (deckB rendered)
    else None in
  match activeDeck with
  | None => None
  | Some a =>
      match track a with
      | None => None
      | Some t => Some (Math_max 0 (duration t - currentTime a))
      end
  end.

Definition willTriggerSoon (rendered : AudioState) : bool :=
  match getTimeRemaining rendered with
  | None => false
  | Some timeRemaining =>
      leb timeRemaining (AutoCrossfade.triggerTime (autoCrossfade rendered))
  end.

End AutoCrossfadePanel.

(** [components/DeckPanel.tsx], for the deck [deck]. *)
Module DeckPanel.

Definition handlePositionChange (rendered : AudioState) (deck : Deck)
           (newPosition : R) : M unit :=
  let currentDeck := deckOf deck rendered in
  if negb (has_spotify_track currentDeck) then ret tt
  else
    let positionMs := Math_round (newPosition * 1000) in
    if isActive currentDeck then seekSpotifyTrack deck positionMs
    else setDeckPosition deck positionMs.

Definition handleVinylScrub (rendered : AudioState) (deck : Deck)
           (direction : ScrubDirection) (intensity : R) : M unit :=
  match track (deckOf deck rendered) with
  | None => ret tt
  | Some _ => scrubTrack deck direction intensity
  end.

Definition handlePrepareAtCurrentTime (rendered : AudioState) (deck : Deck)
  : M unit :=
  let currentDeck := deckOf deck rendered in
  match track currentDeck with
  | None => ret tt
  | Some _ =>
      let prepareTimeMs := Math_round (currentTime currentDeck * 1000) in
      prepareDeck deck prepareTimeMs
  end.

(** [getAutoCrossfadeStatus]: [None] is [null]; the fields are
    [timeRemaining], [willTriggerSoon] and [triggersIn]. *)
Definition getAutoCrossfadeStatus (rendered : AudioState) (deck : Deck)
  : option (R * bool * R) :=
  let currentDeck := deckOf deck rendered in
  let autoCrossfade := autoCrossfade rendered in
  match track currentDeck with
  | None => None
  | Some t =>
      if negb (isActive currentDeck)
         || negb (AutoCrossfade.enabled autoCrossfade)
      then None
      else
        let timeRemaining := duration t - currentTime currentDeck in
        Some (timeRemaining,
              leb timeRemaining (AutoCrossfade.triggerTime autoCrossfade),
              AutoCrossfade.triggerTime autoCrossfade
              - (duration t - currentTime currentDeck))
  end.

(** The volume keys of the deck. *)
Definition volumeUp (rendered : AudioState) (deck : Deck) : M (list Task) :=
  setVolume deck (Math_min 1 (volume (deckOf deck rendered) + 1 / 10)).

Definition volumeDown (rendered : AudioState) (deck : Deck) : M (list Task) :=
  setVolume deck (Math_max 0 (volume (deckOf deck rendered) - 1 / 10)).

End DeckPanel.

(** The world [w'] is the world [w] with other auto-crossfade settings in
    the store; the history of installed states aside. *)
Definition differ_in_settings (w w' : World) : Prop :=
  store w' = with_autoCrossfade (autoCrossfade (store w')) (store w)
  /\ spotifyStore w' = spotifyStore w
  /\ clock w' = clock w
  /\ calls w' = calls w
  /\ nextHandle w' = nextHandle w.

(** An operation that never reads the auto-crossfade settings of the
    store: it returns the same result and makes the same calls whatever
    they are, and leaves them as they are. *)
Definition ignores_settings {X : Type} (m : M X) : Prop :=
  forall w w',
    differ_in_settings w w' ->
    fst (m w') = fst (m w)
    /\ differ_in_settings (snd (m w)) (snd (m w'))
    /\ autoCrossfade (store (snd (m w'))) = autoCrossfade (store w').

(** The frames of one animation, run one after the other: the world they
    leave, and whether the animation has finished. *)
Fixpoint animation_world (c : Animation) (frames : list Frame) (w : World)
  : World * bool :=
  match frames with
  | [] => (w, false)
  | f :: frames' =>
      let '(_, next, w') := run_frame c f w in
      match next with
      | Some c' => animation_world c' frames' w'
      | None => (w', true)
      end
  end.

(** What an animation from [from] to the other deck has fixed at its
    start, when the handoff is wanted and possible. *)
Definition closure_ok (from : Deck) (c : Animation) : Prop :=
  fromDeck c = from
  /\ toDeck c = other from
  /\ 0 < totalDuration c
  /\ switchTime c <= totalDuration c
  /\ AutoCrossfade.autoActivateNext (settings c) = true
  /\ isActive (targetDeck c) = false.

(** Before the handoff the target deck holds a prepared track; after it
    the target deck is the active one. *)
Definition handed (c : Animation) (s : AudioState) : Prop :=
  if hasActivated c
  then isActive (deckOf (toDeck c) s) = true
       /\ isActive (deckOf (fromDeck c) s) = false
  else exists t, track (deckOf (toDeck c) s) = Some t /\ isPrepared t = true.

(** [components/VinylRecord.tsx]: one movement of the mouse on the record,
    from the angle [lastAngle] of the movement before to the angle
    [currentAngle].  While the record is dragged, [handleMouseMove] runs
    once for every such movement. *)
Module VinylRecord.

(** The direction and the intensity [handleMouseMove] computes, when the
    movement is large enough to be passed to [onScrub]. *)
Definition gesture (lastAngle currentAngle : R)
  : option (ScrubDirection * R) :=
  let angleDiff := currentAngle - lastAngle in
  let angleDiff :=
    if gtb angleDiff PI then angleDiff - 2 * PI else angleDiff in
  let angleDiff :=
    if ltb angleDiff (- PI) then angleDiff + 2 * PI else angleDiff in
  let direction := if gtb angleDiff 0 then forward else backward in
  let intensity := Math_min (Rabs angleDiff * 10) 1 in
  if gtb intensity (1 / 10) then Some (direction, intensity) else None.

Definition handleMouseMove (isDragging disabled : bool)
           (onScrub : option (ScrubDirection -> R -> M unit))
           (lastAngle currentAngle : R) : M unit :=
  match onScrub with
  | None => ret tt
  | Some scrub =>
      if negb isDragging || disabled then ret tt
      else
        match gesture lastAngle currentAngle with
        | Some (direction, intensity) => scrub direction intensity
        | None => ret tt
        end
  end.

End VinylRecord.

(** One movement of the mouse on the record of a deck panel:
    [onScrub={track ? handleVinylScrub : undefined}]. *)
Definition vinyl_move (rendered : AudioState) (deck : Deck)
           (isDragging disabled : bool) (lastAngle currentAngle : R)
  : M unit :=
  VinylRecord.handleMouseMove isDragging disabled
    (match track (deckOf deck rendered) with
     | Some _ => Some (DeckPanel.handleVinylScrub rendered deck)
     | None => None
     end)
    lastAngle currentAngle.

(** * Properties *)

(** ** JavaScript numbers *)

Lemma ltb_true x y : ltb x y = true <-> x < y.
Proof. unfold ltb; destruct (Rlt_dec x y); split; intros; congruence || lra. Qed.

Lemma ltb_false x y : ltb x y = false <-> y <= x.
Proof. unfold ltb; destruct (Rlt_dec x y); split; intros; congruence || lra. Qed.

Lemma leb_true x y : leb x y = true <-> x <= y.
Proof. unfold leb; destruct (Rle_dec x y); split; intros; congruence || lra. Qed.

Lemma leb_false x y : leb x y = false <-> y < x.
Proof. unfold leb; destruct (Rle_dec x y); split; intros; congruence || lra. Qed.

Lemma gtb_true x y : gtb x y = true <-> y < x.
Proof. apply ltb_true. Qed.

Lemma gtb_false x y : gtb x y = false <-> x <= y.
Proof. apply ltb_false. Qed.


Lemma geb_false x y : geb x y = false <-> x < y.
Proof. apply leb_false. Qed.

Lemma Math_round_IZR (z : Z) : Math_round (IZR z) = IZR z.
Proof. unfold Math_round. f_equal. apply Zfloor_eq. lra. Qed.



(** On a base that is not negative, the power 1.5 is [x * sqrt x]. *)
Lemma Math_pow_three_halves (x : R) :
  0 <= x -> Math_pow x (15 / 10) = x * sqrt x.
Proof.
  intros Hx. unfold Math_pow.
  destruct (Req_dec_T (15 / 10) 0) as [E|_]; [lra|].
  destruct (Req_dec_T x 0) as [E|N].
  - subst x. now rewrite Rmult_0_l.
  - assert (Hpos : 0 < x) by lra.
    replace (15 / 10) with (1 + / 2) by lra.
    now rewrite Rpower_plus, Rpower_1, Rpower_sqrt.
Qed.

Lemma clamp_cases (x : R) :
  Math_max 0 (Math_min 1 x) = clamp01_spec x.
Proof.
  unfold clamp01_spec, Math_max, Math_min, Rmax, Rmin, ltb.
  destruct (Rle_dec 1 x), (Rlt_dec x 0), (Rlt_dec 1 x);
    try lra; destruct (Rle_dec 0 1); destruct (Rle_dec 0 x); lra.
Qed.

Lemma clamp_range (x : R) : 0 <= Math_max 0 (Math_min 1 x) <= 1.
Proof.
  rewrite clamp_cases. unfold clamp01_spec, ltb.
  destruct (Rlt_dec x 0), (Rlt_dec 1 x); lra.
Qed.

Lemma clamp_fixed (x : R) : 0 <= x <= 1 -> Math_max 0 (Math_min 1 x) = x.
Proof.
  intros H. rewrite clamp_cases. unfold clamp01_spec, ltb.
  destruct (Rlt_dec x 0), (Rlt_dec 1 x); lra.
Qed.

(** ** The crossfade curve *)


(** ** Invariants, operation by operation *)

Section Keeps.

Variable I : AudioState -> Prop.

Lemma keeps_ret {X} (x : X) : keeps I (ret x).
Proof. intros old w H. exact H. Qed.

Lemma keeps_bind {X Y} (m : M X) (k : X -> M Y) :
  keeps I m -> (forall x, keeps I (k x)) -> keeps I (bind m k).
Proof.
  intros Hm Hk old w H. unfold bind.
  specialize (Hm old w H). destruct (m w) as [x w']. now apply Hk.
Qed.

Lemma keeps_get : keeps I get.
Proof. intros old w H. exact H. Qed.

Lemma keeps_getSpotify : keeps I getSpotify.
Proof. intros old w H. exact H. Qed.

Lemma keeps_Date_now : keeps I Date_now.
Proof. intros old w H. exact H. Qed.

Lemma keeps_call c : keeps I (call c).
Proof. intros old w H. exact H. Qed.

Lemma keeps_new_interval : keeps I new_interval.
Proof. intros old w H. exact H. Qed.

Lemma keeps_set f : stable I f -> keeps I (set f).
Proof.
  intros Hf old w (Hs & new & Hp & Hn). split; cbn.
  - now apply Hf.
  - exists (f (store w) :: new). split.
    + now rewrite Hp.
    + constructor; [now apply Hf | exact Hn].
Qed.

Lemma keeps_assign f : stable I f -> keeps I (assign f).
Proof.
  intros Hf old w (Hs & new & Hp & Hn). split; cbn.
  - now apply Hf.
  - now exists new.
Qed.

Lemma keeps_when b m : keeps I m -> keeps I (when b m).
Proof. intros Hm. destruct b; [exact Hm | apply keeps_ret]. Qed.

Lemma keeps_world_change (g : World -> World) :
  (forall w, store (g w) = store w) ->
  (forall w, published (g w) = published w) ->
  keeps I (fun w => (@nil Task, g w)).
Proof.
  intros Hs Hp old w H. unfold since in *. cbn. now rewrite Hs, Hp.
Qed.

End Keeps.

Lemma stable_update_deck deck g :
  (forall d, isActive (g d) = isActive d) ->
  (forall d, deck_ok d -> deck_ok (g d)) ->
  stable Inv (update_deck deck g).
Proof.
  intros Ha Hok s (H1 & H2 & H3). unfold Inv, at_most_one_active in *.
  destruct deck; cbn; rewrite Ha; auto.
Qed.

Lemma stable_same_decks f :
  (forall s, deckA (f s) = deckA s) ->
  (forall s, deckB (f s) = deckB s) ->
  stable Inv f.
Proof.
  intros HA HB s (H1 & H2 & H3). unfold Inv, at_most_one_active in *.
  now rewrite HA, HB.
Qed.

Lemma stable_activated deck startPositionMs now :
  stable Inv (activated deck startPositionMs now).
Proof.
  intros s (H1 & H2 & H3). unfold Inv, at_most_one_active, deck_ok in *.
  destruct deck; cbn;
    destruct (track (deckA s)), (track (deckB s)); auto.
Qed.

Lemma stable_cleanup :
  stable Inv (fun s =>
    mkAudio false None None None emptyDeck emptyDeck
            (crossfaderPosition s) (autoCrossfade s)
            (isCrossfading s) (crossfadeStartTime s) (crossfadeDirection s)
            None).
Proof. intros s _. repeat split. Qed.

(** An update that leaves both activity flags as they are. *)
Lemma stable_flags P f :
  (forall s, active_flags (f s) = active_flags s) -> stable (flagged P) f.
Proof. intros Hf s H. unfold flagged in *. now rewrite Hf. Qed.

Create HintDb keeps.

#[local] Hint Resolve keeps_ret keeps_get keeps_getSpotify keeps_Date_now
  keeps_call keeps_new_interval keeps_when : keeps.

Ltac stable_tac :=
  lazymatch goal with
  | |- stable Inv _ =>
      first
        [ apply stable_activated
        | apply stable_cleanup
        | apply stable_same_decks; intros; reflexivity
        | apply stable_update_deck;
          [ intros; reflexivity
          | unfold deck_ok; intros d0 Hd0; cbn;
            try (destruct (track d0) as [t0|]; cbn;
                 try destruct t0; cbn in *; assumption || reflexivity) ] ]
  | |- stable (flagged _) _ =>
      apply stable_flags; intros s0; unfold update_deck;
      repeat match goal with
             | |- context [match ?d with A => _ | B => _ end] => destruct d
             end;
      reflexivity
  end.

Ltac keeps_tac :=
  repeat
    (intros;
     match goal with
     | |- keeps _ (bind _ _) => apply keeps_bind
     | |- keeps _ (set _) => apply keeps_set; stable_tac
     | |- keeps _ (assign _) => apply keeps_assign; stable_tac
     | |- keeps _ (if ?b then _ else _) => destruct b
     | |- keeps _ (match ?x with _ => _ end) => destruct x
     | |- keeps _ _ => solve [eauto with keeps]
     end).

Lemma routine_Inv : routine Inv.
Proof. now left. Qed.

Lemma routine_flags P : routine (flagged P).
Proof. right. now exists P. Qed.

#[local] Hint Resolve routine_Inv routine_flags : keeps.

Ltac routine_op op :=
  let fl := fresh "fl" in
  intros [->|[fl ->]]; unfold op; keeps_tac.

Lemma keeps_loadSpotifyTrack I deck spotifyTrack startTimeMs :
  routine I -> keeps I (loadSpotifyTrack deck spotifyTrack startTimeMs).
Proof. routine_op loadSpotifyTrack. Qed.

Lemma keeps_prepareDeck I deck startTimeMs :
  routine I -> keeps I (prepareDeck deck startTimeMs).
Proof. routine_op prepareDeck. Qed.

Lemma keeps_startPositionTracking I : routine I -> keeps I startPositionTracking.
Proof. routine_op startPositionTracking. Qed.

Lemma keeps_stopPositionTracking I : routine I -> keeps I stopPositionTracking.
Proof. routine_op stopPositionTracking. Qed.

#[local] Hint Resolve keeps_loadSpotifyTrack keeps_prepareDeck
  keeps_startPositionTracking keeps_stopPositionTracking : keeps.

(** The loading flag is raised only on a deck that holds a prepared
    track. *)
Lemma Inv_loading deck t s :
  Inv s -> track (deckOf deck s) = Some t -> isPrepared t = true ->
  Inv (update_deck deck (with_isLoading true) s).
Proof.
  intros (H1 & H2 & H3) Ht Hp. unfold Inv, at_most_one_active, deck_ok in *.
  destruct deck; cbn in *; rewrite Ht; auto.
Qed.

Lemma keeps_activateDeck_begin I deck preservePosition :
  routine I -> keeps I (activateDeck_begin deck preservePosition).
Proof.
  intros [->|[fl ->]]; [|unfold activateDeck_begin; keeps_tac].
  intros old w (Hs & new & Hp & Hn).
  unfold activateDeck_begin, bind, call, get; cbn.
  destruct (track (deckOf deck (store w))) as [t|] eqn:Ht;
    [|split; [assumption | now exists new]].
  destruct (isPrepared t) eqn:Hprep; cbn;
    [|split; [assumption | now exists new]].
  pose proof (Inv_loading deck t (store w) Hs Ht Hprep) as Hi.
  split; cbn; [exact Hi|].
  exists (update_deck deck (with_isLoading true) (store w) :: new).
  split; [now rewrite Hp | now constructor].
Qed.

Lemma keeps_activateDeck_resume p resp :
  keeps Inv (activateDeck_resume p resp).
Proof. unfold activateDeck_resume. keeps_tac. Qed.

(** A rejected activation writes no activity flag. *)
Lemma keeps_activateDeck_rejected P p resp :
  playTrack_result (pa_ready p) resp = Rejected ->
  keeps (flagged P) (activateDeck_resume p resp).
Proof.
  intros H. unfold activateDeck_resume. rewrite H. keeps_tac.
Qed.

#[local] Hint Resolve keeps_activateDeck_begin keeps_activateDeck_resume
  : keeps.

Lemma keeps_push_volume I deck v : routine I -> keeps I (push_volume deck v).
Proof. routine_op push_volume. Qed.

#[local] Hint Resolve keeps_push_volume : keeps.

Lemma keeps_setVolume I deck v : routine I -> keeps I (setVolume deck v).
Proof.
  intros [->|[fl ->]]; unfold setVolume; keeps_tac.
  all: unfold set_gain; try destruct deck; keeps_tac.
Qed.

Lemma keeps_setCrossfader I position :
  routine I -> keeps I (setCrossfader position).
Proof. routine_op setCrossfader. Qed.

#[local] Hint Resolve keeps_setVolume keeps_setCrossfader : keeps.

Lemma keeps_initAudio I ok : routine I -> keeps I (initAudio ok).
Proof. routine_op initAudio. Qed.

Lemma keeps_cleanup : keeps Inv cleanup.
Proof. unfold cleanup. keeps_tac. Qed.

Lemma keeps_setDeckPosition I deck positionMs :
  routine I -> keeps I (setDeckPosition deck positionMs).
Proof. routine_op setDeckPosition. Qed.

Lemma keeps_seekSpotifyTrack I deck positionMs :
  routine I -> keeps I (seekSpotifyTrack deck positionMs).
Proof. routine_op seekSpotifyTrack. Qed.

#[local] Hint Resolve keeps_setDeckPosition keeps_seekSpotifyTrack : keeps.

Lemma keeps_scrubTrack I deck direction intensity :
  routine I -> keeps I (scrubTrack deck direction intensity).
Proof. routine_op scrubTrack. Qed.

Lemma keeps_setAutoCrossfadeSettings I p :
  routine I -> keeps I (setAutoCrossfadeSettings p).
Proof. routine_op setAutoCrossfadeSettings. Qed.

Lemma keeps_stopAutoCrossfade I : routine I -> keeps I stopAutoCrossfade.
Proof. routine_op stopAutoCrossfade. Qed.

Lemma keeps_startAutoCrossfade I fromDeck toDeck :
  routine I -> keeps I (startAutoCrossfade fromDeck toDeck).
Proof. routine_op startAutoCrossfade. Qed.

#[local] Hint Resolve keeps_stopAutoCrossfade keeps_startAutoCrossfade : keeps.

Lemma keeps_checkAutoCrossfadeTrigger I :
  routine I -> keeps I checkAutoCrossfadeTrigger.
Proof. routine_op checkAutoCrossfadeTrigger. Qed.

#[local] Hint Resolve keeps_checkAutoCrossfadeTrigger : keeps.

Lemma keeps_updateSpotifyPosition I positionMs durationMs deck :
  routine I -> keeps I (updateSpotifyPosition positionMs durationMs deck).
Proof. routine_op updateSpotifyPosition. Qed.

Lemma keeps_playPause I deck : routine I -> keeps I (playPause deck).
Proof. routine_op playPause. Qed.

Lemma keeps_animateCrossfade_finish I c progress :
  routine I -> keeps I (animateCrossfade_finish c progress).
Proof. routine_op animateCrossfade_finish. Qed.

#[local] Hint Resolve keeps_animateCrossfade_finish : keeps.

Lemma keeps_animateCrossfade_frame I c :
  routine I -> keeps I (animateCrossfade_frame c).
Proof. routine_op animateCrossfade_frame. Qed.

#[local] Hint Resolve keeps_animateCrossfade_frame : keeps.

Lemma keeps_animateCrossfade I c : routine I -> keeps I (animateCrossfade c).
Proof. routine_op animateCrossfade. Qed.

Lemma keeps_after_activateDeck I k success :
  routine I -> keeps I (after_activateDeck k success).
Proof. routine_op after_activateDeck. Qed.

#[local] Hint Resolve keeps_animateCrossfade keeps_after_activateDeck
  keeps_updateSpotifyPosition keeps_playPause keeps_initAudio keeps_cleanup
  keeps_scrubTrack keeps_setAutoCrossfadeSettings : keeps.

Lemma keeps_resume_task t resp sdkFailed :
  keeps Inv (resume_task t resp sdkFailed).
Proof. unfold resume_task. keeps_tac. Qed.

Lemma keeps_perform a : keeps Inv (perform a).
Proof.
  destruct a; cbn [perform]; unfold unit_op; keeps_tac.
  all: apply keeps_world_change; reflexivity.
Qed.

(** ** The system *)

Lemma world_step a s :
  world (step a s) =
  match a with
  | Resume n resp sdkFailed =>
      match nth_error (tasks s) n with
      | None => world s
      | Some t => snd (resume_task t resp sdkFailed (world s))
      end
  | _ => snd (perform a (world s))
  end.
Proof.
  unfold step. destruct a; try (destruct (perform _ _); reflexivity).
  destruct (nth_error (tasks s) n); [|reflexivity].
  destruct (resume_task _ _ _ _); reflexivity.
Qed.

Lemma run_app acts acts' s : run (acts ++ acts') s = run acts' (run acts s).
Proof. unfold run. apply fold_left_app. Qed.

Lemma reachable_initial : reachable initialSystem.
Proof. now exists []. Qed.

Lemma reachable_step a s : reachable s -> reachable (step a s).
Proof.
  intros [acts ->]. exists (acts ++ [a]). now rewrite run_app.
Qed.

Lemma reachable_run acts : reachable (run acts initialSystem).
Proof. now exists acts. Qed.

Lemma reachable_ind' (P : System -> Prop) :
  P initialSystem ->
  (forall a s, reachable s -> P s -> P (step a s)) ->
  forall s, reachable s -> P s.
Proof.
  intros H0 Hstep s [acts ->].
  induction acts as [|a acts IH] using rev_ind; [exact H0|].
  rewrite run_app. cbn. apply Hstep; [now exists acts | exact IH].
Qed.

Lemma step_WInv a s : WInv (world s) -> WInv (world (step a s)).
Proof.
  intros H. rewrite world_step.
  assert (Hp : WInv (snd (perform a (world s))))
    by (now apply keeps_perform).
  destruct a; try exact Hp.
  destruct (nth_error (tasks s) n); [|exact H].
  now apply keeps_resume_task.
Qed.

Lemma WInv_initial : WInv initialWorld.
Proof.
  assert (Hi : Inv initialState) by (repeat split).
  split; [exact Hi|]. exists [initialState]. split; [reflexivity|].
  now constructor.
Qed.

Lemma reachable_WInv s : reachable s -> WInv (world s).
Proof.
  intros H. induction H using reachable_ind'.
  - exact WInv_initial.
  - now apply step_WInv.
Qed.

Lemma WInv_published w :
  WInv w -> Inv (store w) /\ Forall Inv (published w).
Proof.
  intros (Hs & new & Hp & Hn). split; [exact Hs|].
  now rewrite Hp, app_nil_r.
Qed.

Lemma since_start I w : I (store w) -> since I (published w) w.
Proof. intros H. split; [exact H|]. now exists []. Qed.

(** A step that completes no activation and is not [cleanup] keeps any
    property of the activity flags. *)
Lemma keeps_flags_perform P a :
  a <> Cleanup -> keeps (flagged P) (perform a).
Proof.
  intros Ha. destruct a; cbn [perform]; unfold unit_op; keeps_tac;
    try congruence.
  all: apply keeps_world_change; reflexivity.
Qed.

Lemma keeps_flags_resume_task P t resp sdkFailed :
  match t with
  | AwaitPlayTrack p _ => playTrack_result (pa_ready p) resp = Rejected
  | _ => True
  end ->
  keeps (flagged P) (resume_task t resp sdkFailed).
Proof.
  intros H. destruct t; cbn [resume_task]; keeps_tac.
  now apply keeps_activateDeck_rejected.
Qed.

Lemma flags_unchanged a s :
  commits a s = None -> a <> Cleanup ->
  since (has_flags (active_flags (store (world s))))
        (published (world s)) (world (step a s)).
Proof.
  intros Hc Ha. rewrite world_step.
  pose proof (since_start (has_flags (active_flags (store (world s))))
                          (world s) eq_refl) as H0.
  assert (Hp : since (has_flags (active_flags (store (world s))))
                     (published (world s)) (snd (perform a (world s))))
    by (now apply keeps_flags_perform).
  destruct a; try exact Hp.
  cbn in Hc.
  destruct (nth_error (tasks s) n) as [t|]; [|exact H0].
  apply keeps_flags_resume_task; [|exact H0].
  destruct t; try exact Logic.I.
  now destruct (playTrack_result (pa_ready p) resp).
Qed.

Lemma only_active_activated d startPositionMs now s :
  only_active d (activated d startPositionMs now s).
Proof. destruct d; reflexivity. Qed.

Lemma since_bind I old {X Y} (m : M X) (k : X -> M Y) w :
  since I old (snd (m w)) -> (forall x, keeps I (k x)) ->
  since I old (snd (bind m k w)).
Proof.
  intros Hm Hk. unfold bind. destruct (m w) as [x w']. now apply Hk.
Qed.

Lemma since_after_set I f {X} (k : M X) w :
  I (f (store w)) -> keeps I k ->
  since I (f (store w) :: published w) (snd (bind (set f) (fun _ => k) w)).
Proof.
  intros Hf Hk. unfold bind. cbn. apply Hk. now apply since_start.
Qed.

(** The successful activation installs [activated ...] first; from then on
    the step only installs states with the same flags. *)
Lemma flags_committed a s d :
  commits a s = Some d ->
  exists startPositionMs,
    since (only_active d)
          (activated d startPositionMs (clock (world s)) (store (world s))
             :: published (world s))
          (world (step a s)).
Proof.
  intros Hc. rewrite world_step. destruct a; try discriminate. cbn in Hc.
  destruct (nth_error (tasks s) n) as [[p k| | | |]|]; try discriminate.
  destruct (playTrack_result (pa_ready p) resp) eqn:Hr; [|discriminate].
  injection Hc as <-. exists (pa_startPositionMs p).
  cbn [resume_task]. unfold activateDeck_resume. rewrite Hr.
  apply since_bind; [|intros; unfold only_active; keeps_tac].
  apply (since_after_set (only_active (pa_deck p))
           (activated (pa_deck p) (pa_startPositionMs p) (clock (world s)))).
  - apply only_active_activated.
  - unfold only_active. keeps_tac.
Qed.

Lemma flags_cleanup s :
  since (flagged (fun x => x = active_flags (store (world s))
                           \/ x = (false, false)))
        (published (world s)) (world (step Cleanup s)).
Proof.
  rewrite world_step. cbn [perform]. unfold unit_op.
  apply since_bind; [|intros; apply keeps_ret].
  assert (Hk : keeps (flagged (fun x => x = active_flags (store (world s))
                                        \/ x = (false, false))) cleanup).
  { unfold cleanup. keeps_tac. intros _. apply keeps_set.
    intros st _. now right. }
  apply Hk, since_start. now left.
Qed.

(** ** C1: a single holder of the player *)

Lemma run_A_active_flags :
  active_flags (store (world (run run_A_active initialSystem)))
  = (true, false).
Proof. reflexivity. Qed.

(** C1, as stated, fails: [cleanup] is not an activation, and it clears
    the flag of the active deck. *)
Lemma sole_mutation_point_fails : ~ sole_mutation_point.
Proof.
  intros H.
  specialize (H Cleanup (run run_A_active initialSystem)
                (reachable_run _) eq_refl).
  destruct H as [H _]. unfold has_flags, flagged in H.
  rewrite run_A_active_flags in H. discriminate H.
Qed.

(** C1 (amended).  In every reachable state, and in every state ever
    installed in the store, at most one of [deckA.isActive] and
    [deckB.isActive] is true.  The flags are written in two places only.
    A successful [activateDeck] installs, in one update, the state
    [activated ...] in which its deck is the only active one, and every
    state the same step installs afterwards has exactly that deck active.
    [cleanup] installs only states with the flags it found or with both
    flags false.  Every other step, a failed [activateDeck] included,
    installs only states with the flags it found. *)
Theorem single_active_deck :
  (forall s, reachable s ->
     Forall at_most_one_active (store (world s) :: published (world s)))
  /\ (forall a s, commits a s = None -> a <> Cleanup ->
        since (has_flags (active_flags (store (world s))))
              (published (world s)) (world (step a s)))
  /\ (forall a s d, commits a s = Some d ->
        exists startPositionMs,
          let first :=
            activated d startPositionMs (clock (world s)) (store (world s)) in
          only_active d first
          /\ since (only_active d) (first :: published (world s))
                   (world (step a s)))
  /\ (forall s,
        since (flagged (fun x => x = active_flags (store (world s))
                                 \/ x = (false, false)))
              (published (world s)) (world (step Cleanup s))).
Proof.
  split; [|split; [|split]].
  - intros s Hs. apply reachable_WInv, WInv_published in Hs.
    destruct Hs as [H1 H2]. constructor; [apply H1|].
    eapply Forall_impl; [|exact H2]. now intros st [H _].
  - exact flags_unchanged.
  - intros a s d Hc. destruct (flags_committed a s d Hc) as [pos H].
    exists pos. split; [apply only_active_activated | exact H].
  - exact flags_cleanup.
Qed.

Lemma single_active_deck_witness :
  Forall at_most_one_active
    (store (world (run run_A_active initialSystem))
       :: published (world (run run_A_active initialSystem)))
  /\ since (has_flags (true, false))
           (published (world (run run_A_active initialSystem)))
           (world (step (SetCrossfader (Num 1)) (run run_A_active initialSystem)))
  /\ commits (Resume 0 (Status true) false)
             (run [LoadSpotifyTrack A (demoTrack "one" 180000) 0;
                   ActivateDeck A false] initialSystem) = Some A.
Proof.
  split; [|split].
  - apply (proj1 single_active_deck). apply reachable_run.
  - apply (proj1 (proj2 single_active_deck) (SetCrossfader (Num 1))
             (run run_A_active initialSystem)).
    + reflexivity.
    + discriminate.
  - reflexivity.
Defined.

(** ** C10, C8: the preparation gate and failed activations *)

Lemma reachable_deck_ok s deck :
  reachable s -> deck_ok (deckOf deck (store (world s))).
Proof.
  intros H. apply reachable_WInv in H. destruct H as [(_ & HA & HB) _].
  now destruct deck.
Qed.

Lemma activateDeck_begin_gate deck preservePosition w :
  fst (activateDeck_begin deck preservePosition w) = None <->
  match track (deckOf deck (store w)) with
  | None => True
  | Some t => isPrepared t = false
  end.
Proof.
  unfold activateDeck_begin, bind; cbn.
  destruct (track (deckOf deck (store w))) as [t|]; [|tauto].
  destruct (isPrepared t); cbn; split; intros; congruence.
Qed.

(** C10.  [loadSpotifyTrack(deck, spotifyTrack, startTimeMs)] leaves the
    deck with a track that has [isPrepared = true] and
    [preparedStartTime = startTimeMs], so that [activateDeck] passes its
    preparation gate on that deck right away; and in a reachable state the
    gate rejects a deck exactly when the deck has no track. *)
Theorem loadSpotifyTrack_prepares :
  (forall deck spotifyTrack startTimeMs w,
      let w' := snd (loadSpotifyTrack deck spotifyTrack startTimeMs w) in
      (exists t,
          track (deckOf deck (store w')) = Some t
          /\ isPrepared t = true
          /\ preparedStartTime t = startTimeMs)
      /\ (forall preservePosition,
            fst (activateDeck_begin deck preservePosition w') <> None))
  /\ (forall s deck preservePosition,
        reachable s ->
        (fst (activateDeck_begin deck preservePosition (world s)) = None
         <-> track (deckOf deck (store (world s))) = None)).
Proof.
  split.
  - intros deck spotifyTrack startTimeMs w w'. split.
    + subst w'. destruct deck; cbn; eexists; repeat split.
    + intros preservePosition H. apply activateDeck_begin_gate in H.
      subst w'. destruct deck; cbn in H; discriminate.
  - intros s deck preservePosition Hs.
    rewrite activateDeck_begin_gate.
    pose proof (reachable_deck_ok s deck Hs) as Hok. unfold deck_ok in Hok.
    destruct (track (deckOf deck (store (world s)))) as [t|];
      split; intros; congruence || exact Logic.I.
Qed.

Lemma loadSpotifyTrack_prepares_witness :
  fst (activateDeck_begin B true (world (run run_A_active initialSystem)))
  = None
  <-> track (deckOf B (store (world (run run_A_active initialSystem))))
      = None.
Proof.
  apply (proj2 loadSpotifyTrack_prepares). apply reachable_run.
Defined.

Lemma with_isLoading_same d :
  isLoading d = false -> with_isLoading false d = d.
Proof. destruct d; cbn; intros ->; reflexivity. Qed.

Lemma update_deck_same deck f s :
  f (deckOf deck s) = deckOf deck s -> update_deck deck f s = s.
Proof.
  destruct deck, s; cbn; intros ->; reflexivity.
Qed.

(** The failures of [activateDeck] that the code reports.  On a deck
    without a track, or with a track that is not prepared, [activateDeck]
    returns [false] and leaves the store as it found it; in a reachable
    state a deck without a track does not show [isLoading].  When the call
    of [playTrack] throws, [activateDeck] returns [false]; afterwards the
    deck's [isLoading] is false, and the store is the one it found but
    for that flag: no activity flag has changed and the other deck is
    untouched. *)
Lemma activateDeck_failure :
  (forall deck preservePosition resp w,
      match track (deckOf deck (store w)) with
      | None => True
      | Some t => isPrepared t = false
      end ->
      let r := activateDeck deck preservePosition resp w in
      fst r = false /\ store (snd r) = store w)
  /\ (forall s deck,
        reachable s ->
        track (deckOf deck (store (world s))) = None ->
        isLoading (deckOf deck (store (world s))) = false)
  /\ (forall deck preservePosition resp w t,
        track (deckOf deck (store w)) = Some t ->
        isPrepared t = true ->
        playTrack_result (player_ready (spotifyStore w)) resp = Rejected ->
        let r := activateDeck deck preservePosition resp w in
        fst r = false
        /\ isLoading (deckOf deck (store (snd r))) = false
        /\ store (snd r) = update_deck deck (with_isLoading false) (store w)
        /\ active_flags (store (snd r)) = active_flags (store w)
        /\ deckOf (other deck) (store (snd r))
           = deckOf (other deck) (store w)).
Proof.
  split; [|split].
  - intros deck preservePosition resp w Hgate r. subst r.
    unfold activateDeck, activateDeck_begin, bind; cbn.
    destruct (track (deckOf deck (store w))) as [t|]; [|now split].
    rewrite Hgate. now split.
  - intros s deck Hs Ht.
    pose proof (reachable_deck_ok s deck Hs) as Hok. unfold deck_ok in Hok.
    now rewrite Ht in Hok.
  - intros deck preservePosition resp w t Ht Hp Hrej r. subst r.
    unfold activateDeck, activateDeck_begin, activateDeck_resume, bind; cbn.
    rewrite Ht, Hp. cbn. rewrite Hrej. cbn.
    destruct deck; repeat split.
Qed.

Lemma activateDeck_failure_example :
  fst (activateDeck B true (Status true)
         (world (run run_A_active initialSystem))) = false
  /\ fst (activateDeck A false (Status false)
            (world (run run_A_loaded_ready initialSystem))) = false.
Proof.
  destruct activateDeck_failure as (Hgate & _ & Hthrow). split.
  - now apply Hgate.
  - eapply Hthrow; reflexivity.
Qed.

(** Without a device or a ready player, [playTrack] logs and returns: for
    [activateDeck] the call has not failed, and the deck becomes active. *)
Lemma activateDeck_player_not_ready deck preservePosition resp w t :
  track (deckOf deck (store w)) = Some t ->
  isPrepared t = true ->
  player_ready (spotifyStore w) = false ->
  let r := activateDeck deck preservePosition resp w in
  fst r = true /\ only_active deck (store (snd r)).
Proof.
  intros Ht Hp Hr.
  unfold activateDeck, activateDeck_begin, activateDeck_resume, bind; cbn.
  rewrite Ht, Hp; cbn. rewrite Hr; cbn.
  unfold when, startPositionTracking, bind; cbn.
  destruct deck; cbn;
    destruct (isCrossfading (store w));
    destruct (positionUpdateInterval (store w)); cbn; split; reflexivity.
Qed.

(** C8.  [activateDeck] on a deck with a prepared track while the Spotify
    store has no device and no ready player, so that the remote play call
    cannot be made: [playTrack] logs ['Player not ready for playback'] and
    returns without throwing, and [activateDeck] does not fail.  It
    returns [true] and leaves the deck active, playing and not loading,
    where a failed activation would return [false] and leave the store as
    it was but for [isLoading].  Shown for deck A right after
    [loadSpotifyTrack], with the Spotify store in its initial state; no
    request is made, so the answer of the network plays no part. *)
Theorem activateDeck_not_ready_succeeds :
  let w :=
    world (run [LoadSpotifyTrack A (demoTrack "one" 180000) 0]
               initialSystem) in
  player_ready (spotifyStore w) = false
  /\ isActive (deckOf A (store w)) = false
  /\ forall preservePosition resp,
       let r := activateDeck A preservePosition resp w in
       fst r = true
       /\ isActive (deckOf A (store (snd r))) = true
       /\ isPlaying (deckOf A (store (snd r))) = true
       /\ isLoading (deckOf A (store (snd r))) = false
       /\ store (snd r) <> update_deck A (with_isLoading false) (store w).
Proof.
  cbv zeta. split; [reflexivity|]. split; [reflexivity|].
  intros preservePosition resp.
  unfold activateDeck, activateDeck_begin, activateDeck_resume, when,
    startPositionTracking, bind; cbn.
  repeat split.
  intros H. apply (f_equal (fun s => isActive (deckA s))) in H.
  discriminate H.
Qed.

(** ** C2, C3: the trigger of the auto-crossfade *)

Lemma trigger_fires w active :
  trigger_condition (store w) active ->
  transition_started active (other active) w.
Proof.
  intros (Hen & Hx & Hact & Hoth & ta & tc & Hta & Htc & Hp & Hlo & Hhi).
  apply gtb_true in Hlo. apply leb_true in Hhi.
  unfold transition_started, checkAutoCrossfadeTrigger, startAutoCrossfade,
    bind, get; cbn.
  rewrite Hen, Hx; cbn.
  destruct active; cbn in *;
    repeat (progress (rewrite ?Hact, ?Hoth, ?Hta, ?Htc, ?Hp, ?Hx, ?Hhi, ?Hlo;
                      cbn));
    repeat split; eexists; repeat split.
Qed.

Lemma trigger_decides w :
  at_most_one_active (store w) ->
  (exists active, trigger_condition (store w) active) \/ no_transition w.
Proof.
  unfold at_most_one_active. intros Hone.
  unfold no_transition, checkAutoCrossfadeTrigger, bind, get; cbn.
  destruct (AutoCrossfade.enabled (autoCrossfade (store w))) eqn:Hen;
    [|now right].
  destruct (isCrossfading (store w)) eqn:Hx; [now right|]. cbn.
  destruct (isActive (deckA (store w))) eqn:HA.
  - cbn in Hone. cbn.
    destruct (track (deckA (store w))) as [ta|] eqn:Hta; [|now right].
    destruct (track (deckB (store w))) as [tc|] eqn:Htc; [|now right].
    destruct (isPrepared tc) eqn:Hp; [|now right]. cbn.
    destruct (leb _ _) eqn:Hhi; [|now right].
    destruct (gtb _ _) eqn:Hlo; [|now right].
    left. exists A. apply gtb_true in Hlo. apply leb_true in Hhi.
    repeat split; try assumption. exists ta, tc. repeat split; assumption.
  - destruct (isActive (deckB (store w))) eqn:HB; [|now right]. cbn.
    destruct (track (deckB (store w))) as [ta|] eqn:Hta; [|now right].
    destruct (track (deckA (store w))) as [tc|] eqn:Htc; [|now right].
    destruct (isPrepared tc) eqn:Hp; [|now right]. cbn.
    destruct (leb _ _) eqn:Hhi; [|now right].
    destruct (gtb _ _) eqn:Hlo; [|now right].
    left. exists B. apply gtb_true in Hlo. apply leb_true in Hhi.
    repeat split; try assumption. exists ta, tc. repeat split; assumption.
Qed.

Lemma trigger_silent w :
  at_most_one_active (store w) ->
  (forall active, ~ trigger_condition (store w) active) ->
  no_transition w.
Proof.
  intros Hone Hno. destruct (trigger_decides w Hone) as [[d Hd]|H].
  - now elim (Hno d).
  - exact H.
Qed.

Lemma started_not_silent from to w :
  transition_started from to w -> no_transition w -> False.
Proof.
  unfold transition_started, no_transition.
  intros [(c & Hc & _) _] Hn. rewrite Hn in Hc. discriminate.
Qed.

(** C2.  In a state with at most one active deck, the trigger check
    starts a transition if and only if auto-crossfade is enabled, no
    transition is in flight, exactly one deck is active and has a track,
    the other deck has a prepared track, and
    [0 < duration - currentTime <= triggerTime]; the transition then goes
    from the active deck to the other one, and otherwise the check does
    nothing.  With duration 180, trigger time 15 and a prepared candidate,
    it starts a transition at [currentTime = 166] and none at
    [currentTime = 160]. *)
Theorem checkAutoCrossfadeTrigger_iff :
  forall w,
    at_most_one_active (store w) ->
    ((exists from to, transition_started from to w)
     <-> (exists active, trigger_condition (store w) active))
    /\ (forall active, trigger_condition (store w) active ->
          transition_started active (other active) w)
    /\ ((forall active, ~ trigger_condition (store w) active) ->
          no_transition w)
    /\ (forall active ta tc,
          AutoCrossfade.enabled (autoCrossfade (store w)) = true ->
          isCrossfading (store w) = false ->
          AutoCrossfade.triggerTime (autoCrossfade (store w)) = 15 ->
          isActive (deckOf active (store w)) = true ->
          track (deckOf active (store w)) = Some ta ->
          duration ta = 180 ->
          track (deckOf (other active) (store w)) = Some tc ->
          isPrepared tc = true ->
          (currentTime (deckOf active (store w)) = 166 ->
             transition_started active (other active) w)
          /\ (currentTime (deckOf active (store w)) = 160 ->
                no_transition w)).
Proof.
  intros w Hone.
  assert (Hflag : forall d, isActive (deckOf d (store w)) = true ->
                            isActive (deckOf (other d) (store w)) = false).
  { unfold at_most_one_active in Hone. intros d Hd.
    destruct d; cbn in *; rewrite Hd in Hone;
      destruct (isActive (deckA (store w))), (isActive (deckB (store w)));
      cbn in *; congruence. }
  split; [|split; [|split]].
  - split.
    + intros (from & to & Hs).
      destruct (trigger_decides w Hone) as [H|H]; [exact H|].
      now elim (started_not_silent from to w Hs).
    + intros (active & Ha). exists active, (other active).
      now apply trigger_fires.
  - intros active. apply trigger_fires.
  - now apply trigger_silent.
  - intros active ta tc Hen Hx Htrig Hact Hta Hdur Htc Hp. split.
    + intros Hct. apply trigger_fires.
      repeat split; auto. exists ta, tc. rewrite Hdur, Hct, Htrig.
      repeat split; auto; lra.
    + intros Hct. apply trigger_silent; [exact Hone|].
      intros d (_ & _ & Hd & _ & ta' & _ & Hta' & _ & _ & Hlo & Hhi).
      assert (d = active).
      { destruct d, active; try reflexivity;
          apply Hflag in Hd; cbn in *; congruence. }
      subst d. rewrite Hta in Hta'. injection Hta' as <-.
      rewrite Hdur, Hct, Htrig in Hhi. lra.
Qed.

Lemma checkAutoCrossfadeTrigger_iff_witness :
  transition_started A B (world (run (run_A_at 166000) initialSystem))
  /\ no_transition (world (run (run_A_at 160000) initialSystem)).
Proof.
  split.
  - refine (proj1 (proj2 (proj2 (proj2
              (checkAutoCrossfadeTrigger_iff
                 (world (run (run_A_at 166000) initialSystem)) _)))
              A _ _ _ _ _ _ _ _ _ _) _);
      try reflexivity; cbn; lra.
  - refine (proj2 (proj2 (proj2 (proj2
              (checkAutoCrossfadeTrigger_iff
                 (world (run (run_A_at 160000) initialSystem)) _)))
              A _ _ _ _ _ _ _ _ _ _) _);
      try reflexivity; cbn; lra.
Defined.

Lemma startAutoCrossfade_in_flight fromDeck toDeck w :
  isCrossfading (store w) = true ->
  startAutoCrossfade fromDeck toDeck w = ([], w).
Proof.
  intros H. unfold startAutoCrossfade, bind, get; cbn.
  destruct (track (deckOf fromDeck (store w))) as [src|]; [|reflexivity].
  destruct (track (deckOf toDeck (store w))) as [tgt|]; [|reflexivity].
  destruct (isPrepared tgt); cbn; [|reflexivity].
  now rewrite H.
Qed.

Lemma checkAutoCrossfadeTrigger_in_flight w :
  isCrossfading (store w) = true ->
  checkAutoCrossfadeTrigger w = ([], w).
Proof.
  intros H. unfold checkAutoCrossfadeTrigger, bind, get; cbn.
  now rewrite H, orb_true_r.
Qed.

Lemma updateSpotifyPosition_in_flight positionMs durationMs deck w :
  isCrossfading (store w) = true ->
  fst (updateSpotifyPosition positionMs durationMs deck w) = []
  /\ transition_state
       (store (snd (updateSpotifyPosition positionMs durationMs deck w)))
     = transition_state (store w).
Proof.
  intros H. unfold updateSpotifyPosition, bind, get, set.
  cbn -[checkAutoCrossfadeTrigger].
  match goal with
  | |- context [match ?d with Some _ => _ | None => ret [] end] =>
      destruct d as [d'|]
  end; [|now split].
  destruct (isActive (deckOf d' (store w))); cbn [negb]; [|now split].
  match goal with
  | |- context [checkAutoCrossfadeTrigger ?w'] =>
      assert (Hw : isCrossfading (store w') = true)
        by (destruct d'; exact H);
      rewrite (checkAutoCrossfadeTrigger_in_flight w' Hw)
  end.
  cbn. split; [reflexivity|]. now destruct d'.
Qed.

(** C3.  While [isCrossfading] is true, [startAutoCrossfade] and the
    trigger check return at once and change nothing, and no sequence of
    trigger checks, position updates and [startAutoCrossfade] calls
    changes [isCrossfading], [crossfadeStartTime] or [crossfadeDirection]
    or requests an animation frame. *)
Theorem no_second_transition :
  forall s,
    isCrossfading (store (world s)) = true ->
    (forall fromDeck toDeck,
        startAutoCrossfade fromDeck toDeck (world s) = ([], world s))
    /\ checkAutoCrossfadeTrigger (world s) = ([], world s)
    /\ (forall acts,
          Forall trigger_call acts ->
          transition_state (store (world (run acts s)))
          = transition_state (store (world s))
          /\ tasks (run acts s) = tasks s).
Proof.
  intros s H. split; [|split].
  - intros. now apply startAutoCrossfade_in_flight.
  - now apply checkAutoCrossfadeTrigger_in_flight.
  - intros acts. revert s H.
    induction acts as [|a acts IH]; intros s H Hall; [now split|].
    inversion Hall as [|a' acts' Ha Hacts]; subst.
    assert (Hstep : transition_state (store (world (step a s)))
                    = transition_state (store (world s))
                    /\ tasks (step a s) = tasks s).
    { destruct a; try contradiction; unfold step; cbn [perform].
      - pose proof (updateSpotifyPosition_in_flight positionMs durationMs
                      deck (world s) H) as [H1 H2].
        destruct (updateSpotifyPosition _ _ _ _) as [ts w']; cbn in *.
        subst ts. now rewrite app_nil_r.
      - rewrite (startAutoCrossfade_in_flight _ _ _ H); cbn.
        now rewrite app_nil_r.
      - rewrite (checkAutoCrossfadeTrigger_in_flight _ H); cbn.
        now rewrite app_nil_r. }
    destruct Hstep as [Hst Hts].
    assert (H' : isCrossfading (store (world (step a s))) = true).
    { unfold transition_state in Hst. injection Hst as -> _ _. exact H. }
    destruct (IH (step a s) H' Hacts) as [IH1 IH2].
    change (run (a :: acts) s) with (run acts (step a s)).
    split; congruence.
Qed.

Lemma no_second_transition_witness :
  transition_state
    (store (world (run [ CheckAutoCrossfadeTrigger;
                         StartAutoCrossfade A B;
                         UpdateSpotifyPosition 170000 180000 None ]
                       (run run_in_flight initialSystem))))
  = transition_state (store (world (run run_in_flight initialSystem)))
  /\ tasks (run [ CheckAutoCrossfadeTrigger;
                  StartAutoCrossfade A B;
                  UpdateSpotifyPosition 170000 180000 None ]
                (run run_in_flight initialSystem))
     = tasks (run run_in_flight initialSystem).
Proof.
  apply (no_second_transition (run run_in_flight initialSystem)).
  - reflexivity.
  - repeat constructor.
Defined.

(** ** C6: resuming a deck where it was deactivated *)

Lemma gtb_pos x : 0 < x -> gtb x 0 = true.
Proof. apply gtb_true. Qed.

(** C6.  A successful activation of the other deck copies the
    [currentTime] an active deck has at that instant into its
    [lastPlayedPosition] and makes it inactive.  Activating a deck with
    [preservePosition = true], a prepared track and
    [lastPlayedPosition > 0] calls [playTrack] with the track's URI at
    [round(lastPlayedPosition * 1000)] ms, whatever the cue point is.  So a
    deck deactivated at 42.3 s is resumed at 42300 ms. *)
Theorem resume_from_lastPlayedPosition :
  (forall w p resp d,
      pa_deck p = other d ->
      playTrack_result (pa_ready p) resp = Resolved ->
      isActive (deckOf d (store w)) = true ->
      let w1 := snd (activateDeck_resume p resp w) in
      lastPlayedPosition (deckOf d (store w1)) = currentTime (deckOf d (store w))
      /\ currentTime (deckOf d (store w1)) = currentTime (deckOf d (store w))
      /\ track (deckOf d (store w1)) = track (deckOf d (store w))
      /\ isActive (deckOf d (store w1)) = false)
  /\ (forall w d t,
        track (deckOf d (store w)) = Some t ->
        isPrepared t = true ->
        0 < lastPlayedPosition (deckOf d (store w)) ->
        let r := activateDeck_begin d true w in
        let positionMs :=
          Math_round (lastPlayedPosition (deckOf d (store w)) * 1000) in
        calls (snd r)
        = calls w ++ [activateDeck_entry d true;
                      playTrack (spotifyUri t) positionMs]
        /\ exists p, fst r = Some p /\ pa_startPositionMs p = positionMs)
  /\ (forall w p resp d t,
        pa_deck p = other d ->
        playTrack_result (pa_ready p) resp = Resolved ->
        isActive (deckOf d (store w)) = true ->
        currentTime (deckOf d (store w)) = 423 / 10 ->
        track (deckOf d (store w)) = Some t ->
        isPrepared t = true ->
        let w1 := snd (activateDeck_resume p resp w) in
        lastPlayedPosition (deckOf d (store w1)) = 423 / 10
        /\ calls (snd (activateDeck_begin d true w1))
           = calls w1 ++ [activateDeck_entry d true;
                          playTrack (spotifyUri t) 42300]).
Proof.
  assert (H1 : forall w p resp d,
             pa_deck p = other d ->
             playTrack_result (pa_ready p) resp = Resolved ->
             isActive (deckOf d (store w)) = true ->
             let w1 := snd (activateDeck_resume p resp w) in
             lastPlayedPosition (deckOf d (store w1))
             = currentTime (deckOf d (store w))
             /\ currentTime (deckOf d (store w1))
                = currentTime (deckOf d (store w))
             /\ track (deckOf d (store w1)) = track (deckOf d (store w))
             /\ isActive (deckOf d (store w1)) = false).
  { intros w p resp d Hd Hr Ha w1. subst w1.
    unfold activateDeck_resume. rewrite Hr, Hd.
    unfold bind, Date_now, set, get, when, startPositionTracking; cbn.
    destruct (isCrossfading _); cbn;
      destruct (positionUpdateInterval _); cbn;
      destruct d; cbn in *; rewrite Ha; repeat split. }
  assert (H2 : forall w d t,
             track (deckOf d (store w)) = Some t ->
             isPrepared t = true ->
             0 < lastPlayedPosition (deckOf d (store w)) ->
             let r := activateDeck_begin d true w in
             let positionMs :=
               Math_round (lastPlayedPosition (deckOf d (store w)) * 1000) in
             calls (snd r)
             = calls w ++ [activateDeck_entry d true;
                           playTrack (spotifyUri t) positionMs]
             /\ exists p, fst r = Some p /\ pa_startPositionMs p = positionMs).
  { intros w d t Ht Hp Hpos r positionMs. subst r positionMs.
    unfold activateDeck_begin, bind, call, get, set, getSpotify; cbn.
    rewrite Ht, Hp; cbn. unfold startPosition.
    rewrite (gtb_pos _ Hpos). split.
    - now rewrite <- app_assoc.
    - eexists; split; reflexivity. }
  split; [exact H1|]. split; [exact H2|].
  intros w p resp d t Hd Hr Ha Hct Ht Hp w1.
  destruct (H1 w p resp d Hd Hr Ha) as (Hl & _ & Htr & _). fold w1 in Hl, Htr.
  rewrite Hct in Hl. rewrite Ht in Htr. split; [exact Hl|].
  destruct (H2 w1 d t Htr Hp) as [Hc _]; [rewrite Hl; lra|].
  rewrite Hc, Hl. replace (423 / 10 * 1000) with (IZR 42300) by lra.
  now rewrite Math_round_IZR.
Qed.

Lemma resume_from_lastPlayedPosition_witness :
  exists t,
    track (deckOf A (store (world (run run_A_then_B initialSystem)))) = Some t
    /\ calls (snd (activateDeck_begin A true
                     (world (run run_A_then_B initialSystem))))
       = calls (world (run run_A_then_B initialSystem))
           ++ [activateDeck_entry A true;
               playTrack (spotifyUri t)
                 (Math_round
                    (lastPlayedPosition
                       (deckOf A (store (world (run run_A_then_B
                                                  initialSystem))))
                     * 1000))].
Proof.
  eexists. split; [reflexivity|].
  pose proof (proj1 (proj2 resume_from_lastPlayedPosition)
                (world (run run_A_then_B initialSystem)) A) as H.
  cbn zeta in H.
  apply H.
  - reflexivity.
  - reflexivity.
  - cbn. lra.
Defined.

(** ** C7: which volume reaches the remote player *)

Lemma skipn_all_app {X} (l l' : list X) : skipn (List.length l) (l ++ l') = l'.
Proof. induction l; cbn; auto. Qed.

Lemma emitted_calls {X} (m : M X) w l :
  calls (snd (m w)) = calls w ++ l -> emitted m w = l.
Proof. intros H. unfold emitted. rewrite H. apply skipn_all_app. Qed.

Ltac split_ifs :=
  repeat
    (cbn;
     match goal with
     | H : ?b = _ |- context [if ?b then _ else _] => rewrite H
     | |- context [if ?b then _ else _] => destruct b eqn:?
     | |- context [match ?x with Some _ => _ | None => _ end] =>
         destruct x eqn:?
     end).

Lemma setVolume_calls deck v w :
  let d := deckOf deck (store w) in
  calls (snd (setVolume deck v w))
  = calls w
      ++ (if has_spotify_track d && isActive d
          then [volume_call (spotifyStore w) deck
                  (Number.mul (Num (Math_max 0 (Math_min 1 v)))
                     (mix deck (crossfaderPosition (store w))))]
          else []).
Proof.
  unfold setVolume, push_volume, volume_call, bind, get, set, assign,
    getSpotify, call.
  destruct deck; split_ifs; cbn; rewrite ?app_nil_r; reflexivity.
Qed.

Lemma setCrossfader_calls position w :
  let s := store w in
  let c := Number.Math_max (Num 0) (Number.Math_min (Num 1) position) in
  calls (snd (setCrossfader position w))
  = calls w
      ++ (if has_spotify_track (deckA s) && isPlaying (deckA s)
          then [volume_call (spotifyStore w) A
                  (Number.mul (Num (volume (deckA s))) (mix A c))]
          else [])
      ++ (if has_spotify_track (deckB s) && isPlaying (deckB s)
          then [volume_call (spotifyStore w) B
                  (Number.mul (Num (volume (deckB s))) (mix B c))]
          else []).
Proof.
  unfold setCrossfader, push_volume, volume_call, bind, get, set, assign,
    getSpotify, call.
  split_ifs; cbn; rewrite ?app_nil_r, <- ?app_assoc; reflexivity.
Qed.




(** A deck can be playing without being active: [playPause] sets
    [isPlaying] when its resume request is answered, also when the deck has
    lost the player in between.  [setCrossfader] then pushes the volume of
    that inactive deck. *)
Lemma setCrossfader_pushes_inactive_deck :
  let w := world (run run_resume_race initialSystem) in
  isActive (deckA (store w)) = false
  /\ isPlaying (deckA (store w)) = true
  /\ In (setSpotifyVolume A
           (Number.mul (Num (volume (deckA (store w))))
              (mix A (Number.Math_max (Num 0)
                        (Number.Math_min (Num 1) (Num 1))))))
        (emitted (setCrossfader (Num 1)) w).
Proof.
  set (w := world (run run_resume_race initialSystem)). cbv zeta.
  split; [reflexivity|]. split; [reflexivity|].
  rewrite (emitted_calls _ _ _ (setCrossfader_calls (Num 1) w)). cbv zeta.
  assert (HA : has_spotify_track (deckA (store w))
               && isPlaying (deckA (store w)) = true) by reflexivity.
  assert (Hp : player (spotifyStore w) = false) by reflexivity.
  unfold volume_call. rewrite HA, Hp. left. reflexivity.
Qed.

(** ** Calls of [activateDeck], operation by operation *)

Section Emits.

Variable P : list Call -> Prop.
Hypothesis P_nil : P [].
Hypothesis P_app : forall l l', P l -> P l' -> P (l ++ l').

Lemma emits_ret {X} (x : X) : emits P (ret x).
Proof. intros w. exists []. now rewrite app_nil_r. Qed.

Lemma emits_bind {X Y} (m : M X) (k : X -> M Y) :
  emits P m -> (forall x, emits P (k x)) -> emits P (bind m k).
Proof.
  intros Hm Hk w. unfold bind.
  destruct (Hm w) as (l & Hl & HP). destruct (m w) as [x w']; cbn in *.
  destruct (Hk x w') as (l' & Hl' & HP').
  exists (l ++ l'). split; [|now apply P_app].
  now rewrite Hl', Hl, app_assoc.
Qed.

Lemma emits_get : emits P get.
Proof. intros w. exists []. cbn. now rewrite app_nil_r. Qed.

Lemma emits_getSpotify : emits P getSpotify.
Proof. intros w. exists []. cbn. now rewrite app_nil_r. Qed.

Lemma emits_Date_now : emits P Date_now.
Proof. intros w. exists []. cbn. now rewrite app_nil_r. Qed.

Lemma emits_set f : emits P (set f).
Proof. intros w. exists []. cbn. now rewrite app_nil_r. Qed.

Lemma emits_assign f : emits P (assign f).
Proof. intros w. exists []. cbn. now rewrite app_nil_r. Qed.

Lemma emits_call c : P [c] -> emits P (call c).
Proof. intros Hc w. now exists [c]. Qed.

Lemma emits_new_interval :
  (forall h, P [setInterval h]) -> emits P new_interval.
Proof. intros Hc w. now exists [setInterval (S (nextHandle w))]. Qed.

Lemma emits_when b m : emits P m -> emits P (when b m).
Proof. intros Hm. destruct b; [exact Hm | apply emits_ret]. Qed.

End Emits.

Lemma quiet_nil : quiet [].
Proof. reflexivity. Qed.

Lemma quiet_app l l' : quiet l -> quiet l' -> quiet (l ++ l').
Proof.
  unfold quiet, activations. intros H H'. now rewrite filter_app, H, H'.
Qed.

#[local] Hint Resolve quiet_nil quiet_app : keeps.

Ltac quiet_tac :=
  repeat
    (intros;
     match goal with
     | |- emits quiet (bind _ _) => apply emits_bind; auto with keeps
     | |- emits quiet (ret _) => apply emits_ret; auto with keeps
     | |- emits quiet get => apply emits_get; auto with keeps
     | |- emits quiet getSpotify => apply emits_getSpotify; auto with keeps
     | |- emits quiet Date_now => apply emits_Date_now; auto with keeps
     | |- emits quiet (set _) => apply emits_set; auto with keeps
     | |- emits quiet (assign _) => apply emits_assign; auto with keeps
     | |- emits quiet (call _) => apply emits_call; reflexivity
     | |- emits quiet new_interval =>
         apply emits_new_interval; auto with keeps; reflexivity
     | |- emits quiet (when _ _) => apply emits_when; auto with keeps
     | |- emits quiet (if ?b then _ else _) => destruct b
     | |- emits quiet (match ?x with _ => _ end) => destruct x
     | |- emits quiet _ => solve [eauto with keeps]
     end).

Lemma quiet_startPositionTracking : emits quiet startPositionTracking.
Proof. unfold startPositionTracking. quiet_tac. Qed.

Lemma quiet_stopAutoCrossfade : emits quiet stopAutoCrossfade.
Proof. unfold stopAutoCrossfade. quiet_tac. Qed.

#[local] Hint Resolve quiet_startPositionTracking quiet_stopAutoCrossfade
  : keeps.



Lemma quiet_push_volume deck v : emits quiet (push_volume deck v).
Proof. unfold push_volume. quiet_tac. Qed.

#[local] Hint Resolve quiet_push_volume : keeps.



Lemma new_calls_app w w' l : calls w' = calls w ++ l -> new_calls w w' = l.
Proof. intros H. unfold new_calls. rewrite H. apply skipn_all_app. Qed.


Lemma animateCrossfade_frame_eq c w :
  animateCrossfade_frame c w =
  let elapsed := clock w - startTime c in
  let progress :=
    Number.Math_min (Number.div elapsed (totalDuration c)) (Num 1) in
  let fadeValue :=
    getCrossfadeValue_number progress (AutoCrossfade.curve (settings c)) in
  let position :=
    match fromDeck c with
    | A => fadeValue
    | B => Number.sub (Num 1) fadeValue
    end in
  let (ts, w1) := setCrossfader position w in
  if handoff_due c elapsed then
    let (r, w2) := activateDeck_begin (toDeck c) false w1 in
    match r with
    | None =>
        let (n, w3) :=
          animateCrossfade_finish (mark_activated c) progress w2 in
        ((ts, n), w3)
    | Some p => ((ts, Handoff p (mark_activated c) progress), w2)
    end
  else
    let (n, w3) := animateCrossfade_finish c progress w1 in
    ((ts, n), w3).
Proof.
  unfold animateCrossfade_frame, bind, Date_now, ret. cbv zeta.
  destruct (setCrossfader _ w) as [ts w1].
  destruct (handoff_due c (clock w - startTime c)).
  - change (toDeck (mark_activated c)) with (toDeck c).
    destruct (activateDeck_begin (toDeck c) false w1) as [[p|] w2];
      [reflexivity|].
    destruct (animateCrossfade_finish _ _ w2); reflexivity.
  - destruct (animateCrossfade_finish _ _ w1); reflexivity.
Qed.







(** ** C4: the handoff in the middle of a transition *)

Lemma activateDeck_begin_cue deck w t :
  track (deckOf deck (store w)) = Some t ->
  isPrepared t = true ->
  calls (snd (activateDeck_begin deck false w))
  = calls w ++ [activateDeck_entry deck false;
                playTrack (spotifyUri t) (preparedStartTime t)].
Proof.
  intros Ht Hp.
  unfold activateDeck_begin, bind, call, get, set, getSpotify; cbn.
  rewrite Ht, Hp; cbn. now rewrite <- app_assoc.
Qed.


Lemma demo_animation_started :
  fst (startAutoCrossfade A B (world (run (run_A_at 166000) initialSystem)))
  = [AnimationFrame demo_animation].
Proof. vm_compute. reflexivity. Qed.


(** ** C5: stopping a transition *)







(** * Further properties of the store *)

(** ** The crossfade curve: range and monotonicity *)

Lemma clamp_monotone (x y : R) :
  x <= y -> Math_max 0 (Math_min 1 x) <= Math_max 0 (Math_min 1 y).
Proof.
  intros H. rewrite !clamp_cases. unfold clamp01_spec, ltb.
  destruct (Rlt_dec x 0), (Rlt_dec 1 x), (Rlt_dec y 0), (Rlt_dec 1 y); lra.
Qed.

Lemma smoothstep_monotone (x y : R) :
  0 <= x -> x <= y -> y <= 1 ->
  x * x * (3 - 2 * x) <= y * y * (3 - 2 * y).
Proof.
  intros Hx Hxy Hy.
  assert (H : y * y * (3 - 2 * y) - x * x * (3 - 2 * x)
              = (y - x) * (3 * (x + y) - 2 * (x * x + x * y + y * y)))
    by ring.
  assert (H1 : 0 <= x * (1 - x)) by (apply Rmult_le_pos; lra).
  assert (H2 : 0 <= y * (1 - y)) by (apply Rmult_le_pos; lra).
  assert (H3 : 0 <= x * (1 - y)) by (apply Rmult_le_pos; lra).
  assert (Hpos : 0 <= 3 * (x + y) - 2 * (x * x + x * y + y * y)) by nra.
  assert (0 <= (y - x) * (3 * (x + y) - 2 * (x * x + x * y + y * y))).
  { apply Rmult_le_pos; lra. }
  lra.
Qed.

Lemma getCrossfadeValue_bounds progress kind :
  0 <= getCrossfadeValue progress kind <= 1.
Proof.
  unfold getCrossfadeValue.
  pose proof (clamp_range progress) as Hr.
  set (c := Math_max 0 (Math_min 1 progress)) in *.
  destruct kind; [exact Hr | |].
  { assert (H0 : 0 <= c * c * (3 - 2 * c)).
    { apply Rmult_le_pos; [apply Rmult_le_pos|]; lra. }
    assert (H1 : 0 <= (1 - c) * (1 - c) * (1 + 2 * c)).
    { apply Rmult_le_pos; [apply Rmult_le_pos|]; lra. }
    replace ((1 - c) * (1 - c) * (1 + 2 * c))
      with (1 - c * c * (3 - 2 * c)) in H1 by ring.
    lra. }
  rewrite Math_pow_three_halves by lra.
  pose proof (sqrt_pos c) as Hs.
  assert (Hs1 : sqrt c <= 1).
  { rewrite <- sqrt_1. apply sqrt_le_1_alt. lra. }
  nra.
Qed.

Lemma getCrossfadeValue_increasing p q kind :
  p <= q -> getCrossfadeValue p kind <= getCrossfadeValue q kind.
Proof.
  intros Hpq. unfold getCrossfadeValue.
  pose proof (clamp_range p) as Hp. pose proof (clamp_range q) as Hq.
  pose proof (clamp_monotone p q Hpq) as Hm.
  set (c := Math_max 0 (Math_min 1 p)) in *.
  set (d := Math_max 0 (Math_min 1 q)) in *.
  destruct kind; [exact Hm | apply smoothstep_monotone; lra |].
  rewrite !Math_pow_three_halves by lra.
  pose proof (sqrt_pos c) as Hsc.
  assert (Hs : sqrt c <= sqrt d) by (apply sqrt_le_1_alt; exact Hm).
  apply Rmult_le_compat; lra.
Qed.

(** The curves start at 0 and end at 1. *)
Lemma getCrossfadeValue_ends kind :
  (forall p, p <= 0 -> getCrossfadeValue p kind = 0)
  /\ (forall p, 1 <= p -> getCrossfadeValue p kind = 1).
Proof.
  split; intros p Hp; unfold getCrossfadeValue.
  - assert (E : Math_max 0 (Math_min 1 p) = 0).
    { rewrite clamp_cases. unfold clamp01_spec, ltb.
      destruct (Rlt_dec p 0), (Rlt_dec 1 p); lra. }
    rewrite E. destruct kind; [reflexivity | lra |].
    rewrite Math_pow_three_halves by lra. lra.
  - assert (E : Math_max 0 (Math_min 1 p) = 1).
    { rewrite clamp_cases. unfold clamp01_spec, ltb.
      destruct (Rlt_dec p 0), (Rlt_dec 1 p); lra. }
    rewrite E. destruct kind; [reflexivity | lra |].
    rewrite Math_pow_three_halves by lra. rewrite sqrt_1. lra.
Qed.



(** ** Invariants through every operation *)

Ltac unfold_ops :=
  repeat progress
    unfold unit_op, loadSpotifyTrack, prepareDeck, playPause,
      seekSpotifyTrack, scrubTrack, updateSpotifyPosition, setDeckPosition,
      setAutoCrossfadeSettings, startAutoCrossfade, stopAutoCrossfade,
      checkAutoCrossfadeTrigger, startPositionTracking,
      stopPositionTracking, activateDeck_begin, activateDeck_resume,
      push_volume, animateCrossfade, animateCrossfade_frame,
      animateCrossfade_finish, after_activateDeck.

(** The rules of [keeps], with the proof of each state update left to
    [stab] and each remaining operation to [leaf]. *)
Ltac keeps_by stab leaf :=
  repeat
    (intros;
     match goal with
     | |- keeps _ (bind _ _) => apply keeps_bind
     | |- keeps _ (ret _) => apply keeps_ret
     | |- keeps _ get => apply keeps_get
     | |- keeps _ getSpotify => apply keeps_getSpotify
     | |- keeps _ Date_now => apply keeps_Date_now
     | |- keeps _ (call _) => apply keeps_call
     | |- keeps _ new_interval => apply keeps_new_interval
     | |- keeps _ (when _ _) => apply keeps_when
     | |- keeps _ (set _) => apply keeps_set; stab
     | |- keeps _ (assign _) => apply keeps_assign; stab
     | |- keeps _ (if ?b then _ else _) => destruct b
     | |- keeps _ (match ?x with _ => _ end) => destruct x
     | |- keeps _ _ => leaf
     end).

Lemma since_all I w :
  since I [] w -> Forall I (store w :: published w).
Proof.
  intros (Hs & new & Hp & Hn). constructor; [exact Hs|].
  now rewrite Hp, app_nil_r.
Qed.

Lemma reachable_since I :
  I initialState ->
  (forall a, keeps I (perform a)) ->
  (forall t resp sdkFailed, keeps I (resume_task t resp sdkFailed)) ->
  forall s, reachable s -> since I [] (world s).
Proof.
  intros H0 Hp Hr s Hs. induction Hs using reachable_ind'.
  - split; [exact H0|]. exists [initialState]. split; [reflexivity|].
    now constructor.
  - rewrite world_step.
    assert (Hperf : since I [] (snd (perform a (world s))))
      by (now apply Hp).
    destruct a; try exact Hperf.
    destruct (nth_error (tasks s) n); [now apply Hr | assumption].
Qed.

(** *** The transition state *)

Ltac stable_transition :=
  let s0 := fresh "s" in
  let H := fresh "H" in
  intros s0 H; unfold transition_consistent, update_deck, activated in *;
  repeat match goal with
         | |- context [match ?d with A => _ | B => _ end] => destruct d
         end;
  cbn; first [exact H | discriminate | split; reflexivity].

Lemma keeps_transition_perform a : keeps transition_consistent (perform a).
Proof.
  destruct a; cbn [perform]; unfold initAudio, cleanup, setVolume,
    setCrossfader, set_gain; unfold_ops;
    unfold setCrossfader, seekSpotifyTrack, setDeckPosition; unfold_ops;
    keeps_by stable_transition idtac.
  all: apply keeps_world_change; reflexivity.
Qed.

Lemma keeps_transition_resume t resp sdkFailed :
  keeps transition_consistent (resume_task t resp sdkFailed).
Proof.
  destruct t; cbn [resume_task]; unfold_ops; unfold setCrossfader;
    unfold_ops; keeps_by stable_transition idtac.
Qed.

(** X2.  In every reachable state, and in every state ever installed,
    [crossfadeDirection] is set exactly when [isCrossfading] is true, and
    [crossfadeStartTime] is 0 when it is false. *)
Theorem transition_state_consistent :
  forall s,
    reachable s ->
    Forall (fun st =>
              (isCrossfading st = true <-> crossfadeDirection st <> None)
              /\ (isCrossfading st = false -> crossfadeStartTime st = 0))
           (store (world s) :: published (world s)).
Proof.
  intros s Hs.
  assert (H : since transition_consistent [] (world s)).
  { apply reachable_since; auto using keeps_transition_perform,
      keeps_transition_resume.
    split; reflexivity. }
  apply since_all in H. eapply Forall_impl; [|exact H].
  intros st Hst. unfold transition_consistent in Hst.
  destruct (isCrossfading st).
  - split; [tauto | discriminate].
  - destruct Hst as [Hd Ht]. split; [|auto].
    split; [discriminate | intros Hn; congruence].
Qed.

Lemma transition_state_consistent_witness :
  Forall (fun st =>
            (isCrossfading st = true <-> crossfadeDirection st <> None)
            /\ (isCrossfading st = false -> crossfadeStartTime st = 0))
         (store (world (run run_in_flight initialSystem))
            :: published (world (run run_in_flight initialSystem))).
Proof.
  apply transition_state_consistent. apply reachable_run.
Defined.

(** *** The mixer: what [setCrossfader] and [setVolume] leave behind *)

#[local] Arguments Number.add !a !b : simpl nomatch.
#[local] Arguments Number.sub !a !b : simpl nomatch.
#[local] Arguments Number.mul !a !b : simpl nomatch.
#[local] Arguments Number.Math_min !a !b : simpl nomatch.
#[local] Arguments Number.Math_max !a !b : simpl nomatch.
#[local] Arguments mix !deck !position : simpl nomatch.

Lemma setCrossfader_store position w :
  let c := Number.Math_max (Num 0) (Number.Math_min (Num 1) position) in
  let s := store w in
  store (snd (setCrossfader position w))
  = with_crossfaderPosition c
      (match deckAGain s, deckBGain s with
       | Some _, Some _ =>
           with_gains
             (Some (Number.mul (Num (volume (deckA s))) (mix A c)))
             (Some (Number.mul (Num (volume (deckB s))) (mix B c)))
             (masterGain s) (audioContext s) s
       | _, _ => s
       end)
  /\ published (snd (setCrossfader position w))
     = store (snd (setCrossfader position w)) :: published w
  /\ spotifyStore (snd (setCrossfader position w)) = spotifyStore w
  /\ clock (snd (setCrossfader position w)) = clock w.
Proof.
  unfold setCrossfader, push_volume, bind, get, set, assign, getSpotify,
    call.
  split_ifs; cbn; repeat split; reflexivity.
Qed.

Lemma setVolume_store deck v w :
  let cv := Math_max 0 (Math_min 1 v) in
  let s := store w in
  store (snd (setVolume deck v w))
  = update_deck deck (with_volume cv)
      (match (match deck with A => deckAGain s | B => deckBGain s end) with
       | Some _ =>
           set_gain deck
             (Number.mul (Num cv) (mix deck (crossfaderPosition s))) s
       | None => s
       end)
  /\ published (snd (setVolume deck v w))
     = store (snd (setVolume deck v w)) :: published w.
Proof.
  unfold setVolume, push_volume, bind, get, set, assign, getSpotify, call.
  destruct deck; split_ifs; cbn; split; reflexivity.
Qed.

Lemma keeps_of_last I {X} (m : M X) :
  (forall w, published (snd (m w)) = store (snd (m w)) :: published w) ->
  ends I m -> keeps I m.
Proof.
  intros Hpub Hend old w (Hs & new & Hp & Hn). split; [now apply Hend|].
  exists (store (snd (m w)) :: new). split.
  - now rewrite Hpub, Hp.
  - constructor; [now apply Hend | exact Hn].
Qed.

(** [Math.max(0, Math.min(1, position))] is NaN when the position is, and
    a real number between 0 and 1 otherwise. *)
Lemma clamp_number_cases position :
  let c := Number.Math_max (Num 0) (Number.Math_min (Num 1) position) in
  (position = NaN /\ c = NaN)
  \/ (position <> NaN /\ exists x, c = Num x /\ unit_interval x).
Proof.
  destruct position as [x| | |]; cbn.
  - right. split; [discriminate|]. eexists. split; [reflexivity|].
    apply clamp_range.
  - right. split; [discriminate|]. eexists. split; [reflexivity|].
    unfold unit_interval, Math_max, Rmax. destruct (Rle_dec 0 1); lra.
  - right. split; [discriminate|]. exists 0. split; [reflexivity|].
    unfold unit_interval. lra.
  - left. now split.
Qed.


Lemma unit_or_NaN_clamp position :
  unit_or_NaN (Number.Math_max (Num 0) (Number.Math_min (Num 1) position)).
Proof.
  destruct (clamp_number_cases position) as [[_ ->]|(_ & x & -> & Hx)];
    [exact Logic.I | exact Hx].
Qed.

Lemma unit_interval_mult x y :
  unit_interval x -> unit_interval y -> unit_interval (x * y).
Proof. unfold unit_interval. intros Hx Hy. split; nra. Qed.

Lemma unit_or_NaN_real x : unit_interval x -> unit_or_NaN (Num x).
Proof. intros H. exact H. Qed.

Lemma unit_or_NaN_mix deck p : unit_or_NaN p -> unit_or_NaN (mix deck p).
Proof.
  destruct p as [x| | |], deck; cbn; auto. unfold unit_interval. lra.
Qed.

Lemma unit_or_NaN_mul v p :
  unit_interval v -> unit_or_NaN p -> unit_or_NaN (Number.mul (Num v) p).
Proof.
  destruct p as [x| | |]; cbn; auto; try contradiction.
  apply unit_interval_mult.
Qed.

Lemma unit_number_real x : unit_interval x -> unit_number (Num x).
Proof. intros H. exact H. Qed.

Lemma unit_number_mix deck p : unit_number p -> unit_number (mix deck p).
Proof.
  destruct p as [x| | |], deck; cbn; auto. unfold unit_interval. lra.
Qed.

Lemma unit_number_mul v p :
  unit_interval v -> unit_number p -> unit_number (Number.mul (Num v) p).
Proof.
  destruct p as [x| | |]; cbn; auto; try contradiction.
  apply unit_interval_mult.
Qed.

Lemma unit_number_weaken p : unit_number p -> unit_or_NaN p.
Proof. destruct p; cbn; auto. Qed.

(** The ranges of the mixer, for a property [P] of the numbers that can be
    NaN that the arithmetic of the mixer keeps. *)
Section Range.

Variable P : number -> Prop.
Hypothesis P_real : forall x, unit_interval x -> P (Num x).
Hypothesis P_mix : forall deck p, P p -> P (mix deck p).
Hypothesis P_mul :
  forall v p, unit_interval v -> P p -> P (Number.mul (Num v) p).

Lemma ends_range_setCrossfader position :
  P (Number.Math_max (Num 0) (Number.Math_min (Num 1) position)) ->
  ends (in_range_of P) (setCrossfader position).
Proof.
  intros HP w (Hc & HA & HB & HgA & HgB & Hm).
  destruct (setCrossfader_store position w) as (-> & _). cbv zeta.
  unfold in_range_of, gain_ok in *.
  destruct (deckAGain (store w)) eqn:EA, (deckBGain (store w)) eqn:EB; cbn;
    rewrite ?EA, ?EB; repeat split; auto; try apply HA; try apply HB;
    apply P_mul, P_mix; assumption.
Qed.

Lemma ends_range_setVolume deck v : ends (in_range_of P) (setVolume deck v).
Proof.
  intros w (Hc & HA & HB & HgA & HgB & Hm).
  destruct (setVolume_store deck v w) as (-> & _). cbv zeta.
  pose proof (clamp_range v) as Hp.
  unfold in_range_of, gain_ok in *.
  destruct deck; cbn;
    destruct (deckAGain (store w)) eqn:EA, (deckBGain (store w)) eqn:EB;
    cbn; rewrite ?EA, ?EB; repeat split; auto;
    try apply HA; try apply HB; try apply Hp.
Qed.

Lemma keeps_range_setCrossfader position :
  P (Number.Math_max (Num 0) (Number.Math_min (Num 1) position)) ->
  keeps (in_range_of P) (setCrossfader position).
Proof.
  intros HP. apply keeps_of_last; [|now apply ends_range_setCrossfader].
  intros w. apply (setCrossfader_store position w).
Qed.

Lemma keeps_range_setVolume deck v :
  keeps (in_range_of P) (setVolume deck v).
Proof.
  apply keeps_of_last; [|apply ends_range_setVolume].
  intros w. apply (setVolume_store deck v w).
Qed.

Lemma P_clamp_real x :
  P (Number.Math_max (Num 0) (Number.Math_min (Num 1) (Num x))).
Proof. apply P_real, clamp_range. Qed.

Ltac stable_range :=
  let s0 := fresh "s" in
  let H := fresh "H" in
  intros s0 H; unfold in_range_of, update_deck, activated in *;
  repeat match goal with
         | |- context [match ?d with A => _ | B => _ end] => destruct d
         end;
  cbn;
  first [exact H
        | repeat split; try apply H;
          try (apply P_real); unfold unit_interval; cbn; lra].

Ltac leaf_range :=
  solve [eauto using keeps_range_setCrossfader, keeps_range_setVolume,
           P_clamp_real].

Lemma keeps_range_perform a :
  (forall position,
      a = SetCrossfader position ->
      P (Number.Math_max (Num 0) (Number.Math_min (Num 1) position))) ->
  keeps (in_range_of P) (perform a).
Proof.
  intros Hpos.
  destruct a; cbn [perform]; unfold initAudio, cleanup; unfold_ops;
    keeps_by stable_range
      ltac:(first [leaf_range
                  | apply keeps_range_setCrossfader;
                    apply Hpos; reflexivity]).
  all: apply keeps_world_change; reflexivity.
Qed.

Lemma keeps_range_resume t resp sdkFailed :
  (forall c now,
      t = AnimationFrame c ->
      P (Number.Math_max (Num 0)
           (Number.Math_min (Num 1) (newPosition_at c now)))) ->
  keeps (in_range_of P) (resume_task t resp sdkFailed).
Proof.
  intros Hframe.
  destruct t; cbn [resume_task]; unfold_ops;
    keeps_by stable_range
      ltac:(first [leaf_range
                  | apply keeps_range_setCrossfader;
                    apply Hframe; reflexivity]).
Qed.

End Range.

Lemma in_range_initial : in_range initialState.
Proof.
  unfold in_range, in_range_of; cbn. unfold unit_interval. intuition lra.
Qed.

Lemma reachable_in_range s :
  reachable s -> Forall in_range (store (world s) :: published (world s)).
Proof.
  intros Hs. apply since_all, reachable_since;
    auto using in_range_initial.
  - intros a. apply keeps_range_perform;
      auto using unit_or_NaN_real, unit_or_NaN_mix, unit_or_NaN_mul.
    intros position _. apply unit_or_NaN_clamp.
  - intros t resp sdkFailed. apply keeps_range_resume;
      auto using unit_or_NaN_real, unit_or_NaN_mix, unit_or_NaN_mul.
    intros c now _. apply unit_or_NaN_clamp.
Qed.

(** *** Transitions whose duration is not 0 *)

Lemma tasks_step a s :
  tasks (step a s) =
  match a with
  | Resume n resp sdkFailed =>
      match nth_error (tasks s) n with
      | None => tasks s
      | Some t =>
          remove_nth n (tasks s) ++ fst (resume_task t resp sdkFailed (world s))
      end
  | _ => tasks s ++ fst (perform a (world s))
  end.
Proof.
  unfold step. destruct a; try (destruct (perform _ _); reflexivity).
  destruct (nth_error (tasks s) n); [|reflexivity].
  destruct (resume_task _ _ _ _); reflexivity.
Qed.

Lemma keeps_ends I {X} (m : M X) : keeps I m -> ends I m.
Proof.
  intros Hk w Hs. exact (proj1 (Hk (published w) w (since_start I w Hs))).
Qed.

Lemma getCrossfadeValue_number_real p k :
  getCrossfadeValue_number (Num p) k = Num (getCrossfadeValue p k).
Proof.
  unfold getCrossfadeValue_number, getCrossfadeValue. cbn.
  destruct k; try reflexivity.
  unfold Number.Math_pow.
  destruct (Rlt_dec (Math_max 0 (Math_min 1 p)) 0) as [H|_];
    [|reflexivity].
  pose proof (clamp_range p). lra.
Qed.

Lemma Number_div_real x y : y <> 0 -> Number.div x y = Num (x / y).
Proof.
  intros Hy. unfold Number.div. now destruct (Req_dec_T y 0).
Qed.

(** The position a frame asks for when the duration of its transition is
    not 0: a real number, the one of exact arithmetic. *)
Lemma newPosition_at_real c now :
  totalDuration c <> 0 ->
  newPosition_at c now
  = Num (let fadeValue :=
           getCrossfadeValue
             (Math_min ((now - startTime c) / totalDuration c) 1)
             (AutoCrossfade.curve (settings c)) in
         match fromDeck c with A => fadeValue | B => 1 - fadeValue end).
Proof.
  intros HT. unfold newPosition_at. cbv zeta.
  rewrite (Number_div_real _ _ HT). cbn.
  rewrite getCrossfadeValue_number_real. now destruct (fromDeck c).
Qed.

Ltac stable_duration :=
  let s0 := fresh "s" in
  let H := fresh "H" in
  intros s0 H; unfold duration_set, update_deck, activated, set_gain in *;
  repeat match goal with
         | |- context [match ?d with A => _ | B => _ end] => destruct d
         end;
  cbn; exact H.

Lemma keeps_duration_settings p :
  AutoCrossfade.duration' p <> Some 0 ->
  keeps duration_set (setAutoCrossfadeSettings p).
Proof.
  intros Hp. unfold setAutoCrossfadeSettings. apply keeps_set.
  intros s H. unfold duration_set in *. cbn.
  destruct (AutoCrossfade.duration' p) as [d|]; cbn; [|exact H].
  intros ->. now apply Hp.
Qed.

Lemma keeps_duration_perform a :
  ~ zero_duration a -> keeps duration_set (perform a).
Proof.
  intros Ha.
  destruct a; cbn [perform];
    try solve [unfold unit_op; apply keeps_bind;
               [now apply keeps_duration_settings
               | intros; apply keeps_ret]];
    unfold initAudio, cleanup, setVolume, setCrossfader; unfold_ops;
    unfold setCrossfader, seekSpotifyTrack, setDeckPosition; unfold_ops;
    keeps_by stable_duration idtac.
  all: apply keeps_world_change; reflexivity.
Qed.

Lemma keeps_duration_resume t resp sdkFailed :
  keeps duration_set (resume_task t resp sdkFailed).
Proof.
  destruct t; cbn [resume_task]; unfold_ops; unfold setCrossfader;
    unfold_ops; keeps_by stable_duration idtac.
Qed.

Lemma task_timed_other t : animation_of t = None -> task_timed t.
Proof. unfold task_timed. now intros ->. Qed.

Lemma setCrossfader_tasks position w :
  Forall task_timed (fst (setCrossfader position w)).
Proof.
  unfold setCrossfader, push_volume, bind, get, set, assign, getSpotify,
    call, ret.
  split_ifs; cbn; repeat constructor.
Qed.

Lemma setVolume_tasks deck v w : Forall task_timed (fst (setVolume deck v w)).
Proof.
  unfold setVolume, push_volume, bind, get, set, assign, getSpotify, call,
    ret.
  destruct deck; split_ifs; cbn; repeat constructor.
Qed.

Lemma startAutoCrossfade_timed fromDeck toDeck w :
  duration_set (store w) ->
  Forall task_timed (fst (startAutoCrossfade fromDeck toDeck w)).
Proof.
  intros H. unfold startAutoCrossfade, bind, get, set, Date_now, ret. cbn.
  destruct (track (deckOf fromDeck (store w))); [|constructor].
  destruct (track (deckOf toDeck (store w))) as [target|]; [|constructor].
  destruct (isPrepared target); cbn; [|constructor].
  destruct (isCrossfading (store w)); cbn; [constructor|].
  repeat constructor. unfold task_timed, duration_set in *. cbn. lra.
Qed.

Lemma checkAutoCrossfadeTrigger_timed w :
  duration_set (store w) ->
  Forall task_timed (fst (checkAutoCrossfadeTrigger w)).
Proof.
  intros H. unfold checkAutoCrossfadeTrigger, bind, get, ret.
  cbn beta iota.
  destruct (negb _ || _); [constructor|].
  destruct (isActive (deckA (store w))).
  - destruct (track (deckOf A (store w))); [|constructor].
    destruct (track (deckOf B (store w))) as [ti|]; [|constructor].
    destruct (negb (isPrepared ti)); [constructor|].
    destruct (_ && _); [|constructor]. now apply startAutoCrossfade_timed.
  - destruct (isActive (deckB (store w))); [|constructor].
    destruct (track (deckOf B (store w))); [|constructor].
    destruct (track (deckOf A (store w))) as [ti|]; [|constructor].
    destruct (negb (isPrepared ti)); [constructor|].
    destruct (_ && _); [|constructor]. now apply startAutoCrossfade_timed.
Qed.

Lemma updateSpotifyPosition_timed positionMs durationMs deck w :
  duration_set (store w) ->
  Forall task_timed
         (fst (updateSpotifyPosition positionMs durationMs deck w)).
Proof.
  intros H.
  assert (Hgo : forall d,
             Forall task_timed
               (fst ((if negb (isActive (deckOf d (store w))) then ret []
                      else set (update_deck d (fun d0 =>
                             {| track := option_map
                                           (with_duration (durationMs / 1000))
                                           (track d0);
                                isPlaying := isPlaying d0;
                                currentTime := positionMs / 1000;
                                volume := volume d0;
                                isActive := isActive d0;
                                isLoading := isLoading d0;
                                lastActivated := lastActivated d0;
                                lastPlayedPosition := lastPlayedPosition d0 |})) ;;
                           checkAutoCrossfadeTrigger) w))).
  { intros d. destruct (negb (isActive (deckOf d (store w))));
      [constructor|].
    unfold bind, set. cbn beta iota. apply checkAutoCrossfadeTrigger_timed.
    now destruct d. }
  unfold updateSpotifyPosition, bind, get in *. cbn beta iota in *.
  destruct deck as [d|]; [apply Hgo|].
  destruct (has_spotify_track (deckA (store w)) && isActive (deckA (store w))
            && isPlaying (deckA (store w))); [apply Hgo|].
  destruct (has_spotify_track (deckB (store w)) && isActive (deckB (store w))
            && isPlaying (deckB (store w))); [apply Hgo | constructor].
Qed.

Lemma unit_op_tasks (m : M unit) w : fst (unit_op m w) = [].
Proof. unfold unit_op, bind, ret. now destruct (m w). Qed.

(** The tasks an operation called from outside leaves behind. *)
Lemma perform_timed a w :
  duration_set (store w) -> Forall task_timed (fst (perform a w)).
Proof.
  intros H. destruct a; cbn [perform]; rewrite ?unit_op_tasks;
    try (constructor; fail).
  - unfold bind, ret.
    destruct (activateDeck_begin deck preservePosition w) as [[p|] w'];
      cbn; repeat constructor.
  - unfold playPause, bind, get, call, ret. cbn beta iota.
    destruct (track (deckOf deck (store w))); [|constructor].
    destruct (negb (isActive (deckOf deck (store w)))).
    + destruct (activateDeck_begin deck false w) as [[p|] w'];
        cbn; repeat constructor.
    + destruct (isPlaying (deckOf deck (store w))); cbn; repeat constructor.
  - apply setVolume_tasks.
  - apply setCrossfader_tasks.
  - now apply updateSpotifyPosition_timed.
  - now apply startAutoCrossfade_timed.
  - now apply checkAutoCrossfadeTrigger_timed.
  - unfold initAudio. destruct ok; [|constructor].
    unfold bind. cbn [set fst snd]. apply setCrossfader_tasks.
Qed.

Lemma finish_timed c progress w :
  totalDuration c <> 0 ->
  Forall task_timed
         (next_tasks (fst (animateCrossfade_finish c progress w))).
Proof.
  intros H. unfold animateCrossfade_finish, bind, ret.
  destruct (Number.ltb progress (Num 1)); cbn; repeat constructor.
  exact H.
Qed.

(** The tasks a task leaves behind when it goes on. *)
Lemma resume_timed t resp sdkFailed w :
  task_timed t -> Forall task_timed (fst (resume_task t resp sdkFailed w)).
Proof.
  intros Ht. destruct t as [p k|deck|deck|deck v|c]; cbn [resume_task].
  - unfold bind. destruct (activateDeck_resume p resp w) as [b w1].
    destruct k as [| |c progress]; cbn [after_activateDeck].
    + constructor.
    + destruct b; [|constructor]. unfold bind, ret.
      destruct (startPositionTracking w1). constructor.
    + unfold bind, ret.
      pose proof (finish_timed c progress w1 Ht) as H.
      now destruct (animateCrossfade_finish c progress w1).
  - unfold bind, ret. destruct (stopPositionTracking w).
    cbn. constructor.
  - unfold bind, ret. destruct (startPositionTracking w).
    cbn. constructor.
  - unfold bind, ret, when. destruct sdkFailed; cbn; constructor.
  - unfold animateCrossfade, bind, ret.
    rewrite animateCrossfade_frame_eq. cbv zeta.
    pose proof (setCrossfader_tasks
                  (match fromDeck c with
                   | A =>
                       getCrossfadeValue_number
                         (Number.Math_min
                            (Number.div (clock w - startTime c)
                               (totalDuration c)) (Num 1))
                         (AutoCrossfade.curve (settings c))
                   | B =>
                       Number.sub (Num 1)
                         (getCrossfadeValue_number
                            (Number.Math_min
                               (Number.div (clock w - startTime c)
                                  (totalDuration c)) (Num 1))
                            (AutoCrossfade.curve (settings c)))
                   end) w) as Hts.
    destruct (setCrossfader _ w) as [ts w1]. cbn [fst] in Hts.
    destruct (handoff_due c (clock w - startTime c)).
    + destruct (activateDeck_begin (toDeck c) false w1) as [[p|] w2].
      * cbn. apply Forall_app. split; [exact Hts|].
        repeat constructor. exact Ht.
      * match goal with
        | |- context [animateCrossfade_finish ?c' ?pr w2] =>
            pose proof (finish_timed c' pr w2 Ht) as H2;
            destruct (animateCrossfade_finish c' pr w2) as [n w3]
        end.
        cbn in *. apply Forall_app. now split.
    + match goal with
      | |- context [animateCrossfade_finish ?c' ?pr w1] =>
          pose proof (finish_timed c' pr w1 Ht) as H2;
          destruct (animateCrossfade_finish c' pr w1) as [n w3]
      end.
      cbn in *. apply Forall_app. now split.
Qed.

Lemma Forall_remove_nth {X} (Q : X -> Prop) n l :
  Forall Q l -> Forall Q (remove_nth n l).
Proof.
  intros H. unfold remove_nth. apply Forall_app. split.
  - rewrite <- (firstn_skipn n l) in H. now apply Forall_app in H.
  - rewrite <- (firstn_skipn (S n) l) in H. now apply Forall_app in H.
Qed.

Lemma in_real_range_initial : in_real_range initialState.
Proof.
  unfold in_real_range, in_range_of; cbn. unfold unit_interval.
  intuition lra.
Qed.

(** A run in which no action sets the duration of the transitions to 0 or
    asks for the crossfader position NaN: the mixer values are real
    numbers in every state installed, the duration in the settings is not
    0, and neither is the duration of a transition under way. *)
Lemma run_in_real_range acts :
  Forall (fun a => ~ brings_NaN a) acts ->
  let s := run acts initialSystem in
  since in_real_range [] (world s)
  /\ duration_set (store (world s))
  /\ Forall task_timed (tasks s).
Proof.
  induction acts as [|a acts IH] using rev_ind; intros Hacts; cbv zeta.
  - split; [|split].
    + split; [exact in_real_range_initial|]. exists [initialState].
      split; [reflexivity|]. constructor; [|constructor].
      exact in_real_range_initial.
    + unfold duration_set. cbn. lra.
    + constructor.
  - apply Forall_app in Hacts as [Hacts Ha].
    apply Forall_inv in Ha.
    destruct (IH Hacts) as (Hr & Hd & Ht). clear IH.
    rewrite run_app. cbn [run fold_left].
    set (s := run acts initialSystem) in *.
    rewrite world_step, tasks_step.
    assert (Hperf :
              since in_real_range [] (snd (perform a (world s)))
              /\ duration_set (store (snd (perform a (world s))))
              /\ Forall task_timed (tasks s ++ fst (perform a (world s)))).
    { split; [|split].
      - apply keeps_range_perform;
          auto using unit_number_real, unit_number_mix, unit_number_mul.
        intros position ->.
        destruct (clamp_number_cases position)
          as [[-> _]|(_ & x & -> & Hx)]; [|exact Hx].
        contradiction Ha. right. exact Logic.I.
      - assert (Hz : ~ zero_duration a) by (intros Hz; apply Ha; now left).
        now apply (keeps_ends _ _ (keeps_duration_perform a Hz)).
      - apply Forall_app. split; [exact Ht | now apply perform_timed]. }
    destruct a; try exact Hperf. clear Hperf.
    destruct (nth_error (tasks s) n) as [t|] eqn:Hn;
      [|split; [exact Hr | split; [exact Hd | exact Ht]]].
    assert (Htt : task_timed t).
    { rewrite Forall_forall in Ht. eapply Ht, nth_error_In, Hn. }
    split; [|split].
    + apply keeps_range_resume;
        auto using unit_number_real, unit_number_mix, unit_number_mul.
      intros c now ->. rewrite (newPosition_at_real c now Htt).
      apply unit_number_real, clamp_range.
    + now apply (keeps_ends _ _ (keeps_duration_resume t resp sdkFailed)).
    + apply Forall_app. split.
      * now apply Forall_remove_nth.
      * now apply resume_timed.
Qed.

(** X3.  In every state of a run, and in every state installed during it,
    both deck volumes and the gain of the master node are between 0 and 1,
    and the crossfader position and the gains of the two deck nodes are
    between 0 and 1 or NaN.  When no action of the run sets the duration
    of the transitions to 0 or asks for the crossfader position NaN, none
    of them is NaN: they are all between 0 and 1. *)
Theorem mixer_values_in_range :
  forall acts,
    let s := run acts initialSystem in
    Forall in_range (store (world s) :: published (world s))
    /\ (Forall (fun a => ~ brings_NaN a) acts ->
        Forall (fun st =>
                  exists position,
                    crossfaderPosition st = Num position
                    /\ 0 <= position <= 1
                    /\ 0 <= volume (deckA st) <= 1
                    /\ 0 <= volume (deckB st) <= 1
                    /\ (forall g, deckAGain st = Some g ->
                          exists x, g = Num x /\ 0 <= x <= 1)
                    /\ (forall g, deckBGain st = Some g ->
                          exists x, g = Num x /\ 0 <= x <= 1)
                    /\ (forall g, masterGain st = Some g -> 0 <= g <= 1))
               (store (world s) :: published (world s))).
Proof.
  intros acts s. split.
  - apply reachable_in_range. now exists acts.
  - intros Hacts.
    destruct (run_in_real_range acts Hacts) as (Hr & _).
    apply since_all in Hr. eapply Forall_impl; [|exact Hr].
    intros st (Hc & HA & HB & HgA & HgB & Hm).
    assert (Hnum : forall g, unit_number g ->
                     exists x, g = Num x /\ 0 <= x <= 1).
    { intros [x| | |] Hg; try contradiction. now exists x. }
    destruct (Hnum _ Hc) as (position & Hpos & Hrange).
    exists position. unfold gain_ok in *.
    split; [exact Hpos|]. split; [exact Hrange|].
    split; [exact HA|]. split; [exact HB|].
    split; [|split]; intros g Hg; rewrite Hg in *; auto.
Qed.

Lemma mixer_values_in_range_witness :
  Forall in_range
         (store (world (run [InitAudio true; SetVolume A 7; SetCrossfader (Num (-3))]
                            initialSystem))
            :: published (world (run [InitAudio true; SetVolume A 7;
                                      SetCrossfader (Num (-3))] initialSystem)))
  /\ exists position,
       crossfaderPosition
         (store (world (run [InitAudio true; SetVolume A 7; SetCrossfader (Num (-3))]
                            initialSystem))) = Num position
       /\ 0 <= position <= 1.
Proof.
  pose proof (mixer_values_in_range
                [InitAudio true; SetVolume A 7; SetCrossfader (Num (-3))])
    as [H1 H2].
  split; [exact H1|].
  assert (Hacts : Forall (fun a => ~ brings_NaN a)
                         [InitAudio true; SetVolume A 7; SetCrossfader (Num (-3))])
    by (repeat constructor; intros [[]|[]]).
  apply H2, Forall_inv in Hacts.
  destruct Hacts as (position & Hp & Hr & _).
  exists position. split; [exact Hp | exact Hr].
Defined.

(** *** Volumes pushed to the remote player *)

Lemma Math_round_monotone x y : x <= y -> Math_round x <= Math_round y.
Proof.
  intros H. unfold Math_round. apply IZR_le, Zfloor_le. lra.
Qed.

Lemma volumePercent_range v :
  0 <= v <= 1 ->
  0 <= volumePercent v <= 100 /\ exists z : Z, volumePercent v = IZR z.
Proof.
  intros Hv. unfold volumePercent. split.
  - split.
    + apply Rle_trans with (Math_round (IZR 0)).
      * rewrite Math_round_IZR. lra.
      * apply Math_round_monotone. lra.
    + apply Rle_trans with (Math_round (IZR 100)).
      * apply Math_round_monotone. lra.
      * rewrite Math_round_IZR. lra.
  - unfold Math_round. eexists. reflexivity.
Qed.

Lemma volume_call_volume sp deck v : volume_of (volume_call sp deck v) = Some v.
Proof. unfold volume_call. now destruct (player sp). Qed.

Lemma pushed_ok_mul v p :
  unit_interval v -> unit_or_NaN p ->
  pushed_ok (Number.mul (Num v) p)
  /\ (Number.mul (Num v) p = NaN <-> p = NaN).
Proof.
  intros Hv Hp. destruct p as [x| | |]; cbn in *; try contradiction.
  - split; [|split; discriminate].
    pose proof (unit_interval_mult v x Hv Hp) as H.
    split; [exact H | now apply volumePercent_range].
  - split; [exact Logic.I | tauto].
Qed.

Lemma mix_NaN_iff deck p : mix deck p = NaN <-> p = NaN.
Proof. destruct deck, p; cbn; split; congruence. Qed.

(** X4.  In a reachable state, a volume that [setVolume] or
    [setCrossfader] pushes to the remote player is a real number between 0
    and 1, for which the Spotify store sends a whole percentage between 0
    and 100, or it is NaN: it is NaN exactly when the crossfader position
    that enters it is, the position in the store for [setVolume] and the
    position asked for for [setCrossfader]. *)
Theorem pushed_volume_in_range :
  forall s deck v position c x,
    reachable s ->
    volume_of c = Some x ->
    (In c (emitted (setVolume deck v) (world s)) ->
     pushed_ok x
     /\ (x = NaN <-> crossfaderPosition (store (world s)) = NaN))
    /\ (In c (emitted (setCrossfader position) (world s)) ->
        pushed_ok x /\ (x = NaN <-> position = NaN)).
Proof.
  intros s deck v position c x Hs Hx.
  pose proof (reachable_in_range s Hs) as Hr.
  apply Forall_inv in Hr. destruct Hr as (Hc & HA & HB & _).
  split; intros Hin.
  - rewrite (emitted_calls _ _ _ (setVolume_calls deck v (world s))) in Hin.
    cbv zeta in Hin.
    destruct (has_spotify_track _ && isActive _); [|contradiction].
    destruct Hin as [<-|[]]. rewrite volume_call_volume in Hx.
    injection Hx as <-.
    destruct (pushed_ok_mul (Math_max 0 (Math_min 1 v))
                (mix deck (crossfaderPosition (store (world s)))))
      as [H1 H2].
    + apply clamp_range.
    + now apply unit_or_NaN_mix.
    + split; [exact H1|]. rewrite H2. apply mix_NaN_iff.
  - rewrite (emitted_calls _ _ _ (setCrossfader_calls position (world s)))
      in Hin.
    cbv zeta in Hin. apply in_app_or in Hin.
    assert (Hpos : Number.Math_max (Num 0) (Number.Math_min (Num 1) position)
                   = NaN <-> position = NaN).
    { destruct (clamp_number_cases position)
        as [[-> ->]|(Hn & y & -> & _)]; [tauto|].
      split; [discriminate | contradiction]. }
    destruct Hin as [Hin|Hin];
      match type of Hin with
      | In _ (if ?b then _ else _) => destruct b; [|contradiction]
      end;
      destruct Hin as [<-|[]]; rewrite volume_call_volume in Hx;
      injection Hx as <-;
      match goal with
      | |- pushed_ok (Number.mul (Num ?vol) ?m) /\ _ =>
          destruct (pushed_ok_mul vol m) as [H1 H2];
          [assumption
          | apply unit_or_NaN_mix, unit_or_NaN_clamp
          | split; [exact H1 | rewrite H2, mix_NaN_iff; exact Hpos]]
      end.
Qed.

Lemma pushed_volume_in_range_witness :
  pushed_ok (Number.mul (Num (Math_max 0 (Math_min 1 (5 / 10))))
               (mix A (Num (5 / 10)))).
Proof.
  refine (proj1 (proj1 (pushed_volume_in_range
                          (run run_A_paused initialSystem) A (5 / 10) (Num 0)
                          (setSpotifyVolume A
                             (Number.mul
                                (Num (Math_max 0 (Math_min 1 (5 / 10))))
                                (mix A (Num (5 / 10)))))
                          _ (reachable_run _) eq_refl) _)).
  rewrite (emitted_calls _ _ _ (setVolume_calls A (5 / 10) _)).
  left. reflexivity.
Defined.

(** *** [setCrossfader] twice *)


(** *** Who writes the mixer *)

Ltac stable_mixer :=
  let s0 := fresh "s" in
  let H := fresh "H" in
  intros s0 H;
  unfold same_mixer, gains_consistent, mixer_view, update_deck, activated
    in *;
  repeat match goal with
         | |- context [match ?d with A => _ | B => _ end] => destruct d
         end;
  cbn; exact H.

Lemma keeps_mixer_perform m a :
  match a with
  | SetVolume _ _ | SetCrossfader _ | InitAudio _ | Cleanup => False
  | _ => True
  end ->
  keeps (same_mixer m) (perform a).
Proof.
  intros Ha. destruct a; try contradiction; cbn [perform]; unfold_ops;
    keeps_by stable_mixer idtac.
  all: apply keeps_world_change; reflexivity.
Qed.

Lemma keeps_mixer_resume m t resp sdkFailed :
  match t with AnimationFrame _ => False | _ => True end ->
  keeps (same_mixer m) (resume_task t resp sdkFailed).
Proof.
  intros Ht. destruct t; try contradiction; cbn [resume_task]; unfold_ops;
    keeps_by stable_mixer idtac.
Qed.

Lemma mixer_frame_step m old a s :
  writes_mixer a s = false ->
  since (same_mixer m) old (world s) ->
  since (same_mixer m) old (world (step a s)).
Proof.
  intros Hw H0. rewrite world_step.
  destruct a; try discriminate Hw;
    try (apply keeps_mixer_perform; [exact Logic.I | exact H0]).
  cbn in Hw. destruct (nth_error (tasks s) n) as [t|]; [|exact H0].
  apply keeps_mixer_resume; [|exact H0].
  destruct t; try exact Logic.I. discriminate Hw.
Qed.

(** X6.  The deck volumes, the crossfader position and the gains of the
    gain nodes are written by [setVolume], [setCrossfader], [initAudio],
    [cleanup] and the frames of a transition only: every other step
    installs only states with the mixer values it found. *)
Theorem mixer_writers :
  forall a s,
    writes_mixer a s = false ->
    since (same_mixer (mixer_view (store (world s))))
          (published (world s)) (world (step a s)).
Proof.
  intros a s Hw. apply mixer_frame_step; [exact Hw|].
  apply since_start. reflexivity.
Qed.

Lemma mixer_writers_witness :
  since (same_mixer (mixer_view
                       (store (world (run run_A_active initialSystem)))))
        (published (world (run run_A_active initialSystem)))
        (world (step (PlayPause A) (run run_A_active initialSystem))).
Proof.
  apply mixer_writers. reflexivity.
Defined.

(** *** The gain nodes follow the volumes and the crossfader *)

Lemma ends_bind I {X Y} (m : M X) (k : X -> M Y) :
  ends I m -> (forall x, ends I (k x)) -> ends I (bind m k).
Proof.
  intros Hm Hk w Hs. unfold bind. specialize (Hm w Hs).
  destruct (m w) as [x w']. now apply Hk.
Qed.

Lemma gains_consistent_view s s' :
  mixer_view s' = mixer_view s -> gains_consistent s -> gains_consistent s'.
Proof.
  unfold mixer_view, gains_consistent. intros H.
  injection H as -> -> -> -> -> _. auto.
Qed.

Lemma ends_gains_setCrossfader position :
  ends gains_consistent (setCrossfader position).
Proof.
  intros w H. destruct (setCrossfader_store position w) as (-> & _).
  cbv zeta. unfold gains_consistent in *.
  destruct (deckAGain (store w)) eqn:EA, (deckBGain (store w)) eqn:EB;
    cbn; rewrite ?EA, ?EB; auto.
Qed.

Lemma ends_gains_setVolume deck v : ends gains_consistent (setVolume deck v).
Proof.
  intros w H. destruct (setVolume_store deck v w) as (-> & _).
  cbv zeta. unfold gains_consistent in *.
  destruct deck;
    destruct (deckAGain (store w)) eqn:EA, (deckBGain (store w)) eqn:EB;
    cbn; rewrite ?EA, ?EB; try contradiction; try exact Logic.I;
    destruct H as [H1 H2]; split; cbn in *; auto.
Qed.

Lemma ends_gains_initAudio ok : ends gains_consistent (initAudio ok).
Proof.
  intros w H. destruct ok; [|exact H]. unfold initAudio, bind.
  cbn [set fst snd].
  match goal with
  | |- gains_consistent (store (snd (setCrossfader ?p ?w'))) =>
      destruct (setCrossfader_store p w') as (-> & _)
  end.
  cbv zeta. cbn. split; reflexivity.
Qed.

Lemma ends_gains_cleanup : ends gains_consistent cleanup.
Proof.
  intros w _. unfold cleanup, stopPositionTracking, when, bind, get, set,
    call; cbn.
  destruct (positionUpdateInterval (store w)), (audioContext (store w));
    exact Logic.I.
Qed.

Lemma ends_gains_frame c : ends gains_consistent (animateCrossfade c).
Proof.
  unfold animateCrossfade.
  apply ends_bind; [|intros; apply keeps_ends, keeps_ret].
  unfold animateCrossfade_frame.
  apply ends_bind; [apply keeps_ends, keeps_Date_now | intros now].
  apply ends_bind; [apply ends_gains_setCrossfader | intros ts].
  apply keeps_ends. unfold_ops. keeps_by stable_mixer idtac.
Qed.

Lemma step_gains_consistent a s :
  gains_consistent (store (world s)) ->
  gains_consistent (store (world (step a s))).
Proof.
  intros H.
  destruct (writes_mixer a s) eqn:Hw.
  - rewrite world_step. destruct a; try discriminate Hw; cbn [perform].
    + now apply ends_gains_setVolume.
    + now apply ends_gains_setCrossfader.
    + now apply ends_gains_initAudio.
    + unfold unit_op. apply ends_bind; [apply ends_gains_cleanup | | exact H].
      intros _ w' Hw'. exact Hw'.
    + cbn in Hw. destruct (nth_error (tasks s) n) as [[| | | |c]|];
        try discriminate Hw.
      cbn [resume_task]. now apply ends_gains_frame.
  - destruct (mixer_frame_step (mixer_view (store (world s)))
                (published (world s)) a s Hw
                (since_start _ (world s) eq_refl)) as [Hv _].
    eapply gains_consistent_view; [exact Hv | exact H].
Qed.

(** X7.  In every reachable state the two deck gain nodes exist together
    or not at all, and when they exist the gain of each is its deck's
    volume times the deck's share of the crossfader: [volume * (1 -
    position)] for deck A and [volume * position] for deck B. *)
Theorem gain_nodes_follow_mixer :
  forall s,
    reachable s ->
    let st := store (world s) in
    (deckAGain st = None /\ deckBGain st = None)
    \/ (deckAGain st
        = Some (Number.mul (Num (volume (deckA st)))
                  (Number.sub (Num 1) (crossfaderPosition st)))
        /\ deckBGain st
           = Some (Number.mul (Num (volume (deckB st)))
                     (crossfaderPosition st))).
Proof.
  intros s Hs st.
  assert (H : gains_consistent st).
  { subst st. induction Hs using reachable_ind'.
    - exact Logic.I.
    - now apply step_gains_consistent. }
  unfold gains_consistent, mix in H.
  destruct (deckAGain st), (deckBGain st); try contradiction.
  - right. destruct H as [-> ->]. split; reflexivity.
  - left. split; reflexivity.
Qed.

Lemma gain_nodes_follow_mixer_witness :
  let st := store (world (run [InitAudio true; SetVolume A (3 / 10);
                               SetCrossfader (Num (9 / 10))] initialSystem)) in
  (deckAGain st = None /\ deckBGain st = None)
  \/ (deckAGain st
      = Some (Number.mul (Num (volume (deckA st)))
                (Number.sub (Num 1) (crossfaderPosition st)))
      /\ deckBGain st
         = Some (Number.mul (Num (volume (deckB st)))
                   (crossfaderPosition st))).
Proof.
  apply gain_nodes_follow_mixer. apply reachable_run.
Defined.

(** *** The polling timer *)

Lemma wkeeps_ret J {X} (x : X) : wkeeps J (ret x).
Proof. intros w H. exact H. Qed.

Lemma wkeeps_bind J {X Y} (m : M X) (k : X -> M Y) :
  wkeeps J m -> (forall x, wkeeps J (k x)) -> wkeeps J (bind m k).
Proof.
  intros Hm Hk w H. unfold bind. specialize (Hm w H).
  destruct (m w) as [x w']. now apply Hk.
Qed.

Lemma wkeeps_get J : wkeeps J get.
Proof. intros w H. exact H. Qed.

Lemma wkeeps_getSpotify J : wkeeps J getSpotify.
Proof. intros w H. exact H. Qed.

Lemma wkeeps_Date_now J : wkeeps J Date_now.
Proof. intros w H. exact H. Qed.

Lemma wkeeps_when J b m : wkeeps J m -> wkeeps J (when b m).
Proof. intros Hm. destruct b; [exact Hm | apply wkeeps_ret]. Qed.

#[local] Arguments live_intervals : simpl never.

Lemma live_intervals_snoc cs c :
  live_intervals (cs ++ [c]) = timer_step (live_intervals cs) c.
Proof. unfold live_intervals. now rewrite fold_left_app. Qed.

Lemma timers_set f :
  (forall s, positionUpdateInterval (f s) = positionUpdateInterval s) ->
  wkeeps timers_accounted (set f).
Proof. intros Hf w H. unfold timers_accounted in *. cbn. now rewrite Hf. Qed.

Lemma timers_assign f :
  (forall s, positionUpdateInterval (f s) = positionUpdateInterval s) ->
  wkeeps timers_accounted (assign f).
Proof. intros Hf w H. unfold timers_accounted in *. cbn. now rewrite Hf. Qed.

Lemma timers_call c :
  match c with setInterval _ | clearInterval _ => False | _ => True end ->
  wkeeps timers_accounted (call c).
Proof.
  intros Hc w H. unfold timers_accounted in *. cbn.
  rewrite live_intervals_snoc, H. destruct c; try contradiction; reflexivity.
Qed.

Ltac same_handle :=
  repeat match goal with
         | |- context [Nat.eq_dec ?a ?a] =>
             destruct (Nat.eq_dec a a); [|congruence]
         end;
  reflexivity.

Lemma timers_startPositionTracking :
  wkeeps timers_accounted startPositionTracking.
Proof.
  intros w H. unfold timers_accounted, startPositionTracking, bind, get,
    call, new_interval, set in *. cbn.
  destruct (positionUpdateInterval (store w)); cbn;
    rewrite !live_intervals_snoc, ?H; cbn; same_handle.
Qed.

Lemma timers_stopPositionTracking :
  wkeeps timers_accounted stopPositionTracking.
Proof.
  intros w H. unfold timers_accounted, stopPositionTracking, bind, get,
    call, set in *. cbn.
  destruct (positionUpdateInterval (store w)) eqn:E; cbn;
    [|rewrite E; exact H].
  rewrite live_intervals_snoc, H. cbn. same_handle.
Qed.

Lemma timers_cleanup : wkeeps timers_accounted cleanup.
Proof.
  intros w H. unfold timers_accounted, cleanup, stopPositionTracking, when,
    bind, get, call, set in *. cbn.
  destruct (positionUpdateInterval (store w)), (audioContext (store w)); cbn;
    rewrite ?live_intervals_snoc, ?H; cbn; same_handle.
Qed.

Ltac timers_tac :=
  repeat
    (intros;
     match goal with
     | |- wkeeps _ startPositionTracking => apply timers_startPositionTracking
     | |- wkeeps _ stopPositionTracking => apply timers_stopPositionTracking
     | |- wkeeps _ cleanup => apply timers_cleanup
     | |- wkeeps _ (bind _ _) => apply wkeeps_bind
     | |- wkeeps _ (ret _) => apply wkeeps_ret
     | |- wkeeps _ get => apply wkeeps_get
     | |- wkeeps _ getSpotify => apply wkeeps_getSpotify
     | |- wkeeps _ Date_now => apply wkeeps_Date_now
     | |- wkeeps _ (when _ _) => apply wkeeps_when
     | |- wkeeps _ (call _) => apply timers_call; exact Logic.I
     | |- wkeeps _ (set _) =>
         apply timers_set; intros;
         unfold update_deck, activated;
         repeat match goal with
                | |- context [match ?d with A => _ | B => _ end] => destruct d
                end;
         reflexivity
     | |- wkeeps _ (assign _) =>
         apply timers_assign; intros;
         unfold set_gain;
         repeat match goal with
                | |- context [match ?d with A => _ | B => _ end] => destruct d
                end;
         reflexivity
     | |- wkeeps _ (if ?b then _ else _) => destruct b
     | |- wkeeps _ (match ?x with _ => _ end) => destruct x
     end).

Ltac unfold_ops_but_timers :=
  repeat progress
    unfold unit_op, loadSpotifyTrack, prepareDeck, playPause,
      seekSpotifyTrack, scrubTrack, updateSpotifyPosition, setDeckPosition,
      setAutoCrossfadeSettings, startAutoCrossfade, stopAutoCrossfade,
      checkAutoCrossfadeTrigger, activateDeck_begin, activateDeck_resume,
      push_volume, animateCrossfade, animateCrossfade_frame,
      animateCrossfade_finish, after_activateDeck, setVolume, setCrossfader,
      initAudio.

Lemma timers_perform a : wkeeps timers_accounted (perform a).
Proof.
  destruct a; cbn [perform]; unfold_ops_but_timers; timers_tac.
  all: intros w H; exact H.
Qed.

Lemma timers_resume t resp sdkFailed :
  wkeeps timers_accounted (resume_task t resp sdkFailed).
Proof.
  destruct t; cbn [resume_task]; unfold_ops_but_timers; timers_tac.
Qed.

(** X8.  In every reachable state the interval timers that have been set
    and not cleared are exactly the one whose handle the store holds in
    [positionUpdateInterval]: at most one polling timer runs, and none
    runs unknown to the store. *)
Theorem no_timer_leak :
  forall s,
    reachable s ->
    live_intervals (calls (world s))
    = match positionUpdateInterval (store (world s)) with
      | Some h => [h]
      | None => []
      end.
Proof.
  intros s Hs. change (timers_accounted (world s)).
  induction Hs using reachable_ind'.
  - reflexivity.
  - rewrite world_step.
    assert (Hp : timers_accounted (snd (perform a (world s))))
      by (now apply timers_perform).
    destruct a; try exact Hp.
    destruct (nth_error (tasks s) n); [now apply timers_resume | assumption].
Qed.

Lemma no_timer_leak_witness :
  live_intervals (calls (world (run run_A_paused initialSystem)))
  = match positionUpdateInterval
            (store (world (run run_A_paused initialSystem))) with
    | Some h => [h]
    | None => []
    end.
Proof.
  apply no_timer_leak. apply reachable_run.
Defined.

(** *** Who commands the remote player *)

Lemma no_transport_nil : no_transport [].
Proof. intros c []. Qed.

Lemma no_transport_app l l' :
  no_transport l -> no_transport l' -> no_transport (l ++ l').
Proof.
  intros H H' c Hc. apply in_app_or in Hc. destruct Hc; [now apply H | now apply H'].
Qed.

Lemma no_transport_one c : is_transport c = false -> no_transport [c].
Proof. intros H c' [<-|[]]. exact H. Qed.

Create HintDb transport.
#[local] Hint Resolve no_transport_nil no_transport_app : transport.

Ltac transport_tac :=
  repeat
    (intros;
     match goal with
     | |- emits no_transport (bind _ _) =>
         apply emits_bind; auto with transport
     | |- emits no_transport (ret _) => apply emits_ret; auto with transport
     | |- emits no_transport get => apply emits_get; auto with transport
     | |- emits no_transport getSpotify =>
         apply emits_getSpotify; auto with transport
     | |- emits no_transport Date_now =>
         apply emits_Date_now; auto with transport
     | |- emits no_transport (set _) => apply emits_set; auto with transport
     | |- emits no_transport (assign _) =>
         apply emits_assign; auto with transport
     | |- emits no_transport (call _) =>
         apply emits_call; apply no_transport_one; reflexivity
     | |- emits no_transport new_interval =>
         apply emits_new_interval; auto with transport;
         intros; apply no_transport_one; reflexivity
     | |- emits no_transport (when _ _) =>
         apply emits_when; auto with transport
     | |- emits no_transport (if ?b then _ else _) => destruct b eqn:?
     | |- emits no_transport (match ?x with _ => _ end) => destruct x eqn:?
     end).

Lemma no_transport_resume t resp sdkFailed :
  emits no_transport (resume_task t resp sdkFailed).
Proof.
  destruct t; cbn [resume_task]; unfold_ops; unfold setCrossfader;
    unfold_ops; transport_tac.
Qed.

Lemma no_transport_perform a w :
  (forall deck, addresses a deck -> holds_player deck (store w) = false) ->
  exists l, calls (snd (perform a w)) = calls w ++ l /\ no_transport l.
Proof.
  intros Hd.
  destruct a; cbn [perform];
    try solve
      [match goal with
       | |- context [snd (?m w)] =>
           let H := fresh in
           assert (H : emits no_transport m);
           [unfold_ops; unfold setVolume, setCrossfader, initAudio, cleanup;
            unfold_ops; unfold setCrossfader; unfold_ops; transport_tac
           |exact (H w)]
       end].
  - (* playPause *)
    specialize (Hd deck eq_refl). unfold holds_player, has_spotify_track in Hd.
    unfold playPause, activateDeck_begin, bind, get, set, call, getSpotify,
      ret. cbn.
    destruct (track (deckOf deck (store w))) as [trk|] eqn:Et; cbn;
      [|exists []; now rewrite app_nil_r; auto with transport].
    destruct (type trk); cbn in Hd. rewrite Hd; cbn. rewrite Et.
    destruct (isPrepared trk); cbn.
    + eexists [_; _]. split; [now rewrite <- app_assoc|].
      intros c [<-|[<-|[]]]; reflexivity.
    + eexists [_]. split; [reflexivity|]. now apply no_transport_one.
  - (* seekSpotifyTrack *)
    specialize (Hd deck eq_refl). unfold holds_player in Hd.
    unfold unit_op, seekSpotifyTrack, when, bind, get, set, call, ret. cbn.
    destruct (has_spotify_track (deckOf deck (store w))); cbn in *;
      [rewrite Hd|]; exists []; now rewrite app_nil_r; auto with transport.
  - (* scrubTrack *)
    specialize (Hd deck eq_refl). unfold holds_player, has_spotify_track in Hd.
    unfold unit_op, scrubTrack, setDeckPosition, bind, get, set, ret. cbn.
    destruct (track (deckOf deck (store w))) as [trk|]; cbn;
      [|exists []; now rewrite app_nil_r; auto with transport].
    destruct (type trk); cbn in Hd. rewrite Hd; cbn.
    exists []; now rewrite app_nil_r; auto with transport.
  - exists []. cbn. now rewrite app_nil_r; auto with transport.
  - exists []. cbn. now rewrite app_nil_r; auto with transport.
Qed.

(** X9.  Pause, resume and seek are sent to the remote player only by
    [playPause], [seekSpotifyTrack] and [scrubTrack], and only for a deck
    that has a track and holds the player ([isActive]) when the operation
    is called; no continuation of a suspended operation, no frame of a
    transition and no other operation sends one. *)
Theorem transport_only_for_active_deck :
  forall a s c,
    In c (new_calls (world s) (world (step a s))) ->
    is_transport c = true ->
    exists deck,
      addresses a deck
      /\ track (deckOf deck (store (world s))) <> None
      /\ isActive (deckOf deck (store (world s))) = true.
Proof.
  intros a s c Hin Hc.
  assert (Hnot : forall w', (exists l, calls w' = calls (world s) ++ l
                                       /\ no_transport l) ->
                            ~ In c (new_calls (world s) w')).
  { intros w' (l & Hl & Hno) Hin'. rewrite (new_calls_app _ _ _ Hl) in Hin'.
    apply Hno in Hin'. congruence. }
  assert (Hdeck : forall deck, addresses a deck ->
                    holds_player deck (store (world s)) = true ->
                    track (deckOf deck (store (world s))) <> None
                    /\ isActive (deckOf deck (store (world s))) = true).
  { intros deck _ Hh. unfold holds_player, has_spotify_track in Hh.
    apply andb_prop in Hh. destruct Hh as [Ht Ha]. split; [|exact Ha].
    destruct (track (deckOf deck (store (world s)))); congruence. }
  rewrite world_step in Hin.
  destruct a;
    try (exfalso; eapply Hnot; [|exact Hin];
         apply no_transport_perform; intros ? []; fail).
  - destruct (holds_player deck (store (world s))) eqn:Hh.
    + exists deck. split; [exact eq_refl | apply Hdeck; [exact eq_refl | exact Hh]].
    + exfalso. eapply Hnot; [|exact Hin]. apply no_transport_perform.
      now intros ? <-.
  - destruct (holds_player deck (store (world s))) eqn:Hh.
    + exists deck. split; [exact eq_refl | apply Hdeck; [exact eq_refl | exact Hh]].
    + exfalso. eapply Hnot; [|exact Hin]. apply no_transport_perform.
      now intros ? <-.
  - destruct (holds_player deck (store (world s))) eqn:Hh.
    + exists deck. split; [exact eq_refl | apply Hdeck; [exact eq_refl | exact Hh]].
    + exfalso. eapply Hnot; [|exact Hin]. apply no_transport_perform.
      now intros ? <-.
  - exfalso. destruct (nth_error (tasks s) n).
    + eapply Hnot; [|exact Hin]. apply no_transport_resume.
    + eapply Hnot; [|exact Hin]. exists []. now rewrite app_nil_r; auto with transport.
Qed.

Lemma transport_only_for_active_deck_witness :
  exists deck,
    addresses (PlayPause A) deck
    /\ track (deckOf deck (store (world (run run_A_active initialSystem))))
       <> None
    /\ isActive (deckOf deck (store (world (run run_A_active initialSystem))))
       = true.
Proof.
  apply (transport_only_for_active_deck
           (PlayPause A) (run run_A_active initialSystem) pausePlayback).
  - vm_compute. left. reflexivity.
  - reflexivity.
Defined.

(** *** Scrubbing *)

Lemma clamp_to_duration (dur x : R) :
  0 <= dur -> 0 <= Math_max 0 (Math_min dur x) <= dur.
Proof.
  intros H. unfold Math_max, Math_min, Rmax, Rmin.
  destruct (Rle_dec dur x); destruct (Rle_dec 0 _); lra.
Qed.

(** What [scrubTrack] does to a deck with a track. *)
Lemma scrubTrack_result deck direction intensity w t :
  track (deckOf deck (store w)) = Some t ->
  let d := deckOf deck (store w) in
  let newTime :=
    Math_max 0 (Math_min (duration t)
      (currentTime d
       + intensity * 2
         * match direction with forward => 1 | backward => -1 end)) in
  let positionMs := Math_round (newTime * 1000) in
  let w' := snd (scrubTrack deck direction intensity w) in
  deckOf deck (store w') = with_currentTime (positionMs / 1000) d
  /\ deckOf (other deck) (store w') = deckOf (other deck) (store w)
  /\ new_calls w w'
     = if isActive d then [seekToPosition positionMs] else [].
Proof.
  intros Ht d newTime positionMs w'.
  assert (Hw : w' = snd ((if isActive d
                          then seekSpotifyTrack deck positionMs
                          else setDeckPosition deck positionMs) w)).
  { subst w' positionMs newTime d. unfold scrubTrack, bind, get; cbn.
    now rewrite Ht. }
  assert (Hs : has_spotify_track d = true).
  { subst d. unfold has_spotify_track. rewrite Ht. now destruct (type t). }
  rewrite Hw. clear Hw w'.
  destruct (isActive d) eqn:Ha.
  - unfold seekSpotifyTrack, bind, get. cbn beta iota. fold d.
    rewrite Hs, Ha. unfold when, set, call. cbn.
    split; [subst d; now destruct deck|].
    split; [now destruct deck|].
    apply skipn_all_app.
  - unfold setDeckPosition, set. cbn.
    split; [subst d; now destruct deck|].
    split; [now destruct deck|].
    unfold new_calls. rewrite <- (app_nil_r (calls w)) at 2.
    apply skipn_all_app.
Qed.

(** X10.  [scrubTrack] on a deck with a track moves the deck to a whole
    number of milliseconds between 0 and the rounded duration of the
    track, whatever the intensity and the direction; it changes nothing
    else of the deck and nothing of the other deck; and it seeks the remote
    player, to that same position, exactly when the deck is active. *)
Theorem scrubTrack_within_track :
  forall deck direction intensity w t,
    track (deckOf deck (store w)) = Some t ->
    0 <= duration t ->
    let d := deckOf deck (store w) in
    let w' := snd (scrubTrack deck direction intensity w) in
    exists positionMs : Z,
      (0 <= IZR positionMs <= Math_round (duration t * 1000))
      /\ deckOf deck (store w') = with_currentTime (IZR positionMs / 1000) d
      /\ deckOf (other deck) (store w') = deckOf (other deck) (store w)
      /\ new_calls w w'
         = if isActive d then [seekToPosition (IZR positionMs)] else [].
Proof.
  intros deck direction intensity w t Ht Hdur d w'.
  set (newTime :=
         Math_max 0 (Math_min (duration t)
           (currentTime d
            + intensity * 2
              * match direction with forward => 1 | backward => -1 end))).
  exists (Zfloor (newTime * 1000 + / 2)).
  change (IZR (Zfloor (newTime * 1000 + / 2)))
    with (Math_round (newTime * 1000)).
  assert (Hn : 0 <= newTime <= duration t) by (now apply clamp_to_duration).
  split.
  { split.
    - rewrite <- (Math_round_IZR 0). apply Math_round_monotone. lra.
    - apply Math_round_monotone. lra. }
  exact (scrubTrack_result deck direction intensity w t Ht).
Qed.

Lemma scrubTrack_within_track_witness :
  exists positionMs : Z,
    (0 <= IZR positionMs <= Math_round (duration demo_loaded * 1000))
    /\ deckOf A (store (snd (scrubTrack A forward 1
                               (world (run run_A_active initialSystem)))))
       = with_currentTime (IZR positionMs / 1000)
           (deckOf A (store (world (run run_A_active initialSystem))))
    /\ deckOf B (store (snd (scrubTrack A forward 1
                               (world (run run_A_active initialSystem)))))
       = deckOf B (store (world (run run_A_active initialSystem)))
    /\ new_calls (world (run run_A_active initialSystem))
         (snd (scrubTrack A forward 1 (world (run run_A_active initialSystem))))
       = [seekToPosition (IZR positionMs)].
Proof.
  apply (scrubTrack_within_track A forward 1
           (world (run run_A_active initialSystem)) demo_loaded).
  - reflexivity.
  - cbn. lra.
Defined.

(** *** Position updates from the remote player *)

Ltac stable_deck :=
  let s0 := fresh "s" in
  let H := fresh "H" in
  intros s0 H; unfold same_deck, update_deck in *;
  repeat match goal with
         | |- context [match ?d with A => _ | B => _ end] => destruct d
         end;
  cbn; exact H.

Lemma keeps_deck_checkAutoCrossfadeTrigger d D :
  keeps (same_deck d D) checkAutoCrossfadeTrigger.
Proof. unfold_ops. keeps_by stable_deck idtac. Qed.

Lemma since_set I f w :
  I (store w) -> I (f (store w)) -> since I (published w) (snd (set f w)).
Proof.
  intros H Hf. split; [exact Hf|]. exists [f (store w)]. split; [reflexivity|].
  now constructor.
Qed.

(** X11.  A position update from the remote player never alters a deck
    that is not active: such a deck is the same in every state the update
    installs, whether the update names a deck or detects one.  An update
    that names an inactive deck, or that arrives when no deck is active,
    changes nothing at all and makes no call. *)
Theorem updateSpotifyPosition_spares_inactive :
  forall positionMs durationMs deck w d,
    isActive (deckOf d (store w)) = false ->
    let w' := snd (updateSpotifyPosition positionMs durationMs deck w) in
    since (same_deck d (deckOf d (store w))) (published w) w'
    /\ (deck = Some d -> w' = w)
    /\ (isActive (deckOf (other d) (store w)) = false -> w' = w).
Proof.
  intros positionMs durationMs deck w d Hd w'. subst w'.
  unfold updateSpotifyPosition.
  set (upd := fun x : Deck =>
         update_deck x (fun d0 =>
           {| track := option_map (with_duration (durationMs / 1000)) (track d0);
              isPlaying := isPlaying d0;
              currentTime := positionMs / 1000;
              volume := volume d0;
              isActive := isActive d0;
              isLoading := isLoading d0;
              lastActivated := lastActivated d0;
              lastPlayedPosition := lastPlayedPosition d0 |})).
  assert (Hgo : forall x,
             let r := snd ((if negb (isActive (deckOf x (store w)))
                            then ret []
                            else set (upd x) ;; checkAutoCrossfadeTrigger) w) in
             since (same_deck d (deckOf d (store w))) (published w) r
             /\ (x = d -> r = w)
             /\ (isActive (deckOf (other d) (store w)) = false -> r = w)).
  { intros x r. subst r.
    destruct (isActive (deckOf x (store w))) eqn:Hx; cbn [negb].
    - assert (Hxd : x = other d)
        by (destruct x, d; cbn in *; congruence).
      split; [|split].
      + apply since_bind; [|intros; apply keeps_deck_checkAutoCrossfadeTrigger].
        apply since_set; [reflexivity|].
        subst x upd. unfold same_deck. now destruct d.
      + intros ->. congruence.
      + intros Ho. subst x. congruence.
    - split; [now apply since_start | now split]. }
  unfold bind, get in *. cbn beta iota in *.
  destruct deck as [x|].
  - destruct (Hgo x) as (H1 & H2 & H3).
    split; [exact H1|]. split; [|exact H3]. intros [= ->]. now apply H2.
  - destruct (has_spotify_track (deckA (store w)) && isActive (deckA (store w))
              && isPlaying (deckA (store w))) eqn:EA.
    + destruct (Hgo A) as (H1 & H2 & H3).
      split; [exact H1|]. split; [discriminate | exact H3].
    + destruct (has_spotify_track (deckB (store w))
                && isActive (deckB (store w))
                && isPlaying (deckB (store w))) eqn:EB.
      * destruct (Hgo B) as (H1 & H2 & H3).
        split; [exact H1|]. split; [discriminate | exact H3].
      * split; [now apply since_start | now split].
Qed.

Lemma updateSpotifyPosition_spares_inactive_witness :
  since (same_deck B (deckOf B (store (world (run (run_A_at 42300)
                                                  initialSystem)))))
        (published (world (run (run_A_at 42300) initialSystem)))
        (snd (updateSpotifyPosition 43000 180000 None
                (world (run (run_A_at 42300) initialSystem)))).
Proof.
  apply (updateSpotifyPosition_spares_inactive 43000 180000 None
           (world (run (run_A_at 42300) initialSystem)) B).
  reflexivity.
Defined.

(** *** The cue point *)

Lemma prepareDeck_track deck startTimeMs w t :
  track (deckOf deck (store w)) = Some t ->
  let w' := snd (prepareDeck deck startTimeMs w) in
  track (deckOf deck (store w')) = Some (prepared t startTimeMs (clock w))
  /\ calls w' = calls w.
Proof.
  intros Ht. unfold prepareDeck, bind, get, Date_now, set; cbn.
  rewrite Ht; cbn. now destruct deck.
Qed.

Lemma loadSpotifyTrack_track deck spotifyTrack startTimeMs w :
  let w' := snd (loadSpotifyTrack deck spotifyTrack startTimeMs w) in
  exists t,
    track (deckOf deck (store w')) = Some t
    /\ spotifyUri t = st_uri spotifyTrack
    /\ preparedStartTime t = startTimeMs
    /\ isPrepared t = true
    /\ calls w' = calls w.
Proof.
  unfold loadSpotifyTrack, bind, Date_now, set; cbn.
  destruct deck; cbn; eexists; (split; [reflexivity|]); now cbn.
Qed.

(** X12.  The position given to [prepareDeck] or to [loadSpotifyTrack] is
    the position at which the deck starts: neither operation calls the
    remote player, and an [activateDeck(deck, false)] that follows asks it
    to play the deck's track from exactly that position, whatever the deck
    was doing before. *)
Theorem cue_point_round_trip :
  forall deck startTimeMs w,
    (forall t,
        track (deckOf deck (store w)) = Some t ->
        calls (snd (activateDeck_begin deck false
                      (snd (prepareDeck deck startTimeMs w))))
        = calls w ++ [activateDeck_entry deck false;
                      playTrack (spotifyUri t) startTimeMs])
    /\ (forall spotifyTrack,
           calls (snd (activateDeck_begin deck false
                         (snd (loadSpotifyTrack deck spotifyTrack
                                                startTimeMs w))))
           = calls w ++ [activateDeck_entry deck false;
                         playTrack (st_uri spotifyTrack) startTimeMs]).
Proof.
  intros deck startTimeMs w. split.
  - intros t Ht.
    destruct (prepareDeck_track deck startTimeMs w t Ht) as [Ht' Hc].
    rewrite (activateDeck_begin_cue _ _ _ Ht' eq_refl), Hc. reflexivity.
  - intros spotifyTrack.
    destruct (loadSpotifyTrack_track deck spotifyTrack startTimeMs w)
      as (t & Ht & Hu & Hs & Hp & Hc).
    rewrite (activateDeck_begin_cue _ _ _ Ht Hp), Hc, Hu, Hs. reflexivity.
Qed.

Lemma cue_point_round_trip_witness :
  calls (snd (activateDeck_begin A false
                (snd (prepareDeck A 30000
                        (world (run run_A_paused initialSystem))))))
  = calls (world (run run_A_paused initialSystem))
    ++ [activateDeck_entry A false; playTrack (spotifyUri demo_loaded) 30000].
Proof.
  apply (proj1 (cue_point_round_trip A 30000
                  (world (run run_A_paused initialSystem)))).
  reflexivity.
Defined.

(** *** Pause and resume *)

Lemma nth_error_last {X} (l : list X) (x : X) :
  nth_error (l ++ [x]) (List.length l) = Some x.
Proof. rewrite nth_error_app2, Nat.sub_diag by lia. reflexivity. Qed.

Lemma remove_nth_last {X} (l : list X) (x : X) :
  remove_nth (List.length l) (l ++ [x]) = l.
Proof.
  unfold remove_nth.
  rewrite firstn_app, Nat.sub_diag, firstn_all, skipn_all2
    by (rewrite length_app; cbn; lia).
  cbn. now rewrite !app_nil_r.
Qed.

Lemma holds_player_track deck s :
  holds_player deck s = true ->
  (exists t, track (deckOf deck s) = Some t) /\ isActive (deckOf deck s) = true.
Proof.
  unfold holds_player, has_spotify_track. intros H.
  apply andb_prop in H. destruct H as [Ht Ha]. split; [|exact Ha].
  destruct (track (deckOf deck s)) as [t|]; [now exists t | discriminate].
Qed.

Lemma step_playPause_active deck s :
  holds_player deck (store (world s)) = true ->
  step (PlayPause deck) s
  = {| world := snd (call (if isPlaying (deckOf deck (store (world s)))
                           then pausePlayback else resumePlayback) (world s));
       tasks := tasks s
                ++ [if isPlaying (deckOf deck (store (world s)))
                    then AwaitPause deck else AwaitResume deck] |}.
Proof.
  intros H. apply holds_player_track in H. destruct H as [[t Ht] Ha].
  unfold step, perform, playPause, bind, get. cbn.
  rewrite Ht, Ha. cbn.
  now destruct (isPlaying (deckOf deck (store (world s)))).
Qed.

Lemma step_resume_last t resp sdkFailed w ts :
  step (Resume (List.length ts) resp sdkFailed)
       {| world := w; tasks := ts ++ [t] |}
  = {| world := snd (resume_task t resp sdkFailed w);
       tasks := ts ++ fst (resume_task t resp sdkFailed w) |}.
Proof.
  unfold step. cbn [tasks world]. rewrite nth_error_last, remove_nth_last.
  now destruct (resume_task t resp sdkFailed w).
Qed.

Lemma resume_pause_tasks deck resp sdkFailed w :
  fst (resume_task (AwaitPause deck) resp sdkFailed w) = []
  /\ fst (resume_task (AwaitResume deck) resp sdkFailed w) = [].
Proof.
  cbn [resume_task]. unfold bind, ret. split.
  - now destruct (stopPositionTracking w).
  - now destruct (startPositionTracking w).
Qed.

(** X13.  Pausing the active, playing deck and resuming it, each followed
    by the continuation of [playPause], brings the store back to where it
    was, except for the handle of the polling timer: the pause stops the
    timer and clears [isPlaying], the resume starts a fresh timer and sets
    [isPlaying] again.  The remote player receives one pause and one
    resume, and no task is left behind. *)
Theorem playPause_round_trip :
  forall s deck r1 f1 r2 f2,
    holds_player deck (store (world s)) = true ->
    isPlaying (deckOf deck (store (world s))) = true ->
    let n := List.length (tasks s) in
    let s1 := run [PlayPause deck; Resume n r1 f1] s in
    let s2 := run [PlayPause deck; Resume n r2 f2] s1 in
    store (world s1)
    = update_deck deck (with_isPlaying false)
        (with_positionUpdateInterval None (store (world s)))
    /\ store (world s2)
       = with_positionUpdateInterval (Some (S (nextHandle (world s))))
           (store (world s))
    /\ tasks s1 = tasks s
    /\ tasks s2 = tasks s
    /\ new_calls (world s) (world s2)
       = pausePlayback
           :: match positionUpdateInterval (store (world s)) with
              | Some h => [clearInterval h]
              | None => []
              end
           ++ [resumePlayback; setInterval (S (nextHandle (world s)))].
Proof.
  intros [w ts] deck r1 f1 r2 f2 Hh Hp n s1 s2. cbn [world tasks] in *.
  assert (E1 : s1 = {| world := snd (resume_task (AwaitPause deck) r1 f1
                                       (snd (call pausePlayback w)));
                       tasks := ts |}).
  { subst s1 n. cbn [run fold_left].
    rewrite (step_playPause_active deck {| world := w; tasks := ts |} Hh).
    cbn [world tasks].
    rewrite Hp, step_resume_last.
    rewrite (proj1 (resume_pause_tasks _ _ _ _)). now rewrite app_nil_r. }
  clearbody s1.
  assert (Hs1 : store (world s1)
                = update_deck deck (with_isPlaying false)
                    (with_positionUpdateInterval None (store w))).
  { rewrite E1. cbn [world resume_task].
    unfold stopPositionTracking, bind, get, call, set, ret. cbn.
    destruct (positionUpdateInterval (store w)) eqn:Ei; cbn; [reflexivity|].
    f_equal. destruct (store w); cbn in *. now subst. }
  assert (Hh1 : holds_player deck (store (world s1)) = true).
  { rewrite Hs1. unfold holds_player in *. now destruct deck. }
  assert (Hp1 : isPlaying (deckOf deck (store (world s1))) = false).
  { rewrite Hs1. now destruct deck. }
  assert (Ht1 : tasks s1 = ts) by (now rewrite E1).
  assert (E2 : s2 = {| world := snd (resume_task (AwaitResume deck) r2 f2
                                       (snd (call resumePlayback (world s1))));
                       tasks := ts |}).
  { subst s2 n. cbn [run fold_left].
    rewrite (step_playPause_active deck _ Hh1). rewrite Hp1, Ht1.
    rewrite step_resume_last.
    rewrite (proj2 (resume_pause_tasks _ _ _ _)). now rewrite app_nil_r. }
  clearbody s2.
  split; [exact Hs1|]. split; [|split; [exact Ht1|split; [now rewrite E2|]]].
  - rewrite E2. cbn [world resume_task].
    unfold startPositionTracking, bind, get, call, set, new_interval, ret.
    cbn. rewrite Hs1. cbn.
    assert (Hn : nextHandle (world s1) = nextHandle w).
    { rewrite E1. cbn [world resume_task].
      unfold stopPositionTracking, bind, get, call, set, ret. cbn.
      now destruct (positionUpdateInterval (store w)). }
    rewrite Hn.
    destruct deck; cbn in *; destruct (store w); cbn in *;
      [destruct deckA0 | destruct deckB0]; cbn in *; now subst.
  - rewrite E2, E1. cbn [world resume_task].
    unfold startPositionTracking, stopPositionTracking, bind, get, call, set,
      new_interval, ret, new_calls. cbn.
    destruct deck, (positionUpdateInterval (store w)) eqn:Ei; cbn;
      rewrite ?Ei; cbn; repeat rewrite <- app_assoc; cbn;
      apply skipn_all_app.
Qed.

Lemma playPause_round_trip_witness :
  store (world (run [PlayPause A; Resume 0 (Status true) false]
                  (run [PlayPause A; Resume 0 (Status true) false]
                     (run run_A_active initialSystem))))
  = with_positionUpdateInterval
      (Some (S (nextHandle (world (run run_A_active initialSystem)))))
      (store (world (run run_A_active initialSystem))).
Proof.
  apply (playPause_round_trip (run run_A_active initialSystem) A
           (Status true) false (Status true) false).
  - reflexivity.
  - reflexivity.
Defined.

(** *** A successful activation *)

(** X14.  When the deck has a prepared track and [playTrack] resolves,
    [activateDeck], run without anything in between, returns [true] and
    leaves the deck active, playing, not loading, at the start position
    and stamped with the current time; the other deck inactive and not
    playing, with its position saved in [lastPlayedPosition] when it was
    the active one; and a fresh polling timer running.  The remote player
    is asked once to play the deck's track at the start position, and beat
    sync is started exactly when a transition is in flight. *)
Theorem activateDeck_success :
  forall deck preservePosition resp w t,
    track (deckOf deck (store w)) = Some t ->
    isPrepared t = true ->
    playTrack_result (player_ready (spotifyStore w)) resp = Resolved ->
    let d := deckOf deck (store w) in
    let o := deckOf (other deck) (store w) in
    let startPositionMs := startPosition d t preservePosition in
    let r := activateDeck deck preservePosition resp w in
    fst r = true
    /\ deckOf deck (store (snd r))
       = {| track := Some t; isPlaying := true;
            currentTime := startPositionMs / 1000; volume := volume d;
            isActive := true; isLoading := false;
            lastActivated := clock w;
            lastPlayedPosition := lastPlayedPosition d |}
    /\ deckOf (other deck) (store (snd r))
       = {| track := track o; isPlaying := false;
            currentTime := currentTime o; volume := volume o;
            isActive := false; isLoading := isLoading o;
            lastActivated := lastActivated o;
            lastPlayedPosition :=
              if isActive o then currentTime o else lastPlayedPosition o |}
    /\ positionUpdateInterval (store (snd r)) = Some (S (nextHandle w))
    /\ new_calls w (snd r)
       = [activateDeck_entry deck preservePosition;
          playTrack (spotifyUri t) startPositionMs]
         ++ (if isCrossfading (store w)
             then [startBeatSync deck (title t) (artist t)] else [])
         ++ match positionUpdateInterval (store w) with
            | Some h => [clearInterval h]
            | None => []
            end
         ++ [setInterval (S (nextHandle w))].
Proof.
  intros deck preservePosition resp w t Ht Hp Hres d o startPositionMs r.
  subst r startPositionMs d o.
  unfold activateDeck, activateDeck_begin, activateDeck_resume,
    startPositionTracking, when, bind, get, set, call, getSpotify, Date_now,
    new_interval, ret, new_calls.
  cbn. rewrite Ht, Hp. cbn. rewrite Hres. cbn.
  destruct deck; cbn in *; rewrite ?Ht;
    destruct (isCrossfading (store w)) eqn:Ec,
             (positionUpdateInterval (store w)) eqn:Ei;
    cbn; rewrite ?Ec, ?Ei; cbn;
    repeat split; repeat rewrite <- app_assoc; cbn;
    try apply skipn_all_app; try reflexivity;
    unfold activate_target, with_isLoading; cbn; now rewrite Ht.
Qed.

Lemma activateDeck_success_witness :
  fst (activateDeck B false (Status true)
         (world (run (run_A_at 42300) initialSystem))) = true.
Proof.
  apply (activateDeck_success B false (Status true)
           (world (run (run_A_at 42300) initialSystem))
           (mkTrack "two" "two" "two" (200000 / 1000) None "two" "two" None
                    spotify 0 true 0)).
  - reflexivity.
  - reflexivity.
  - reflexivity.
Defined.

(** *** The sweep of the crossfader during a transition *)

Ltac stable_position :=
  let s0 := fresh "s" in
  let H := fresh "H" in
  intros s0 H; unfold crossfader_at, update_deck in *;
  repeat match goal with
         | |- context [match ?d with A => _ | B => _ end] => destruct d
         end;
  cbn; exact H.

Lemma setCrossfader_position position w :
  crossfaderPosition (store (snd (setCrossfader position w)))
  = Number.Math_max (Num 0) (Number.Math_min (Num 1) position).
Proof.
  destruct (setCrossfader_store position w) as (Hs & _). rewrite Hs.
  reflexivity.
Qed.

(** The position a frame leaves the crossfader at: the position it asks
    for, cut to the range by [setCrossfader]. *)
Lemma frame_stores c w :
  crossfaderPosition (store (snd (animateCrossfade_frame c w)))
  = Number.Math_max (Num 0)
      (Number.Math_min (Num 1) (newPosition_at c (clock w))).
Proof.
  set (x := Number.Math_max (Num 0)
              (Number.Math_min (Num 1) (newPosition_at c (clock w)))).
  assert (Hb : forall deck preservePosition,
             ends (crossfader_at x)
                  (activateDeck_begin deck preservePosition)).
  { intros. apply keeps_ends. unfold_ops. keeps_by stable_position idtac. }
  assert (Hf : forall c' pr,
             ends (crossfader_at x) (animateCrossfade_finish c' pr)).
  { intros. apply keeps_ends. unfold_ops. keeps_by stable_position idtac. }
  rewrite animateCrossfade_frame_eq. cbv zeta.
  change (setCrossfader _ w)
    with (setCrossfader (newPosition_at c (clock w)) w).
  pose proof (setCrossfader_position (newPosition_at c (clock w)) w) as H1.
  fold x in H1.
  destruct (setCrossfader (newPosition_at c (clock w)) w) as [ts w1].
  cbn [snd] in H1.
  destruct (handoff_due c (clock w - startTime c)).
  - specialize (Hb (toDeck c) false w1 H1).
    destruct (activateDeck_begin (toDeck c) false w1) as [[p|] w2];
      [exact Hb|].
    match goal with
    | |- context [animateCrossfade_finish ?c' ?pr w2] =>
        specialize (Hf c' pr w2 Hb);
        destruct (animateCrossfade_finish c' pr w2) as [n w3]
    end.
    exact Hf.
  - match goal with
    | |- context [animateCrossfade_finish ?c' ?pr w1] =>
        specialize (Hf c' pr w1 H1);
        destruct (animateCrossfade_finish c' pr w1) as [n w3]
    end.
    exact Hf.
Qed.

(** When the duration of the transition is not 0, that position is the
    one of exact arithmetic. *)
Lemma frame_position c w :
  totalDuration c <> 0 ->
  let progress := Math_min ((clock w - startTime c) / totalDuration c) 1 in
  let fadeValue :=
    getCrossfadeValue progress (AutoCrossfade.curve (settings c)) in
  crossfaderPosition (store (snd (animateCrossfade_frame c w)))
  = Num (match fromDeck c with A => fadeValue | B => 1 - fadeValue end).
Proof.
  intros HT progress fadeValue.
  rewrite frame_stores, (newPosition_at_real c (clock w) HT). cbv zeta.
  fold progress. fold fadeValue. cbn. f_equal. apply clamp_fixed.
  pose proof (getCrossfadeValue_bounds progress
                (AutoCrossfade.curve (settings c))) as H.
  fold fadeValue in H. destruct (fromDeck c); lra.
Qed.

(** X15.  During a transition of positive duration the frames sweep the
    crossfader from the deck that is left to the deck that is entered: the
    position a frame leaves is a real number between 0 and 1; it is the
    starting end (0 leaving deck A, 1 leaving deck B) until the start time
    and the other end once the whole duration has elapsed; and a frame
    that runs later never leaves the crossfader nearer the start than an
    earlier frame did, whatever happened to the store in between. *)
Theorem crossfade_sweep :
  forall c w,
    0 < totalDuration c ->
    let position w :=
      crossfaderPosition (store (snd (animateCrossfade_frame c w))) in
    exists x,
      position w = Num x
      /\ 0 <= x <= 1
      /\ (clock w <= startTime c ->
          x = match fromDeck c with A => 0 | B => 1 end)
      /\ (startTime c + totalDuration c <= clock w ->
          x = match fromDeck c with A => 1 | B => 0 end)
      /\ (forall w', clock w <= clock w' ->
                     exists x',
                       position w' = Num x'
                       /\ not_beyond (fromDeck c) x x').
Proof.
  intros c w HT position. subst position. cbv beta.
  assert (HT0 : totalDuration c <> 0) by lra.
  assert (Hdiv : forall e e', e <= e' ->
             e / totalDuration c <= e' / totalDuration c).
  { intros e e' He. unfold Rdiv. apply Rmult_le_compat_r; [|exact He].
    left. now apply Rinv_0_lt_compat. }
  assert (Hmin : forall x y, x <= y -> Math_min x 1 <= Math_min y 1).
  { intros x y Hxy. unfold Math_min, Rmin.
    destruct (Rle_dec x 1), (Rle_dec y 1); lra. }
  eexists. split; [apply (frame_position c w HT0)|]. cbv zeta.
  split; [|split; [|split]].
  - pose proof (getCrossfadeValue_bounds
                  (Math_min ((clock w - startTime c) / totalDuration c) 1)
                  (AutoCrossfade.curve (settings c))).
    destruct (fromDeck c); lra.
  - intros Hc.
    rewrite (proj1 (getCrossfadeValue_ends _)).
    + destruct (fromDeck c); lra.
    + apply Rle_trans with (Math_min (0 / totalDuration c) 1).
      * apply Hmin, Hdiv. lra.
      * unfold Math_min, Rmin, Rdiv. rewrite Rmult_0_l.
        destruct (Rle_dec 0 1); lra.
  - intros Hc.
    rewrite (proj2 (getCrossfadeValue_ends _)).
    + destruct (fromDeck c); lra.
    + apply Rle_trans
        with (Math_min (totalDuration c / totalDuration c) 1).
      * unfold Rdiv. rewrite Rinv_r by lra. unfold Math_min, Rmin.
        destruct (Rle_dec 1 1); lra.
      * apply Hmin, Hdiv. lra.
  - intros w' Hc. eexists. split; [apply (frame_position c w' HT0)|].
    cbv zeta.
    assert (H : getCrossfadeValue
                  (Math_min ((clock w - startTime c) / totalDuration c) 1)
                  (AutoCrossfade.curve (settings c))
                <= getCrossfadeValue
                     (Math_min ((clock w' - startTime c) / totalDuration c) 1)
                     (AutoCrossfade.curve (settings c))).
    { apply getCrossfadeValue_increasing, Hmin, Hdiv. lra. }
    unfold not_beyond. destruct (fromDeck c); lra.
Qed.

Lemma crossfade_sweep_witness :
  crossfaderPosition
    (store (snd (animateCrossfade_frame demo_animation
                   (world (run (run_in_flight ++ [Tick 8000])
                               initialSystem)))))
  = Num 1.
Proof.
  destruct (crossfade_sweep demo_animation
              (world (run (run_in_flight ++ [Tick 8000]) initialSystem)))
    as (x & Hx & _ & _ & Hend & _).
  - cbn. lra.
  - rewrite Hx. f_equal. apply Hend. cbn. lra.
Defined.

(** *** The end of a transition *)

Lemma animateCrossfade_finish_spec c progress w :
  animateCrossfade_finish c progress w
  = if Number.ltb progress (Num 1) then (Again c, w)
    else (Finished, snd (stopAutoCrossfade w)).
Proof.
  unfold animateCrossfade_finish, bind, ret.
  destruct (Number.ltb progress (Num 1)); [reflexivity|].
  now destruct (stopAutoCrossfade w).
Qed.

Lemma stopAutoCrossfade_store w :
  store (snd (stopAutoCrossfade w)) = with_transition false 0 None (store w).
Proof. reflexivity. Qed.

Lemma progress_below_one (elapsed total : R) :
  0 < total ->
  (Number.ltb (Number.Math_min (Number.div elapsed total) (Num 1)) (Num 1)
   = true
   <-> elapsed < total).
Proof.
  intros HT.
  assert (Hdiv : elapsed / total < 1 <-> elapsed < total).
  { split; intros H.
    - apply Rmult_lt_reg_r with (/ total); [now apply Rinv_0_lt_compat|].
      rewrite Rinv_r by lra. exact H.
    - apply Rmult_lt_compat_r with (r := / total) in H;
        [|now apply Rinv_0_lt_compat].
      rewrite Rinv_r in H by lra. exact H. }
  rewrite Number_div_real by lra. cbn. rewrite ltb_true.
  unfold Math_min, Rmin.
  destruct (Rle_dec (elapsed / total) 1); lra.
Qed.

Ltac last_frame Hlt :=
  rewrite animateCrossfade_finish_spec;
  match type of Hlt with
  | ?b = true <-> _ => destruct b
  end;
  cbn [fst snd];
  [ assert (_ < _) by (now apply Hlt);
    split; [split; [discriminate | lra] | discriminate]
  | split; [|intros _; now rewrite stopAutoCrossfade_store];
    split; [intros _ | reflexivity];
    match goal with
    | |- ?T <= ?e =>
        let H := fresh in
        let Hc := fresh in
        destruct (Rle_dec T e) as [H|H]; [exact H|];
        assert (Hc : e < T) by lra; apply Hlt in Hc; discriminate
    end ].

(** X16.  A frame of a transition of positive duration is the last one
    exactly when the whole duration has elapsed at the time the frame
    reads the clock: before that it requests one more frame, from then on
    it requests none and leaves the store with no transition in flight,
    whether or not the frame had to wait for [activateDeck] and whatever
    ran before and during the frame. *)
Theorem transition_ends_on_time :
  forall c f w0,
    0 < totalDuration c ->
    let elapsed := clock (before f w0) - startTime c in
    let next := snd (fst (run_frame c f w0)) in
    let w' := snd (run_frame c f w0) in
    (next = None <-> totalDuration c <= elapsed)
    /\ (next = None ->
        isCrossfading (store w') = false
        /\ crossfadeStartTime (store w') = 0
        /\ crossfadeDirection (store w') = None).
Proof.
  intros c f w0 HT elapsed next w'. subst next w'.
  pose proof (progress_below_one elapsed (totalDuration c) HT) as Hlt.
  unfold run_frame. rewrite animateCrossfade_frame_eq. cbv zeta.
  fold elapsed.
  destruct (setCrossfader _ (before f w0)) as [ts w1].
  destruct (handoff_due c elapsed);
    [destruct (activateDeck_begin (toDeck c) false w1) as [[p|] w2]|];
    cbn [fst snd].
  - destruct (activateDeck_resume p (response f) (during f w2)) as [b w3].
    last_frame Hlt.
  - last_frame Hlt.
  - last_frame Hlt.
Qed.

Lemma transition_ends_on_time_witness :
  snd (fst (run_frame demo_animation (at_time 8000)
              (world (run run_in_flight initialSystem)))) = None.
Proof.
  assert (HT : 0 < totalDuration demo_animation) by (cbn; lra).
  apply (proj2 (proj1 (transition_ends_on_time demo_animation (at_time 8000)
                         (world (run run_in_flight initialSystem)) HT))).
  cbn. lra.
Defined.

(** *** A transition of duration 0 *)

Lemma animateCrossfade_eq c w :
  animateCrossfade c w
  = (fst (fst (animateCrossfade_frame c w))
     ++ next_tasks (snd (fst (animateCrossfade_frame c w))),
     snd (animateCrossfade_frame c w)).
Proof.
  unfold animateCrossfade, bind, ret.
  now destruct (animateCrossfade_frame c w) as [[ts n] w1].
Qed.






(** *** Teardown *)

(** X17.  [cleanup] empties both decks, drops the audio context, the gain
    nodes and the polling timer, and keeps the crossfader position, the
    auto-crossfade settings and the state of the transition as they were.
    The only calls it makes close the audio context and clear the timer,
    so the remote player is never told to stop.  A second [cleanup]
    changes nothing in the store and makes no call. *)
Theorem cleanup_resets :
  forall w,
    let w' := snd (cleanup w) in
    store w'
    = mkAudio false None None None emptyDeck emptyDeck
              (crossfaderPosition (store w)) (autoCrossfade (store w))
              (isCrossfading (store w)) (crossfadeStartTime (store w))
              (crossfadeDirection (store w)) None
    /\ new_calls w w'
       = match positionUpdateInterval (store w) with
         | Some h => [clearInterval h]
         | None => []
         end
         ++ (if audioContext (store w) then [audioContext_close] else [])
    /\ store (snd (cleanup w')) = store w'
    /\ new_calls w' (snd (cleanup w')) = [].
Proof.
  intros w w'.
  assert (H1 : forall v,
             store (snd (cleanup v))
             = mkAudio false None None None emptyDeck emptyDeck
                 (crossfaderPosition (store v)) (autoCrossfade (store v))
                 (isCrossfading (store v)) (crossfadeStartTime (store v))
                 (crossfadeDirection (store v)) None).
  { intros v. unfold cleanup, stopPositionTracking, when, bind, get, set,
      call, ret. cbn.
    destruct (positionUpdateInterval (store v)), (audioContext (store v));
      reflexivity. }
  assert (H2 : forall v,
             new_calls v (snd (cleanup v))
             = match positionUpdateInterval (store v) with
               | Some h => [clearInterval h]
               | None => []
               end
               ++ (if audioContext (store v) then [audioContext_close]
                   else [])).
  { intros v. unfold cleanup, stopPositionTracking, when, bind, get, set,
      call, ret, new_calls. cbn.
    destruct (positionUpdateInterval (store v)), (audioContext (store v));
      cbn; rewrite <- ?app_assoc; cbn;
      try apply skipn_all_app;
      rewrite <- (app_nil_r (calls v)) at 2; apply skipn_all_app. }
  subst w'. split; [apply H1|]. split; [apply H2|].
  split; [now rewrite !H1 | now rewrite H2, H1].
Qed.

(** *** The loading flag *)

Lemma loading_within_weaken (L L' : Deck -> Prop) s :
  (forall deck, L deck -> L' deck) ->
  loading_within L s -> loading_within L' s.
Proof. intros HL H deck Hd. apply HL, H, Hd. Qed.

Ltac stable_loading :=
  let s0 := fresh "s" in
  let H := fresh "H" in
  let d := fresh "shown" in
  intros s0 H d; specialize (H d);
  unfold update_deck, set_gain in *;
  repeat match goal with
         | |- context [match ?x with A => _ | B => _ end] => destruct x
         end;
  destruct d; cbn in *; first [exact H | intros; discriminate].

Lemma keeps_loading_setCrossfader L position :
  keeps (loading_within L) (setCrossfader position).
Proof. unfold setCrossfader. unfold_ops. keeps_by stable_loading idtac. Qed.

Lemma keeps_loading_perform L a :
  match a with ActivateDeck _ _ | PlayPause _ => False | _ => True end ->
  keeps (loading_within L) (perform a).
Proof.
  intros Ha. destruct a; try contradiction; cbn [perform];
    unfold initAudio, cleanup, setVolume, setCrossfader; unfold_ops;
    unfold setCrossfader, seekSpotifyTrack, setDeckPosition; unfold_ops;
    keeps_by stable_loading idtac.
  all: apply keeps_world_change; reflexivity.
Qed.

Lemma keeps_loading_finish L c progress :
  keeps (loading_within L) (animateCrossfade_finish c progress).
Proof. unfold_ops. keeps_by stable_loading idtac. Qed.

Lemma keeps_loading_resume L t resp sdkFailed :
  match t with
  | AwaitPlayTrack _ _ | AnimationFrame _ => False
  | _ => True
  end ->
  keeps (loading_within L) (resume_task t resp sdkFailed).
Proof.
  intros Ht. destruct t; try contradiction; cbn [resume_task];
    unfold_ops; keeps_by stable_loading idtac.
Qed.

(** [activateDeck], up to its play request: the deck shows the loading
    flag only when the activation is suspended. *)
Lemma activateDeck_begin_loading L deck preservePosition w :
  loading_within L (store w) ->
  match fst (activateDeck_begin deck preservePosition w) with
  | None =>
      loading_within L
        (store (snd (activateDeck_begin deck preservePosition w)))
  | Some p =>
      pa_deck p = deck
      /\ loading_within (fun d => L d \/ d = deck)
           (store (snd (activateDeck_begin deck preservePosition w)))
  end.
Proof.
  intros H. unfold activateDeck_begin, bind, call, get, set, getSpotify, ret.
  cbn. destruct (track (deckOf deck (store w))) as [t|]; cbn; [|exact H].
  destruct (isPrepared t); cbn; [|exact H].
  split; [reflexivity|]. intros d Hd.
  destruct deck, d; cbn in *; auto.
Qed.

(** Once the play request is answered the deck no longer shows the flag,
    and the other deck shows it as before. *)
Lemma activateDeck_resume_loading L p resp w :
  loading_within L (store w) ->
  loading_within (fun d => L d /\ d <> pa_deck p)
    (store (snd (activateDeck_resume p resp w))).
Proof.
  intros H. unfold activateDeck_resume.
  destruct (playTrack_result (pa_ready p) resp).
  - unfold startPositionTracking, when, bind, get, set, call, Date_now,
      new_interval, ret. cbn.
    intros d. specialize (H d).
    destruct (pa_deck p), d; cbn in *;
      destruct (isCrossfading (store w)); cbn;
      destruct (positionUpdateInterval (store w)); cbn;
      intros Hd; try discriminate; split; auto; discriminate.
  - unfold bind, set, ret. cbn. intros d. specialize (H d).
    destruct (pa_deck p), d; cbn in *;
      intros Hd; try discriminate; split; auto; discriminate.
Qed.

Lemma in_remove_nth {X} (l : list X) n m x :
  nth_error l m = Some x -> m <> n -> In x (remove_nth n l).
Proof.
  intros Hm Hne. unfold remove_nth. apply in_or_app.
  destruct (Nat.lt_ge_cases m n) as [Hlt|Hge].
  - left. apply nth_error_In with m. now rewrite nth_error_firstn,
      (proj2 (Nat.ltb_lt m n) Hlt).
  - right. apply nth_error_In with (m - S n)%nat.
    rewrite nth_error_skipn. replace (S n + (m - S n))%nat with m by lia.
    exact Hm.
Qed.

Lemma pending_after_removal deck ts n t :
  nth_error ts n = Some t ->
  activation_pending deck ts ->
  match t with AwaitPlayTrack p _ => pa_deck p <> deck | _ => True end ->
  activation_pending deck (remove_nth n ts).
Proof.
  intros Hn (p & k & Hin & Hp) Ht.
  apply In_nth_error in Hin. destruct Hin as [m Hm].
  exists p, k. split; [|exact Hp].
  apply in_remove_nth with m; [exact Hm|].
  intros ->. rewrite Hn in Hm. injection Hm as ->. now apply Ht.
Qed.

Lemma pending_app_l deck ts ts' :
  activation_pending deck ts -> activation_pending deck (ts ++ ts').
Proof.
  intros (p & k & Hin & Hp). exists p, k. split; [|exact Hp].
  apply in_or_app. now left.
Qed.

Lemma pending_app_r deck ts p k :
  pa_deck p = deck -> activation_pending deck (ts ++ [AwaitPlayTrack p k]).
Proof.
  intros Hp. exists p, k. split; [|exact Hp].
  apply in_or_app. right. now left.
Qed.

Lemma keeps_loading_after L k success :
  keeps (loading_within L) (after_activateDeck k success).
Proof. destruct k; unfold_ops; keeps_by stable_loading idtac. Qed.

Lemma playPause_eq deck w :
  playPause deck w
  = match track (deckOf deck (store w)) with
    | None => ([], w)
    | Some _ =>
        if isActive (deckOf deck (store w)) then
          if isPlaying (deckOf deck (store w))
          then ([AwaitPause deck], snd (call pausePlayback w))
          else ([AwaitResume deck], snd (call resumePlayback w))
        else
          (match fst (activateDeck_begin deck false w) with
           | None => []
           | Some p => [AwaitPlayTrack p FromPlayPause]
           end,
           snd (activateDeck_begin deck false w))
    end.
Proof.
  unfold playPause, bind, get, ret. cbn beta iota.
  destruct (track (deckOf deck (store w))); [|reflexivity].
  destruct (isActive (deckOf deck (store w))); cbn [negb].
  - destruct (isPlaying (deckOf deck (store w))); reflexivity.
  - destruct (activateDeck_begin deck false w) as [[p|] w1]; reflexivity.
Qed.

(** An operation called from outside: a deck that shows the flag
    afterwards showed it before, or the operation has left an activation
    of it suspended. *)
Lemma perform_loading L a w :
  loading_within L (store w) ->
  loading_within
    (fun d => L d \/ activation_pending d (fst (perform a w)))
    (store (snd (perform a w))).
Proof.
  intros H.
  assert (Hother :
            match a with ActivateDeck _ _ | PlayPause _ => False | _ => True end ->
            loading_within
              (fun d => L d \/ activation_pending d (fst (perform a w)))
              (store (snd (perform a w)))).
  { intros Ha. eapply loading_within_weaken; [intros d Hd; left; exact Hd|].
    now apply (keeps_ends _ _ (keeps_loading_perform L a Ha)). }
  destruct a; try (apply Hother; exact Logic.I); clear Hother.
  - (* activateDeck *)
    cbn [perform]. unfold bind, ret.
    pose proof (activateDeck_begin_loading L deck preservePosition w H) as Hb.
    destruct (activateDeck_begin deck preservePosition w) as [[p|] w1];
      cbn in *.
    + destruct Hb as [Hp Hb]. intros d Hd. destruct (Hb d Hd) as [Hl| ->].
      * now left.
      * right. exists p, FromUser. split; [now left | exact Hp].
    + intros d Hd. left. now apply Hb.
  - (* playPause *)
    cbn [perform]. rewrite playPause_eq.
    destruct (track (deckOf deck (store w))); cbn [fst snd];
      [|intros d Hd; left; now apply H].
    destruct (isActive (deckOf deck (store w))); cbn [fst snd].
    + destruct (isPlaying (deckOf deck (store w))); cbn;
        intros d Hd; left; now apply H.
    + pose proof (activateDeck_begin_loading L deck false w H) as Hb.
      destruct (activateDeck_begin deck false w) as [[p|] w1];
        cbn [fst snd] in *.
      * destruct Hb as [Hp Hb]. intros d Hd. destruct (Hb d Hd) as [Hl| ->].
        -- now left.
        -- right. exists p, FromPlayPause. split; [now left | exact Hp].
      * intros d Hd. left. now apply Hb.
Qed.

Lemma frame_loading L c w :
  loading_within L (store w) ->
  loading_within
    (fun d =>
       L d
       \/ activation_pending d
            (next_tasks (snd (fst (animateCrossfade_frame c w)))))
    (store (snd (animateCrossfade_frame c w))).
Proof.
  intros H. rewrite animateCrossfade_frame_eq. cbv zeta.
  match goal with
  | |- context [setCrossfader ?pos w] =>
      pose proof (keeps_ends _ _ (keeps_loading_setCrossfader L pos) w H)
        as H1;
      destruct (setCrossfader pos w) as [ts w1]
  end.
  cbn [snd] in H1.
  destruct (handoff_due c (clock w - startTime c)).
  - pose proof (activateDeck_begin_loading L (toDeck c) false w1 H1) as Hb.
    destruct (activateDeck_begin (toDeck c) false w1) as [[p|] w2];
      cbn [fst snd] in Hb.
    + destruct Hb as [Hp Hb]. cbn [fst snd next_tasks].
      intros d Hd. destruct (Hb d Hd) as [Hl| ->].
      * now left.
      * right. eexists p, _. split; [now left | exact Hp].
    + match goal with
      | |- context [animateCrossfade_finish ?c' ?pr w2] =>
          pose proof (keeps_ends _ _ (keeps_loading_finish L c' pr) w2 Hb)
            as H2;
          destruct (animateCrossfade_finish c' pr w2) as [n w3]
      end.
      cbn [fst snd] in *. intros d Hd. left. now apply H2.
  - match goal with
    | |- context [animateCrossfade_finish ?c' ?pr w1] =>
        pose proof (keeps_ends _ _ (keeps_loading_finish L c' pr) w1 H1)
          as H2;
        destruct (animateCrossfade_finish c' pr w1) as [n w3]
    end.
    cbn [fst snd] in *. intros d Hd. left. now apply H2.
Qed.

(** A suspended operation goes on: a deck that shows the flag afterwards
    showed it before and the operation was not its activation, or the
    operation has left an activation of it suspended. *)
Lemma resume_loading L t resp sdkFailed w :
  loading_within L (store w) ->
  loading_within
    (fun d =>
       (L d /\ match t with
               | AwaitPlayTrack p _ => pa_deck p <> d
               | _ => True
               end)
       \/ activation_pending d (fst (resume_task t resp sdkFailed w)))
    (store (snd (resume_task t resp sdkFailed w))).
Proof.
  intros H.
  assert (Hother :
            match t with
            | AwaitPlayTrack _ _ | AnimationFrame _ => False
            | _ => True
            end ->
            loading_within
              (fun d =>
                 (L d /\ match t with
                         | AwaitPlayTrack p _ => pa_deck p <> d
                         | _ => True
                         end)
                 \/ activation_pending d (fst (resume_task t resp sdkFailed w)))
              (store (snd (resume_task t resp sdkFailed w)))).
  { intros Ht.
    eapply loading_within_weaken;
      [|apply (keeps_ends _ _ (keeps_loading_resume L t resp sdkFailed Ht));
        exact H].
    intros d Hd. left. split; [exact Hd|]. now destruct t. }
  destruct t as [p k| | | |c]; try (apply Hother; exact Logic.I);
    clear Hother; cbn [resume_task].
  - (* the play request is answered *)
    unfold bind.
    pose proof (activateDeck_resume_loading L p resp w H) as Hr.
    destruct (activateDeck_resume p resp w) as [success w1]. cbn [snd] in Hr.
    apply (keeps_ends _ _ (keeps_loading_after _ k success)) in Hr.
    eapply loading_within_weaken; [|exact Hr].
    intros d [Hl Hd]. left. split; [exact Hl | congruence].
  - (* a frame of the animation *)
    rewrite animateCrossfade_eq. cbn [fst snd].
    eapply loading_within_weaken; [|apply (frame_loading L c w H)].
    intros d [Hd|(p & k & Hin & Hp)].
    + left. now split.
    + right. exists p, k. split; [|exact Hp]. apply in_or_app. now right.
Qed.

(** X18.  In every reachable state a deck shows the loading flag only
    while an activation of that deck is suspended at its play request: the
    flag is raised by [activateDeck] just before the request and lowered by
    the continuation that receives the answer, whether the request
    succeeded or failed, and by nothing else except a reset of the deck. *)
Theorem loading_only_while_activating :
  forall s deck,
    reachable s ->
    isLoading (deckOf deck (store (world s))) = true ->
    exists p k, In (AwaitPlayTrack p k) (tasks s) /\ pa_deck p = deck.
Proof.
  intros s deck Hs. revert deck. change (loading_accounted s).
  induction Hs as [|a s _ IH] using reachable_ind'.
  - intros deck Hd. destruct deck; discriminate.
  - unfold loading_accounted in *. rewrite world_step, tasks_step.
    assert (Hperf :
              loading_within
                (fun d => activation_pending d
                            (tasks s ++ fst (perform a (world s))))
                (store (snd (perform a (world s))))).
    { eapply loading_within_weaken;
        [|apply (perform_loading _ a (world s) IH)].
      intros d [Hd|(p & k & Hin & Hp)].
      - now apply pending_app_l.
      - exists p, k. split; [|exact Hp]. apply in_or_app. now right. }
    destruct a; try exact Hperf. clear Hperf.
    destruct (nth_error (tasks s) n) as [t|] eqn:Hn; [|exact IH].
    eapply loading_within_weaken;
      [|apply (resume_loading _ t resp sdkFailed (world s) IH)].
    intros d [[Hd Ht]|(p & k & Hin & Hp)].
    + apply pending_app_l. apply pending_after_removal with t; auto.
    + exists p, k. split; [|exact Hp]. apply in_or_app. now right.
Qed.

Lemma loading_only_while_activating_witness :
  exists p k,
    In (AwaitPlayTrack p k)
       (tasks (run [LoadSpotifyTrack A (demoTrack "one" 180000) 0;
                    ActivateDeck A false] initialSystem))
    /\ pa_deck p = A.
Proof.
  apply (loading_only_while_activating
           (run [LoadSpotifyTrack A (demoTrack "one" 180000) 0;
                 ActivateDeck A false] initialSystem) A).
  - apply reachable_run.
  - reflexivity.
Defined.

(** *** The transition flag *)


Ltac stable_crossfading :=
  let s0 := fresh "s" in
  let H := fresh "H" in
  intros s0 H;
  unfold crossfading_within, update_deck, activated, set_gain in *;
  repeat match goal with
         | |- context [match ?x with A => _ | B => _ end] => destruct x
         end;
  cbn in *; first [exact H | intros; discriminate].

Lemma keeps_crossfading_setCrossfader P position :
  keeps (crossfading_within P) (setCrossfader position).
Proof. unfold setCrossfader. unfold_ops. keeps_by stable_crossfading idtac. Qed.

Lemma keeps_crossfading_finish P c progress :
  keeps (crossfading_within P) (animateCrossfade_finish c progress).
Proof. unfold_ops. keeps_by stable_crossfading idtac. Qed.

Lemma keeps_crossfading_begin P deck preservePosition :
  keeps (crossfading_within P) (activateDeck_begin deck preservePosition).
Proof. unfold_ops. keeps_by stable_crossfading idtac. Qed.

Lemma keeps_crossfading_resume_activation P p resp :
  keeps (crossfading_within P) (activateDeck_resume p resp).
Proof. unfold_ops. keeps_by stable_crossfading idtac. Qed.

















(** ** The components *)

(** X20.  The Auto Crossfade button, rendered from the current state, is
    enabled exactly when pressing it starts a transition: [canAutoCrossfade]
    holds if and only if [handleAutoCrossfade] requests the first frame of
    an animation, from the active deck to the other one; and when it does
    not hold, pressing changes nothing. *)
Theorem canAutoCrossfade_iff :
  forall w,
    let r := Crossfader.handleAutoCrossfade (store w) w in
    (Crossfader.canAutoCrossfade (store w) = true
     <-> exists c, fst r = [AnimationFrame c])
    /\ (Crossfader.canAutoCrossfade (store w) = true ->
        isCrossfading (store (snd r)) = true
        /\ exists c, fst r = [AnimationFrame c]
                     /\ isActive (deckOf (fromDeck c) (store w)) = true
                     /\ toDeck c = other (fromDeck c))
    /\ (Crossfader.canAutoCrossfade (store w) = false -> r = ([], w)).
Proof.
  intros w r. subst r.
  unfold Crossfader.handleAutoCrossfade, Crossfader.canAutoCrossfade,
    Crossfader.activeDeckId, Crossfader.inactiveDeckId, startAutoCrossfade,
    bind, get, set, Date_now, ret.
  cbn.
  destruct (isActive (deckA (store w))) eqn:EA;
    [|destruct (isActive (deckB (store w))) eqn:EB]; cbn.
  - destruct (track (deckA (store w))); cbn;
      [|repeat split; try discriminate; intros [c Hc]; discriminate].
    destruct (track (deckB (store w))) as [ti|]; cbn;
      [|repeat split; try discriminate; intros [c Hc]; discriminate].
    destruct (isPrepared ti); cbn;
      [|repeat split; try discriminate; intros [c Hc]; discriminate].
    destruct (isCrossfading (store w)); cbn;
      [repeat split; try discriminate; intros [c Hc]; discriminate|].
    repeat split; try discriminate; try (eexists; reflexivity).
    eexists. split; [reflexivity|]. cbn. now split.
  - destruct (track (deckB (store w))); cbn;
      [|repeat split; try discriminate; intros [c Hc]; discriminate].
    destruct (track (deckA (store w))) as [ti|]; cbn;
      [|repeat split; try discriminate; intros [c Hc]; discriminate].
    destruct (isPrepared ti); cbn;
      [|repeat split; try discriminate; intros [c Hc]; discriminate].
    destruct (isCrossfading (store w)); cbn;
      [repeat split; try discriminate; intros [c Hc]; discriminate|].
    repeat split; try discriminate; try (eexists; reflexivity).
    eexists. split; [reflexivity|]. cbn. now split.
  - repeat split; try discriminate. intros [c Hc]. discriminate.
Qed.

Lemma canAutoCrossfade_iff_witness :
  isCrossfading
    (store (snd (Crossfader.handleAutoCrossfade
                   (store (world (run (run_A_at 166000) initialSystem)))
                   (world (run (run_A_at 166000) initialSystem)))))
  = true.
Proof.
  apply (canAutoCrossfade_iff (world (run (run_A_at 166000) initialSystem))).
  reflexivity.
Defined.

Lemma Math_max_0_pos x : 0 < x -> Math_max 0 x = x.
Proof. intros H. unfold Math_max, Rmax. destruct (Rle_dec 0 x); lra. Qed.

(** X21.  Whenever the trigger check of the store starts a transition, the
    indicators rendered from that state have announced it: the
    auto-crossfade panel shows [willTriggerSoon], and the panel of the
    active deck reports a positive time remaining, [willTriggerSoon], and
    a [triggersIn] that is not negative. *)
Theorem trigger_is_announced :
  forall w,
    fst (checkAutoCrossfadeTrigger w) <> [] ->
    AutoCrossfadePanel.willTriggerSoon (store w) = true
    /\ exists deck timeRemaining triggersIn,
         isActive (deckOf deck (store w)) = true
         /\ DeckPanel.getAutoCrossfadeStatus (store w) deck
            = Some (timeRemaining, true, triggersIn)
         /\ 0 < timeRemaining
         /\ 0 <= triggersIn.
Proof.
  intros w.
  assert (Hfire : forall a ta,
             AutoCrossfade.enabled (autoCrossfade (store w)) = true ->
             isActive (deckOf a (store w)) = true ->
             (a = A \/ isActive (deckA (store w)) = false) ->
             track (deckOf a (store w)) = Some ta ->
             leb (duration ta - currentTime (deckOf a (store w)))
                 (AutoCrossfade.triggerTime (autoCrossfade (store w)))
             && gtb (duration ta - currentTime (deckOf a (store w))) 0 = true ->
             AutoCrossfadePanel.willTriggerSoon (store w) = true
             /\ exists deck timeRemaining triggersIn,
                  isActive (deckOf deck (store w)) = true
                  /\ DeckPanel.getAutoCrossfadeStatus (store w) deck
                     = Some (timeRemaining, true, triggersIn)
                  /\ 0 < timeRemaining
                  /\ 0 <= triggersIn).
  { intros a ta En Ha Hfirst Ht Hc.
    apply andb_prop in Hc. destruct Hc as [Hle Hgt].
    pose proof (proj1 (leb_true _ _) Hle) as Hle'.
    pose proof (proj1 (ltb_true _ _) Hgt) as Hgt'.
    split.
    - unfold AutoCrossfadePanel.willTriggerSoon,
        AutoCrossfadePanel.getTimeRemaining.
      destruct a; cbn [deckOf] in *.
      + rewrite Ha, Ht, Math_max_0_pos by exact Hgt'. exact Hle.
      + destruct Hfirst as [Hf|Hf]; [discriminate|].
        rewrite Hf, Ha, Ht, Math_max_0_pos by exact Hgt'. exact Hle.
    - exists a. eexists. eexists.
      unfold DeckPanel.getAutoCrossfadeStatus.
      rewrite Ht, Ha, En, Hle. cbn [negb orb].
      split; [reflexivity|]. split; [reflexivity|]. split; lra. }
  unfold checkAutoCrossfadeTrigger, bind, get, ret. cbn beta iota zeta.
  destruct (AutoCrossfade.enabled (autoCrossfade (store w))) eqn:En;
    cbn [negb orb]; [|intros H; now contradiction H].
  destruct (isCrossfading (store w)); [intros H; now contradiction H|].
  destruct (isActive (deckA (store w))) eqn:EA.
  - destruct (track (deckOf A (store w))) as [ta|] eqn:Eta;
      [|intros H; now contradiction H].
    destruct (track (deckOf B (store w))) as [ti|];
      [|intros H; now contradiction H].
    destruct (negb (isPrepared ti)); [intros H; now contradiction H|].
    destruct (_ && _) eqn:Ec; [|intros H; now contradiction H].
    intros _. apply (Hfire A ta); auto.
  - destruct (isActive (deckB (store w))) eqn:EB;
      [|intros H; now contradiction H].
    destruct (track (deckOf B (store w))) as [ta|] eqn:Eta;
      [|intros H; now contradiction H].
    destruct (track (deckOf A (store w))) as [ti|];
      [|intros H; now contradiction H].
    destruct (negb (isPrepared ti)); [intros H; now contradiction H|].
    destruct (_ && _) eqn:Ec; [|intros H; now contradiction H].
    intros _. apply (Hfire B ta); auto.
Qed.

Lemma trigger_is_announced_witness :
  AutoCrossfadePanel.willTriggerSoon
    (store (world (run (run_A_at 166000) initialSystem))) = true.
Proof.
  apply (trigger_is_announced (world (run (run_A_at 166000) initialSystem))).
  assert (Hc : trigger_condition
                 (store (world (run (run_A_at 166000) initialSystem))) A).
  { repeat split; try reflexivity.
    eexists. eexists. repeat split; try reflexivity; cbn; lra. }
  destruct (trigger_fires _ _ Hc) as [(c & Hf & _) _].
  rewrite Hf. discriminate.
Defined.

(** *** A running transition and the settings *)

Lemma ignores_bind {X Y} (m : M X) (k : X -> M Y) :
  ignores_settings m -> (forall x, ignores_settings (k x)) ->
  ignores_settings (bind m k).
Proof.
  intros Hm Hk w w' Hd. unfold bind.
  destruct (Hm w w' Hd) as (Hf & Hd1 & Ha).
  destruct (m w) as [x w1], (m w') as [x' w1']. cbn in *. subst x'.
  destruct (Hk x w1 w1' Hd1) as (Hf2 & Hd2 & Ha2).
  split; [exact Hf2|]. split; [exact Hd2|]. congruence.
Qed.

Lemma ignores_ret {X} (x : X) : ignores_settings (ret x).
Proof.
  intros w w' Hd. split; [reflexivity|]. split; [exact Hd | reflexivity].
Qed.

Ltac settings_worlds :=
  match goal with
  | |- ignores_settings _ =>
      let w := fresh "w" in
      let w' := fresh "w'" in
      let Hs := fresh "Hs" in
      intros w w' (Hs & ? & ? & ? & ?);
      destruct w as [s pub sp clk cs nh], w' as [s' pub' sp' clk' cs' nh'];
      cbn [store spotifyStore clock calls nextHandle] in *; subst;
      destruct s as [ctx gA gB gM dA dB pos ac xf xs xd iv];
      destruct s' as [ctx' gA' gB' gM' dA' dB' pos' ac' xf' xs' xd' iv'];
      cbn in Hs; injection Hs as -> -> -> -> -> -> -> -> -> -> ->
  end.

Lemma ignores_setCrossfader position :
  ignores_settings (setCrossfader position).
Proof.
  settings_worlds.
  unfold differ_in_settings, setCrossfader, push_volume, bind, get, set,
    assign, getSpotify, call, ret.
  cbn -[has_spotify_track].
  destruct sp as [token device [|] ready], gA, gB, (has_spotify_track dA),
    (has_spotify_track dB), (isPlaying dA), (isPlaying dB);
    cbn; repeat split.
Qed.

Lemma ignores_activateDeck_begin deck preservePosition :
  ignores_settings (activateDeck_begin deck preservePosition).
Proof.
  settings_worlds.
  unfold differ_in_settings, activateDeck_begin, bind, get, set, getSpotify,
    call, ret.
  destruct deck; cbn;
    [destruct (track dA) as [t|] | destruct (track dB) as [t|]]; cbn;
    try (now repeat split);
    destruct (isPrepared t); cbn; now repeat split.
Qed.

Lemma ignores_finish c progress :
  ignores_settings (animateCrossfade_finish c progress).
Proof.
  settings_worlds.
  unfold differ_in_settings, animateCrossfade_finish, stopAutoCrossfade,
    bind, set, call, ret.
  destruct (Number.ltb progress (Num 1)); cbn; now repeat split.
Qed.

Lemma ignores_frame c : ignores_settings (animateCrossfade_frame c).
Proof.
  intros w w' Hd.
  assert (Hc : clock w' = clock w) by (apply Hd).
  rewrite !animateCrossfade_frame_eq. cbv zeta. rewrite Hc.
  change (setCrossfader _ w)
    with (setCrossfader (newPosition_at c (clock w)) w).
  change (setCrossfader _ w')
    with (setCrossfader (newPosition_at c (clock w)) w').
  destruct (ignores_setCrossfader (newPosition_at c (clock w)) w w' Hd)
    as (Hf1 & Hd1 & Ha1).
  destruct (setCrossfader _ w) as [ts w1], (setCrossfader _ w') as [ts' w1'].
  cbn [fst snd] in *. subst ts'.
  destruct (handoff_due c (clock w - startTime c)).
  - destruct (ignores_activateDeck_begin (toDeck c) false w1 w1' Hd1)
      as (Hf2 & Hd2 & Ha2).
    destruct (activateDeck_begin (toDeck c) false w1) as [r w2],
             (activateDeck_begin (toDeck c) false w1') as [r' w2'].
    cbn [fst snd] in *. subst r'. destruct r as [p|].
    + cbn [fst snd]. split; [reflexivity|]. split; [exact Hd2|]. congruence.
    + match goal with
      | |- context [animateCrossfade_finish ?c' ?pr w2] =>
          destruct (ignores_finish c' pr w2 w2' Hd2) as (Hf3 & Hd3 & Ha3);
          destruct (animateCrossfade_finish c' pr w2) as [n w3],
                   (animateCrossfade_finish c' pr w2') as [n' w3']
      end.
      cbn [fst snd] in *. subst n'.
      split; [reflexivity|]. split; [exact Hd3|]. congruence.
  - match goal with
    | |- context [animateCrossfade_finish ?c' ?pr w1] =>
        destruct (ignores_finish c' pr w1 w1' Hd1) as (Hf3 & Hd3 & Ha3);
        destruct (animateCrossfade_finish c' pr w1) as [n w3],
                 (animateCrossfade_finish c' pr w1') as [n' w3']
    end.
    cbn [fst snd] in *. subst n'.
    split; [reflexivity|]. split; [exact Hd3|]. congruence.
Qed.

(** X22.  A transition that is running takes no notice of a change of the
    auto-crossfade settings: after [setAutoCrossfadeSettings], a frame of
    the animation moves the crossfader to the same position, makes the
    same calls, decides the handoff and its own end in the same way, and
    leaves the new settings in the store untouched.  The settings the
    animation uses are those read when the transition was started. *)
Theorem running_transition_ignores_settings :
  forall c p w,
    let w' := snd (setAutoCrossfadeSettings p w) in
    let r := animateCrossfade_frame c w in
    let r' := animateCrossfade_frame c w' in
    fst r' = fst r
    /\ new_calls w' (snd r') = new_calls w (snd r)
    /\ store (snd r')
       = with_autoCrossfade
           (AutoCrossfade.merge (autoCrossfade (store w)) p)
           (store (snd r)).
Proof.
  intros c p w w' r r'. subst r r'.
  assert (Hd : differ_in_settings w w') by (now repeat split).
  destruct (ignores_frame c w w' Hd) as (Hf & (Hs & _ & _ & Hc & _) & Ha).
  split; [exact Hf|]. split.
  - unfold new_calls. now rewrite Hc.
  - rewrite Hs, Ha. reflexivity.
Qed.

(** *** The keys *)

Lemma setVolume_volume deck v w :
  volume (deckOf deck (store (snd (setVolume deck v w))))
  = Math_max 0 (Math_min 1 v).
Proof.
  destruct (setVolume_store deck v w) as (Hs & _). rewrite Hs.
  destruct deck; reflexivity.
Qed.

Lemma step_in_range_down (x d : R) :
  0 <= x <= 1 -> 0 <= d -> 0 <= Math_max 0 (x - d) <= 1.
Proof.
  intros Hx Hd. unfold Math_max, Rmax. destruct (Rle_dec 0 (x - d)); lra.
Qed.

Lemma step_in_range_up (x d : R) :
  0 <= x <= 1 -> 0 <= d -> 0 <= Math_min 1 (x + d) <= 1.
Proof.
  intros Hx Hd. unfold Math_min, Rmin. destruct (Rle_dec 1 (x + d)); lra.
Qed.

(** X23.  The keys of the crossfader and of a deck's volume, pressed on a
    component rendered from the current state, in any reachable state.
    When the crossfader position is a real number, the left and right
    arrows leave the crossfader at its position minus or plus 0.05,
    stopped at 0 and at 1; when it is NaN, they leave it NaN.  Home, End
    and the space bar put the crossfader at 0, 1 and 0.5 in either case.
    The volume keys leave the deck's volume at its value minus or plus
    0.1, stopped at 0 and at 1.  The component has already cut the value
    to the range, so the store keeps exactly the value it is given. *)
Theorem keys_step_within_range :
  forall s deck,
    reachable s ->
    let w := world s in
    let vol := volume (deckOf deck (store w)) in
    let key k := snd (Crossfader.handleKeyDown (store w) k w) in
    let left := crossfaderPosition (store (key Crossfader.ArrowLeft)) in
    let right := crossfaderPosition (store (key Crossfader.ArrowRight)) in
    let down :=
      volume (deckOf deck (store (snd (DeckPanel.volumeDown (store w) deck w)))) in
    let up :=
      volume (deckOf deck (store (snd (DeckPanel.volumeUp (store w) deck w)))) in
    (forall pos,
        crossfaderPosition (store w) = Num pos ->
        left = Num (Math_max 0 (pos - 5 / 100))
        /\ right = Num (Math_min 1 (pos + 5 / 100))
        /\ 0 <= Math_max 0 (pos - 5 / 100) <= pos
        /\ pos <= Math_min 1 (pos + 5 / 100) <= 1)
    /\ (crossfaderPosition (store w) = NaN -> left = NaN /\ right = NaN)
    /\ crossfaderPosition (store (key Crossfader.Home)) = Num 0
    /\ crossfaderPosition (store (key Crossfader.End_)) = Num 1
    /\ crossfaderPosition (store (key Crossfader.Space)) = Num (5 / 10)
    /\ down = Math_max 0 (vol - 1 / 10)
    /\ up = Math_min 1 (vol + 1 / 10)
    /\ 0 <= down <= vol
    /\ vol <= up <= 1.
Proof.
  intros s deck Hs w vol key left right down up.
  pose proof (reachable_in_range s Hs) as Hr.
  apply Forall_inv in Hr. destruct Hr as (Hposition & HvA & HvB & _).
  assert (Hvol : 0 <= vol <= 1) by (subst vol; destruct deck; assumption).
  fold w in Hposition.
  subst left right down up key. cbv beta.
  unfold Crossfader.handleKeyDown, DeckPanel.volumeUp, DeckPanel.volumeDown.
  rewrite !setCrossfader_position, !setVolume_volume.
  fold vol.
  pose proof (step_in_range_down vol (1 / 10) Hvol ltac:(lra)) as H3.
  pose proof (step_in_range_up vol (1 / 10) Hvol ltac:(lra)) as H4.
  rewrite !(clamp_fixed _ H3), !(clamp_fixed _ H4).
  assert (Hvl : Math_max 0 (vol - 1 / 10) <= vol).
  { unfold Math_max, Rmax. destruct (Rle_dec 0 (vol - 1 / 10)); lra. }
  assert (Hvg : vol <= Math_min 1 (vol + 1 / 10)).
  { unfold Math_min, Rmin. destruct (Rle_dec 1 (vol + 1 / 10)); lra. }
  split; [|split; [|repeat split]].
  - intros pos Hpos. rewrite Hpos in *. cbn in Hposition |- *.
    unfold unit_interval in Hposition.
    pose proof (step_in_range_down pos (5 / 100) Hposition ltac:(lra)) as H1.
    pose proof (step_in_range_up pos (5 / 100) Hposition ltac:(lra)) as H2.
    rewrite !(clamp_fixed _ H1), !(clamp_fixed _ H2).
    assert (Hl : Math_max 0 (pos - 5 / 100) <= pos).
    { unfold Math_max, Rmax. destruct (Rle_dec 0 (pos - 5 / 100)); lra. }
    assert (Hg : pos <= Math_min 1 (pos + 5 / 100)).
    { unfold Math_min, Rmin. destruct (Rle_dec 1 (pos + 5 / 100)); lra. }
    repeat split; try reflexivity; lra.
  - intros ->. split; reflexivity.
  - cbn. f_equal. apply clamp_fixed. lra.
  - cbn. f_equal. apply clamp_fixed. lra.
  - cbn. f_equal. apply clamp_fixed. lra.
  - lra.
  - exact Hvl.
  - exact Hvg.
  - lra.
Qed.

Lemma keys_step_within_range_witness :
  crossfaderPosition
    (store (snd (Crossfader.handleKeyDown
                   (store (world (run run_A_active initialSystem)))
                   Crossfader.ArrowLeft
                   (world (run run_A_active initialSystem)))))
  = Num (Math_max 0 (5 / 10 - 5 / 100)).
Proof.
  refine (proj1 (proj1 (keys_step_within_range
                          (run run_A_active initialSystem) A
                          (reachable_run _))
                   (5 / 10) _)).
  vm_compute. reflexivity.
Defined.

(** *** The position controls of a deck panel *)

Lemma new_calls_same w w' : calls w' = calls w -> new_calls w w' = [].
Proof.
  intros H. unfold new_calls. rewrite H.
  rewrite <- (app_nil_r (calls w)) at 2. apply skipn_all_app.
Qed.

(** X24.  The position controls of a deck panel.  Whatever state the panel
    was rendered with, moving the slider seeks the remote player only when
    the deck is active both in that state and in the store, and then to
    the slider position rounded to milliseconds; it never changes the
    other deck.  Rendered from the current state, the slider on a deck
    with a track moves the deck to that rounded position, the vinyl does
    what [scrubTrack] does, and setting the cue at the shown position makes
    the next [activateDeck(deck, false)] play the track from the shown
    position rounded to milliseconds. *)
Theorem deck_panel_position :
  forall rendered deck w,
    (forall newPosition,
        let w' := snd (DeckPanel.handlePositionChange rendered deck
                         newPosition w) in
        (forall p, In (seekToPosition p) (new_calls w w') ->
                   isActive (deckOf deck (store w)) = true
                   /\ isActive (deckOf deck rendered) = true
                   /\ p = Math_round (newPosition * 1000))
        /\ deckOf (other deck) (store w') = deckOf (other deck) (store w))
    /\ (forall newPosition,
           has_spotify_track (deckOf deck (store w)) = true ->
           deckOf deck
             (store (snd (DeckPanel.handlePositionChange (store w) deck
                            newPosition w)))
           = with_currentTime (Math_round (newPosition * 1000) / 1000)
               (deckOf deck (store w)))
    /\ (forall direction intensity,
           DeckPanel.handleVinylScrub (store w) deck direction intensity w
           = scrubTrack deck direction intensity w)
    /\ (forall t,
           track (deckOf deck (store w)) = Some t ->
           calls (snd (activateDeck_begin deck false
                         (snd (DeckPanel.handlePrepareAtCurrentTime
                                 (store w) deck w))))
           = calls w
             ++ [activateDeck_entry deck false;
                 playTrack (spotifyUri t)
                   (Math_round
                      (currentTime (deckOf deck (store w)) * 1000))]).
Proof.
  intros rendered deck w. split; [|split; [|split]].
  - intros newPosition w'. subst w'. unfold DeckPanel.handlePositionChange.
    destruct (has_spotify_track (deckOf deck rendered)); cbn [negb].
    + destruct (isActive (deckOf deck rendered)) eqn:Hr.
      * unfold seekSpotifyTrack, when, bind, get, set, call, ret.
        cbn -[has_spotify_track].
        destruct (has_spotify_track (deckOf deck (store w)));
          cbn -[has_spotify_track].
        -- destruct (isActive (deckOf deck (store w))) eqn:Ha; cbn.
           ++ split; [|now destruct deck].
              unfold new_calls; cbn. rewrite skipn_all_app.
              intros p [[= <-]|[]]. now repeat split.
           ++ split; [|now destruct deck].
              rewrite new_calls_same by reflexivity. intros p [].
        -- split; [|reflexivity].
           rewrite new_calls_same by reflexivity. intros p [].
      * unfold setDeckPosition, set. cbn. split; [|now destruct deck].
        rewrite new_calls_same by reflexivity. intros p [].
    + cbn. split; [|reflexivity].
      rewrite new_calls_same by reflexivity. intros p [].
  - intros newPosition Ht. unfold DeckPanel.handlePositionChange.
    rewrite Ht. cbn [negb].
    destruct (isActive (deckOf deck (store w))) eqn:Ha.
    + unfold seekSpotifyTrack, when, bind, get, set, call, ret.
      cbn -[has_spotify_track]. rewrite Ht, Ha. cbn. now destruct deck.
    + unfold setDeckPosition, set. cbn. now destruct deck.
  - intros direction intensity. unfold DeckPanel.handleVinylScrub.
    destruct (track (deckOf deck (store w))) eqn:Ht; [reflexivity|].
    unfold scrubTrack, bind, get, ret. cbn. now rewrite Ht.
  - intros t Ht. unfold DeckPanel.handlePrepareAtCurrentTime. rewrite Ht.
    destruct (prepareDeck_track deck
                (Math_round (currentTime (deckOf deck (store w)) * 1000))
                w t Ht) as [Ht' Hc].
    rewrite (activateDeck_begin_cue _ _ _ Ht' eq_refl), Hc. reflexivity.
Qed.

Lemma deck_panel_position_witness :
  deckOf A
    (store (snd (DeckPanel.handlePositionChange
                   (store (world (run run_A_active initialSystem))) A 60
                   (world (run run_A_active initialSystem)))))
  = with_currentTime (Math_round (60 * 1000) / 1000)
      (deckOf A (store (world (run run_A_active initialSystem)))).
Proof.
  apply (deck_panel_position
           (store (world (run run_A_active initialSystem))) A
           (world (run run_A_active initialSystem))).
  reflexivity.
Defined.

(** *** A whole transition *)

Lemma setCrossfader_decks position w :
  let s' := store (snd (setCrossfader position w)) in
  deckA s' = deckA (store w) /\ deckB s' = deckB (store w).
Proof.
  destruct (setCrossfader_store position w) as (Hs & _). cbv zeta.
  rewrite Hs. destruct (deckAGain (store w)), (deckBGain (store w));
    split; reflexivity.
Qed.

Lemma activateDeck_begin_prepared deck preservePosition w t :
  track (deckOf deck (store w)) = Some t ->
  isPrepared t = true ->
  exists p,
    fst (activateDeck_begin deck preservePosition w) = Some p
    /\ pa_deck p = deck
    /\ store (snd (activateDeck_begin deck preservePosition w))
       = update_deck deck (with_isLoading true) (store w).
Proof.
  intros Ht Hp.
  unfold activateDeck_begin, bind, call, get, set, getSpotify, ret. cbn.
  rewrite Ht, Hp. cbn. eexists. repeat split.
Qed.

Lemma activateDeck_resume_resolved p w :
  let s' := store (snd (activateDeck_resume p (Status true) w)) in
  isActive (deckOf (pa_deck p) s') = true
  /\ isActive (deckOf (other (pa_deck p)) s') = false
  /\ crossfaderPosition s' = crossfaderPosition (store w).
Proof.
  assert (Hr : playTrack_result (pa_ready p) (Status true) = Resolved)
    by (unfold playTrack_result; now destruct (pa_ready p)).
  unfold activateDeck_resume. rewrite Hr.
  unfold startPositionTracking, when, bind, get, set, call, Date_now,
    new_interval, ret. cbn.
  destruct (pa_deck p); cbn;
    destruct (isCrossfading (store w)), (positionUpdateInterval (store w));
    cbn; repeat split.
Qed.

Lemma finish_keeps c progress w :
  let s' := store (snd (animateCrossfade_finish c progress w)) in
  deckA s' = deckA (store w)
  /\ deckB s' = deckB (store w)
  /\ crossfaderPosition s' = crossfaderPosition (store w).
Proof.
  rewrite animateCrossfade_finish_spec.
  destruct (Number.ltb progress (Num 1)); cbn; repeat split.
Qed.

Lemma handoff_due_closure from c elapsed :
  closure_ok from c ->
  handoff_due c elapsed
  = negb (hasActivated c) && geb elapsed (switchTime c).
Proof.
  intros (_ & _ & _ & _ & Hauto & Htarget). unfold handoff_due.
  rewrite Hauto, Htarget. cbn. now rewrite !andb_true_r.
Qed.

Lemma fade_complete (elapsed total : R) kind :
  0 < total -> total <= elapsed ->
  getCrossfadeValue (Math_min (elapsed / total) 1) kind = 1.
Proof.
  intros HT He. apply (proj2 (getCrossfadeValue_ends kind)).
  assert (H1 : 1 <= elapsed / total).
  { apply Rmult_le_reg_r with total; [exact HT|].
    unfold Rdiv. rewrite Rmult_assoc, Rinv_l by lra. lra. }
  unfold Math_min, Rmin. destruct (Rle_dec (elapsed / total) 1); lra.
Qed.

Lemma handed_same c s s' :
  deckA s' = deckA s -> deckB s' = deckB s -> handed c s -> handed c s'.
Proof.
  intros HA HB. unfold handed.
  destruct (toDeck c), (fromDeck c); cbn; rewrite ?HA, ?HB; auto.
Qed.

(** One frame of a transition that nothing interferes with. *)
Lemma transition_frame from c time w :
  closure_ok from c ->
  handed c (store w) ->
  let elapsed := time - startTime c in
  let r := run_frame c (at_time time) w in
  match snd (fst r) with
  | Some c' =>
      closure_ok from c' /\ handed c' (store (snd r))
      /\ startTime c' = startTime c /\ totalDuration c' = totalDuration c
      /\ elapsed < totalDuration c
  | None =>
      totalDuration c <= elapsed
      /\ isCrossfading (store (snd r)) = false
      /\ isActive (deckOf (other from) (store (snd r))) = true
      /\ isActive (deckOf from (store (snd r))) = false
      /\ crossfaderPosition (store (snd r))
         = Num (match from with A => 1 | B => 0 end)
  end.
Proof.
  intros Hc Hh elapsed r. subst r.
  pose proof Hc as (Hfrom & Hto & HT & Hsw & _).
  pose proof (progress_below_one elapsed (totalDuration c) HT) as Hlt.
  unfold run_frame.
  set (wt := before (at_time time) w).
  assert (Hwt : store wt = store w) by reflexivity.
  change (clock wt) with time. fold elapsed.
  rewrite animateCrossfade_frame_eq. cbv zeta.
  change (clock wt) with time. fold elapsed.
  rewrite (handoff_due_closure from c elapsed Hc).
  set (progress :=
         Number.Math_min (Number.div elapsed (totalDuration c)) (Num 1))
    in *.
  change (setCrossfader _ wt) with (setCrossfader (newPosition_at c time) wt).
  set (position := newPosition_at c time).
  assert (Hend : totalDuration c <= elapsed ->
                 Number.Math_max (Num 0) (Number.Math_min (Num 1) position)
                 = Num (match from with A => 1 | B => 0 end)).
  { intros He. subst position.
    rewrite newPosition_at_real by lra. cbv zeta. fold elapsed.
    rewrite (fade_complete _ _ _ HT He), Hfrom. cbn. f_equal.
    destruct from; [|replace (1 - 1) with 0 by lra]; apply clamp_fixed; lra. }
  pose proof (setCrossfader_decks position wt) as [HdA HdB].
  pose proof (setCrossfader_position position wt) as Hpos.
  destruct (setCrossfader position wt) as [ts w1]. cbn [snd] in HdA, HdB, Hpos.
  rewrite Hwt in HdA, HdB.
  assert (Hh1 : handed c (store w1)) by (now apply handed_same with (store w)).
  assert (Hge : Number.ltb progress (Num 1) = false ->
                totalDuration c <= elapsed).
  { intros Hf. destruct (Rle_dec (totalDuration c) elapsed) as [H|H];
      [exact H|].
    assert (Hl : elapsed < totalDuration c) by lra.
    apply Hlt in Hl. congruence. }
  destruct (hasActivated c) eqn:Hact; cbn [negb andb].
  - (* the handoff has happened *)
    pose proof (finish_keeps c progress w1) as (HfA & HfB & Hfp).
    rewrite animateCrossfade_finish_spec in *.
    destruct (Number.ltb progress (Num 1)) eqn:Elt; cbn [fst snd] in *.
    + split; [exact Hc|]. split; [exact Hh1|]. repeat split.
      now apply Hlt.
    + rewrite stopAutoCrossfade_store in *. cbn in HfA, HfB, Hfp.
      unfold handed in Hh1. rewrite Hact, Hto, Hfrom in Hh1.
      destruct Hh1 as [Ha Hb].
      split; [now apply Hge|]. split; [reflexivity|].
      split; [destruct from; exact Ha|]. split; [destruct from; exact Hb|].
      cbn. rewrite Hpos. now apply Hend, Hge.
  - destruct (geb elapsed (switchTime c)) eqn:Esw.
    + (* the handoff is due *)
      unfold handed in Hh1. rewrite Hact in Hh1.
      destruct Hh1 as (t & Ht & Hp).
      destruct (activateDeck_begin_prepared (toDeck c) false w1 t Ht Hp)
        as (p & Hfst & Hpd & Hst).
      destruct (activateDeck_begin (toDeck c) false w1) as [rp w2].
      cbn [fst snd] in Hfst, Hst. subst rp. cbn [fst snd].
      change (during (at_time time) w2) with w2.
      change (response (at_time time)) with (Status true).
      pose proof (activateDeck_resume_resolved p w2) as (Ra & Rb & Rp).
      destruct (activateDeck_resume p (Status true) w2) as [b w3].
      cbn [snd] in Ra, Rb, Rp.
      assert (Hp2 : crossfaderPosition (store w2) = crossfaderPosition (store w1)).
      { rewrite Hst. now destruct (toDeck c). }
      pose proof (finish_keeps (mark_activated c) progress w3)
        as (HfA & HfB & Hfp).
      rewrite animateCrossfade_finish_spec in *.
      rewrite Hpd, Hto in Ra, Rb.
      assert (Hoo : other (other from) = from) by (now destruct from).
      rewrite Hoo in Rb.
      destruct (Number.ltb progress (Num 1)) eqn:Elt; cbn [fst snd] in *.
      * split; [exact Hc|]. split.
        -- unfold handed. cbn. rewrite Hto, Hfrom. now split.
        -- repeat split. now apply Hlt.
      * rewrite stopAutoCrossfade_store in *. cbn in HfA, HfB, Hfp.
        split; [now apply Hge|]. split; [reflexivity|].
        split; [destruct from; exact Ra|]. split; [destruct from; exact Rb|].
        cbn. rewrite Rp, Hp2, Hpos. now apply Hend, Hge.
    + (* too early for the handoff *)
      apply geb_false in Esw.
      assert (Hl : elapsed < totalDuration c) by lra.
      apply Hlt in Hl. rewrite animateCrossfade_finish_spec, Hl.
      cbn [fst snd]. split; [exact Hc|]. split; [exact Hh1|].
      repeat split. lra.
Qed.

Lemma transition_thread times :
  forall from c w,
    closure_ok from c ->
    handed c (store w) ->
    Exists (fun t => startTime c + totalDuration c <= t) times ->
    let r := animation_world c (map at_time times) w in
    snd r = true
    /\ isCrossfading (store (fst r)) = false
    /\ isActive (deckOf (other from) (store (fst r))) = true
    /\ isActive (deckOf from (store (fst r))) = false
    /\ crossfaderPosition (store (fst r))
       = Num (match from with A => 1 | B => 0 end).
Proof.
  induction times as [|time times IH]; intros from c w Hc Hh Hex; cbv zeta.
  - inversion Hex.
  - cbn [map animation_world].
    pose proof (transition_frame from c time w Hc Hh) as Hf. cbv zeta in Hf.
    destruct (run_frame c (at_time time) w) as [[log next] w'].
    cbn [fst snd] in Hf. destruct next as [c'|].
    + destruct Hf as (Hc' & Hh' & Hs & Ht & Hlt).
      apply IH; [exact Hc' | exact Hh' |].
      rewrite Hs, Ht. inversion Hex as [? ? Hnow|? ? Hlater]; subst.
      * lra.
      * exact Hlater.
    + cbn [fst snd]. destruct Hf as (_ & H1 & H2 & H3 & H4). now repeat split.
Qed.

Lemma startAutoCrossfade_ready from c w :
  fst (startAutoCrossfade from (other from) w) = [AnimationFrame c] ->
  AutoCrossfade.autoActivateNext (autoCrossfade (store w)) = true ->
  isActive (deckOf (other from) (store w)) = false ->
  0 < AutoCrossfade.duration (autoCrossfade (store w)) ->
  AutoCrossfade.switchTiming (autoCrossfade (store w)) <= 1 ->
  closure_ok from c
  /\ handed c (store (snd (startAutoCrossfade from (other from) w)))
  /\ startTime c = clock w
  /\ totalDuration c = AutoCrossfade.duration (autoCrossfade (store w)) * 1000.
Proof.
  unfold startAutoCrossfade, bind, get, set, Date_now, ret. cbn.
  destruct (track (deckOf from (store w))) as [src|]; [|discriminate].
  destruct (track (deckOf (other from) (store w))) as [tgt|] eqn:Et;
    [|discriminate].
  destruct (isPrepared tgt) eqn:Ep; cbn; [|discriminate].
  destruct (isCrossfading (store w)); cbn; [discriminate|].
  intros H Hauto Hina Hd Hst. injection H as <-.
  unfold closure_ok, handed. cbn.
  repeat split; try assumption; try lra.
  - assert (0 <= AutoCrossfade.duration (autoCrossfade (store w))
                 * (1 - AutoCrossfade.switchTiming (autoCrossfade (store w))))
      by (apply Rmult_le_pos; lra).
    lra.
  - exists tgt. split; [|exact Ep]. destruct from; exact Et.
Qed.

(** X25.  A whole transition, when nothing else touches the store.  A
    transition is started from one deck to the other, with
    [autoActivateNext] set, the target deck not active, a positive
    duration and a switch timing of at most 1; its frames then run at any
    times, one of which is at or after the end of the duration.  Then the
    animation finishes, and it leaves the target deck active, the deck it
    came from inactive, the crossfader at the end of the target deck, and
    no transition in flight. *)
Theorem complete_transition :
  forall w0 from c times,
    fst (startAutoCrossfade from (other from) w0) = [AnimationFrame c] ->
    AutoCrossfade.autoActivateNext (autoCrossfade (store w0)) = true ->
    isActive (deckOf (other from) (store w0)) = false ->
    0 < AutoCrossfade.duration (autoCrossfade (store w0)) ->
    AutoCrossfade.switchTiming (autoCrossfade (store w0)) <= 1 ->
    Exists (fun t =>
              clock w0
              + AutoCrossfade.duration (autoCrossfade (store w0)) * 1000 <= t)
           times ->
    let w1 := snd (startAutoCrossfade from (other from) w0) in
    let r := animation_world c (map at_time times) w1 in
    snd r = true
    /\ isCrossfading (store (fst r)) = false
    /\ isActive (deckOf (other from) (store (fst r))) = true
    /\ isActive (deckOf from (store (fst r))) = false
    /\ crossfaderPosition (store (fst r))
       = Num (match from with A => 1 | B => 0 end).
Proof.
  intros w0 from c times Hstart Hauto Hina Hd Hst Hex w1 r. subst r w1.
  destruct (startAutoCrossfade_ready from c w0 Hstart Hauto Hina Hd Hst)
    as (Hc & Hh & Hs & HT).
  apply transition_thread; [exact Hc | exact Hh |].
  now rewrite Hs, HT.
Qed.

Lemma complete_transition_witness :
  isActive
    (deckOf B
       (store (fst (animation_world demo_animation
                      (map at_time [2000; 6500; 8000])
                      (snd (startAutoCrossfade A B
                              (world (run (run_A_at 166000)
                                          initialSystem))))))))
  = true.
Proof.
  apply (complete_transition
           (world (run (run_A_at 166000) initialSystem)) A demo_animation
           [2000; 6500; 8000]).
  - exact demo_animation_started.
  - reflexivity.
  - reflexivity.
  - cbn. lra.
  - cbn. lra.
  - apply Exists_cons_tl, Exists_cons_tl, Exists_cons_hd. cbn. lra.
Defined.

(** *** A movement of the mouse on the record *)

Lemma Math_round_near x : x - / 2 < Math_round x <= x + / 2.
Proof.
  unfold Math_round. pose proof (Zfloor_bound (x + / 2)) as [H1 H2].
  split; lra.
Qed.

Lemma gesture_intensity lastAngle currentAngle direction intensity :
  VinylRecord.gesture lastAngle currentAngle = Some (direction, intensity) ->
  1 / 10 < intensity <= 1.
Proof.
  unfold VinylRecord.gesture. cbv zeta.
  match goal with
  | |- context [Math_min ?x 1] => set (scaled := x)
  end.
  destruct (gtb (Math_min scaled 1) (1 / 10)) eqn:E; [|discriminate].
  intros [= _ <-]. apply ltb_true in E. split; [exact E|].
  unfold Math_min, Rmin. destruct (Rle_dec scaled 1); lra.
Qed.

Lemma scrub_step (c dur amount : R) :
  0 <= c <= dur ->
  Rabs (Math_max 0 (Math_min dur (c + amount)) - c) <= Rabs amount.
Proof.
  intros Hc. unfold Math_max, Math_min, Rmax, Rmin.
  destruct (Rle_dec dur (c + amount));
    destruct (Rle_dec 0 _);
    unfold Rabs; repeat destruct (Rcase_abs _); lra.
Qed.

(** X26.  One movement of the mouse on the record of a deck panel, one
    call of [handleMouseMove], moves the deck by at most two seconds; a
    drag is a sequence of such movements, and each of them can move the
    deck again.  Whatever the two angles of the movement, when the deck
    shows a position inside its track, the position the deck is left at is
    within 2 s, and half a millisecond of rounding, of the position it had,
    and inside the track up to the same rounding; nothing else of the deck
    changes and nothing of the other deck; the remote player is sought at
    most once, and only when the deck is active. *)
Theorem vinyl_move_at_most_two_seconds :
  forall deck isDragging disabled lastAngle currentAngle w t,
    track (deckOf deck (store w)) = Some t ->
    0 <= currentTime (deckOf deck (store w)) <= duration t ->
    let d := deckOf deck (store w) in
    let w' := snd (vinyl_move (store w) deck isDragging disabled
                     lastAngle currentAngle w) in
    let d' := deckOf deck (store w') in
    Rabs (currentTime d' - currentTime d) <= 2 + 1 / 2000
    /\ 0 <= currentTime d' <= duration t + 1 / 2000
    /\ d' = with_currentTime (currentTime d') d
    /\ deckOf (other deck) (store w') = deckOf (other deck) (store w)
    /\ (List.length (new_calls w w') <= 1)%nat
    /\ (isActive d = false -> new_calls w w' = []).
Proof.
  intros deck isDragging disabled lastAngle currentAngle w t Ht Hc d.
  cbv zeta.
  assert (Hsame :
            Rabs (currentTime (deckOf deck (store w)) - currentTime d)
            <= 2 + 1 / 2000
            /\ 0 <= currentTime (deckOf deck (store w))
               <= duration t + 1 / 2000
            /\ deckOf deck (store w)
               = with_currentTime (currentTime (deckOf deck (store w))) d
            /\ deckOf (other deck) (store w) = deckOf (other deck) (store w)
            /\ (List.length (new_calls w w) <= 1)%nat
            /\ (isActive d = false -> new_calls w w = [])).
  { fold d.
    replace (currentTime d - currentTime d) with 0 by lra.
    rewrite Rabs_R0, new_calls_same by reflexivity.
    split; [lra|]. split; [subst d; lra|].
    split; [now destruct d|]. split; [reflexivity|]. cbn. split; [lia|auto]. }
  unfold vinyl_move, VinylRecord.handleMouseMove, DeckPanel.handleVinylScrub.
  rewrite Ht. cbv beta iota.
  destruct (negb isDragging || disabled); [exact Hsame|].
  destruct (VinylRecord.gesture lastAngle currentAngle) as [[direction intensity]|]
    eqn:Hg; [|exact Hsame].
  clear Hsame. apply gesture_intensity in Hg.
  pose proof (scrubTrack_result deck direction intensity w t Ht)
    as (Hd & Ho & Hcalls).
  cbv zeta in Hd, Ho, Hcalls. fold d in Hd, Hcalls.
  set (amount := intensity * 2
                 * match direction with forward => 1 | backward => -1 end)
    in *.
  set (newTime := Math_max 0 (Math_min (duration t) (currentTime d + amount)))
    in *.
  rewrite Hd. cbn [currentTime with_currentTime].
  assert (Hamount : Rabs amount <= 2).
  { subst amount. unfold Rabs. destruct direction;
      destruct (Rcase_abs _); lra. }
  pose proof (scrub_step (currentTime d) (duration t) amount Hc) as Hstep.
  fold newTime in Hstep.
  pose proof (clamp_to_duration (duration t) (currentTime d + amount)
                ltac:(subst d; lra)) as Hn.
  fold newTime in Hn.
  pose proof (Math_round_near (newTime * 1000)) as [Hlo Hhi].
  assert (H0 : 0 <= Math_round (newTime * 1000)).
  { rewrite <- (Math_round_IZR 0). apply Math_round_monotone. lra. }
  split.
  { unfold Rabs in *.
    destruct (Rcase_abs (newTime - currentTime d));
      destruct (Rcase_abs amount);
      destruct (Rcase_abs (Math_round (newTime * 1000) / 1000 - currentTime d));
      lra. }
  split; [lra|]. split; [reflexivity|]. split; [exact Ho|].
  rewrite Hcalls. destruct (isActive d); cbn; split; try lia; auto.
Qed.

Lemma vinyl_move_at_most_two_seconds_witness :
  Rabs (currentTime
          (deckOf A
             (store (snd (vinyl_move
                            (store (world (run run_A_active initialSystem)))
                            A true false 0 1
                            (world (run run_A_active initialSystem))))))
        - currentTime
            (deckOf A (store (world (run run_A_active initialSystem)))))
  <= 2 + 1 / 2000.
Proof.
  apply (vinyl_move_at_most_two_seconds A true false 0 1
           (world (run run_A_active initialSystem)) demo_loaded).
  - reflexivity.
  - cbn. lra.
Defined.
